(** * TerrainGenerators: a shallow embedding of NoiseMapGenerators_14.py
      and of MarkIIDungeonGeneratorDemo.py

    The Python modules are embedded function by function (Python 3:
    [/] is true division).  Integers are [Z], lists are [list].
    [random.randint] reads raw draws from an explicit list, exceptions and
    unbounded loops are made explicit in the [outcome] type.

    Python floats are idealised by exact rationals [Q]: the embedding
    has no rounding, no infinity and no NaN.  The code and the embedding
    compute the same value wherever the exact result of every float
    operation is a binary64 number, and they raise or return alike
    wherever no float operation of the code overflows.  The theorems
    that say that a call returns, or that give a value exactly, carry
    the hypotheses that keep a call inside that range ([float_safe],
    [exact_in_binary64]); the theorems that bound a value hold with
    room to spare for the rounding of the code. *)

From Stdlib Require Import ZArith List Lia Bool QArith Qround Qabs Lqa Permutation.
Import ListNotations.
Open Scope Z_scope.

(** * Part I: the embedding *)

(** ** Outcomes: a returned value, a raised exception, or a loop that
       did not finish within the fuel it was given. *)

Inductive exn : Type :=
| TypeError
| ValueError
| IndexError
| ZeroDivisionError
| UnboundLocalError.

Inductive outcome (A : Type) : Type :=
| Return (a : A)
| Raise (e : exn)
| OutOfFuel.

Arguments Return {A} a.
Arguments Raise {A} e.
Arguments OutOfFuel {A}.

Definition bind {A B : Type} (m : outcome A) (k : A -> outcome B) : outcome B :=
  match m with
  | Return a => k a
  | Raise e => Raise e
  | OutOfFuel => OutOfFuel
  end.

Notation "x <- m ;; k" := (bind m (fun x => k))
  (at level 61, m at next level, right associativity).
Notation "' p <- m ;; k" := (bind m (fun p => k))
  (at level 61, p pattern, m at next level, right associativity).

(** ** The random source.

    [random.randint(a, b)] returns an integer in [a..b] and raises
    [ValueError] on an empty range.  The source of randomness is a list of
    raw draws; a raw draw [r] selects [a + r mod (b - a + 1)], and an
    exhausted list keeps answering with the raw draw [0]. *)

Definition rng : Type := list Z.

Definition randint (a b : Z) (g : rng) : outcome (Z * rng) :=
  if b <? a then Raise ValueError
  else match g with
       | [] => Return (a, [])
       | r :: g' => Return (a + r mod (b - a + 1), g')
       end.

(** ** Python lists indexed by integers: a negative index counts from the
       end, anything else outside the list raises [IndexError]. *)

Definition py_index {A : Type} (l : list A) (i : Z) : option nat :=
  let n := Z.of_nat (length l) in
  if (0 <=? i) && (i <? n) then Some (Z.to_nat i)
  else if (i <? 0) && (- n <=? i) then Some (Z.to_nat (n + i))
  else None.

Definition py_get {A : Type} (l : list A) (i : Z) : outcome A :=
  match py_index l i with
  | Some k => match nth_error l k with
              | Some a => Return a
              | None => Raise IndexError
              end
  | None => Raise IndexError
  end.

Fixpoint set_nth {A : Type} (l : list A) (k : nat) (a : A) : list A :=
  match l, k with
  | [], _ => []
  | _ :: t, O => a :: t
  | h :: t, S k' => h :: set_nth t k' a
  end.

Definition py_set {A : Type} (l : list A) (i : Z) (a : A) : outcome (list A) :=
  match py_index l i with
  | Some k => Return (set_nth l k a)
  | None => Raise IndexError
  end.

(** [del l[k]] for an index already known to be in range *)
Fixpoint del_nth {A : Type} (l : list A) (k : nat) : list A :=
  match l, k with
  | [], _ => []
  | _ :: t, O => t
  | h :: t, S k' => h :: del_nth t k'
  end.

(** [range(a, b)] *)
Definition py_range (a b : Z) : list Z :=
  map (fun k => a + Z.of_nat k) (seq 0 (Z.to_nat (b - a))).

(** [len(l)] *)
Definition len {A : Type} (l : list A) : Z := Z.of_nat (length l).

(** A [for] loop over a list, threading a state through a fallible body. *)
Fixpoint for_each {A S : Type} (l : list A) (body : A -> S -> outcome S) (s : S)
  : outcome S :=
  match l with
  | [] => Return s
  | a :: t => s' <- body a s ;; for_each t body s'
  end.

(** ** Grids: [grid[row][col]] *)

Definition grid : Type := list (list Z).

Definition grid_get (g : grid) (row col : Z) : outcome Z :=
  r <- py_get g row ;; py_get r col.

Definition grid_set (g : grid) (row col : Z) (v : Z) : outcome grid :=
  r <- py_get g row ;;
  r' <- py_set r col v ;;
  py_set g row r'.

(** The blank map built by the nested [for]/[append] loops. *)
Definition blank_map (map_width map_height : Z) : grid :=
  map (fun _ => map (fun _ => 0) (py_range 0 map_width)) (py_range 0 map_height).

(** [the_map[row][col] += 1] *)
Definition increment_cell (g : grid) (row col : Z) : outcome grid :=
  v <- grid_get g row col ;;
  grid_set g row col (v + 1).

(** [if the_map[row][col] == 0: the_map[row][col] += 1] *)
Definition carve_if_uncarved (g : grid) (row col : Z) : outcome grid :=
  v <- grid_get g row col ;;
  if v =? 0 then increment_cell g row col else Return g.

(** ** Rectangles [[x, y, w, h]] and centerpoints [[x, y]] *)

Record rect : Type := Rect { rx : Z; ry : Z; rw : Z; rh : Z }.

Definition point : Type := (Z * Z)%type.

(** The cells a rectangle covers when it is carved:
    columns [rx .. rx+rw-1], rows [ry .. ry+rh-1]. *)
Definition in_rect (r : rect) (col row : Z) : Prop :=
  rx r <= col < rx r + rw r /\ ry r <= row < ry r + rh r.

(** ** check_these_two_rectangles_for_intersection
       (identical text in DungeonMapGenerator and MarkIIDungeonMapGenerator) *)

Definition check_these_two_rectangles_for_intersection
  (rectangle_alpha rectangle_beta : rect) : bool :=
  let new_x := rx rectangle_alpha in
  let new_x2 := rx rectangle_alpha + rw rectangle_alpha in
  let old_x := rx rectangle_beta in
  let old_x2 := rx rectangle_beta + rw rectangle_beta in
  let new_y := ry rectangle_alpha in
  let new_y2 := ry rectangle_alpha + rh rectangle_alpha in
  let old_y := ry rectangle_beta in
  let old_y2 := ry rectangle_beta + rh rectangle_beta in
  let c1 :=
    (((new_x >=? old_x) && (new_x <=? old_x2)) || ((new_x2 >=? old_x) && (new_x2 <=? old_x2)))
    && (((new_y >=? old_y) && (new_y <=? old_y2)) || ((new_y2 >=? old_y) && (new_y2 <=? old_y2))) in
  let c2 :=
    (((old_x >=? old_x) && (old_x <=? new_x2)) || ((old_x2 >=? new_x) && (old_x2 <=? new_x2)))
    && (((old_y >=? new_y) && (old_y <=? new_y2)) || ((old_y2 >=? new_y) && (old_y2 <=? new_y2))) in
  let c3 :=
    ((new_x >=? old_x) && (new_x2 <=? old_x2)) && ((new_y <=? old_y) && (new_y2 >=? old_y2)) in
  let c4 :=
    ((old_x >? new_x) && (old_x2 <? new_x2)) && ((old_y <? new_y) && (old_y2 >? new_y2)) in
  c1 || c2 || c3 || c4.

(** ** Pieces shared by the two corridor-building dungeon generators *)

Inductive orientation : Type := horizontal | vertical.

(** define_corridor: a one-tile-wide rectangle from [(x, y)] towards
    [(x2, y2)]; a negative extent is flipped and deducted from the origin. *)
Definition define_corridor (which_orientation : orientation) (x y x2 y2 : Z) : rect :=
  let width := x2 - x in
  let height := y2 - y in
  match which_orientation with
  | horizontal =>
      if width <? 0
      then let width' := width * -1 in Rect (x - width') y (width' + 1) 1
      else Rect x y (width + 1) 1
  | vertical =>
      if height <? 0
      then let height' := height * -1 in Rect x (y - height') 1 (height' + 1)
      else Rect x y 1 (height + 1)
  end.

Definition return_the_center_of_this_rectangle (upperleft_x upperleft_y width height : Z)
  : point :=
  (upperleft_x + width / 2, upperleft_y + height / 2).

Definition center_of (r : rect) : point :=
  return_the_center_of_this_rectangle (rx r) (ry r) (rw r) (rh r).

Definition point_eqb (p q : point) : bool :=
  (fst p =? fst q) && (snd p =? snd q).

(** The square of the distance [math.sqrt(dx ** 2 + dy ** 2)].  The code
    only ever compares two such distances with [<]; the square root is
    strictly increasing, so the comparison is made on the squares. *)
Definition hypotenuse2 (p q : point) : Z :=
  Z.abs (fst q - fst p) ^ 2 + Z.abs (snd q - snd p) ^ 2.

(** One step of the "shortest hypotenuse so far" scans: the candidate
    replaces the current choice when there is none yet or when it is
    strictly nearer. *)
Definition nearer {A : Type} (d : Z) (a : A) (best : option (Z * A)) : option (Z * A) :=
  match best with
  | None => Some (d, a)
  | Some (shortest, _) => if d <? shortest then Some (d, a) else best
  end.

(** The member of [candidates] nearest to [target] (the first one among
    equally near members). *)
Definition nearest_to (target : point) (candidates : list point) : option point :=
  option_map snd
    (fold_left (fun best c => nearer (hypotenuse2 c target) c best) candidates None).

(** The two corridors of an L-shaped link between [alpha] and [beta],
    ordered as the code appends them (horizontal, vertical). *)
Definition link_corridors (which_direction_first : Z) (alpha beta : point)
  : rect * rect :=
  if which_direction_first =? 0 then
    (define_corridor horizontal (fst alpha) (snd alpha) (fst beta) (snd beta),
     define_corridor vertical (fst beta) (snd beta) (fst alpha) (snd alpha))
  else
    (define_corridor horizontal (fst beta) (snd beta) (fst alpha) (snd alpha),
     define_corridor vertical (fst alpha) (snd alpha) (fst beta) (snd beta)).

(** The rejection test of a candidate room against the rooms kept so far *)
Definition passes_intersection_test (candidate : rect) (rooms : list rect) : bool :=
  fold_left
    (fun ok each_other_room =>
       if check_these_two_rectangles_for_intersection candidate each_other_room
       then false else ok)
    rooms true.

(** ** MarkIIDungeonMapGenerator *)

Module MarkII.

(** The arguments of [generate_noise]; all six are supplied. *)
Record params : Type := Params {
  supplied_map_width : Z;
  supplied_map_height : Z;
  room_max_size : Z;
  room_min_size : Z;
  room_max_count : Z;
  room_min_count : Z
}.

(** [self.map_width = supplied_map_width; self.map_width -= 1] *)
Definition map_width (p : params) : Z := supplied_map_width p - 1.
Definition map_height (p : params) : Z := supplied_map_height p - 1.

(** One pass of the room-attempt loop body: draw the extents, then the
    position, and keep the candidate when it meets no kept room. *)
Definition room_attempt (p : params) (_ : Z) (st : list rect * rng)
  : outcome (list rect * rng) :=
  let '(list_of_candidate_rooms, g) := st in
  '(new_room_width, g) <- randint (room_min_size p) (room_max_size p) g ;;
  '(new_room_height, g) <- randint (room_min_size p) (room_max_size p) g ;;
  '(new_room_x, g) <- randint 1 ((map_width p - 1) - new_room_width) g ;;
  '(new_room_y, g) <- randint 1 ((map_height p - 1) - new_room_height) g ;;
  let new_room_candidate := Rect new_room_x new_room_y new_room_width new_room_height in
  if passes_intersection_test new_room_candidate list_of_candidate_rooms
  then Return (list_of_candidate_rooms ++ [new_room_candidate], g)
  else Return (list_of_candidate_rooms, g).

(** [while len(list_of_candidate_rooms) < self.room_min_count: ...] *)
Fixpoint place_rooms (fuel : nat) (p : params) (list_of_candidate_rooms : list rect)
  (g : rng) : outcome (list rect * rng) :=
  if len list_of_candidate_rooms <? room_min_count p then
    match fuel with
    | O => OutOfFuel
    | S fuel' =>
        '(rooms, g) <- for_each (py_range 0 (room_max_count p)) (room_attempt p)
                         (list_of_candidate_rooms, g) ;;
        if len rooms <? room_min_count p
        then place_rooms fuel' p [] g
        else place_rooms fuel' p rooms g
    end
  else Return (list_of_candidate_rooms, g).

(** The nearest-centerpoint scan of the first pass: centerpoints equal
    to the room's own are skipped. *)
Definition closest_centerpoint (alpha : point) (list_of_all_centerpoints : list point)
  : option point :=
  option_map snd
    (fold_left
       (fun best each_centerpoint =>
          if point_eqb alpha each_centerpoint then best
          else nearer (hypotenuse2 alpha each_centerpoint) each_centerpoint best)
       list_of_all_centerpoints None).

(** The five flags of the scan of one color. *)
Record scan : Type := Scan {
  connects : bool;
  can_append_alpha : bool;
  can_append_beta : bool;
  can_append_horizontal : bool;
  can_append_vertical : bool
}.

Definition scan_step (a b h v : point) (s : scan) (each_centerpoint : point) : scan :=
  let s := if point_eqb each_centerpoint a
           then Scan true false (can_append_beta s) (can_append_horizontal s) (can_append_vertical s)
           else s in
  let s := if point_eqb each_centerpoint b
           then Scan true (can_append_alpha s) false (can_append_horizontal s) (can_append_vertical s)
           else s in
  let s := if point_eqb each_centerpoint h
           then Scan true (can_append_alpha s) (can_append_beta s) false (can_append_vertical s)
           else s in
  if point_eqb each_centerpoint v
  then Scan true (can_append_alpha s) (can_append_beta s) (can_append_horizontal s) false
  else s.

Definition scan_color (a b h v : point) (each_color : list point) : scan :=
  fold_left (scan_step a b h v) each_color (Scan false true true true true).

(** A color that holds one of the four centerpoints receives the ones
    it lacks. *)
Definition grow_color (a b h v : point) (each_color : list point) : list point :=
  let s := scan_color a b h v each_color in
  if connects s then
    each_color
      ++ (if can_append_alpha s then [a] else [])
      ++ (if can_append_beta s then [b] else [])
      ++ (if can_append_horizontal s then [h] else [])
      ++ (if can_append_vertical s then [v] else [])
  else each_color.

Definition update_colors (a b h v : point) (list_of_room_connection_colors : list (list point))
  : list (list point) :=
  if len list_of_room_connection_colors =? 0 then [[a; b; h; v]]
  else
    let does_this_room_fit_in_any_color :=
      existsb (fun c => connects (scan_color a b h v c)) list_of_room_connection_colors in
    let grown := map (grow_color a b h v) list_of_room_connection_colors in
    if does_this_room_fit_in_any_color then grown else grown ++ [[a; b; h; v]].

Record links : Type := Links {
  list_of_all_centerpoints : list point;
  list_of_room_connection_colors : list (list point);
  list_of_new_corridors : list rect
}.

(** The body of the first-pass loop for one room. *)
Definition link_room (each_room : rect) (st : links * rng) : outcome (links * rng) :=
  let '(lk, g) := st in
  let alpha := center_of each_room in
  let which_centerpoint_is_closest := closest_centerpoint alpha (list_of_all_centerpoints lk) in
  '(which_direction_first, g) <- randint 0 1 g ;;
  match which_centerpoint_is_closest with
  | None => Raise TypeError
  | Some beta =>
      let '(new_horizontal_corridor, new_vertical_corridor) :=
        link_corridors which_direction_first alpha beta in
      let horizontal_corridor_centerpoint := center_of new_horizontal_corridor in
      let vertical_corridor_centerpoint := center_of new_vertical_corridor in
      Return
        (Links
           (list_of_all_centerpoints lk
              ++ [horizontal_corridor_centerpoint; vertical_corridor_centerpoint])
           (update_colors alpha beta horizontal_corridor_centerpoint
              vertical_corridor_centerpoint (list_of_room_connection_colors lk))
           (list_of_new_corridors lk ++ [new_horizontal_corridor; new_vertical_corridor]),
         g)
  end.

(** The floor-divided mean of a color's centerpoints. *)
Definition average_centerpoint (color : list point) : outcome point :=
  let x_stack := fold_left (fun acc c => acc + fst c) color 0 in
  let y_stack := fold_left (fun acc c => acc + snd c) color 0 in
  if len color =? 0 then Raise ZeroDivisionError
  else Return (x_stack / len color, y_stack / len color).

(** The scan for the color nearest to color alpha; it keeps the color,
    its index and its average. *)
Definition closest_color_step (alpha_average : point)
  (indexed_color : nat * list point) (best : option (Z * (list point * nat * point)))
  : outcome (option (Z * (list point * nat * point))) :=
  let '(each_beta_color_index, color_beta) := indexed_color in
  beta_average <- average_centerpoint color_beta ;;
  Return (nearer (hypotenuse2 alpha_average beta_average)
            (color_beta, each_beta_color_index, beta_average) best).

Definition from_bound {A : Type} (o : option A) : outcome A :=
  match o with
  | Some a => Return a
  | None => Raise UnboundLocalError
  end.

(** One pass of the merging loop. *)
Definition merge_step (_ : Z) (st : list (list point) * list rect * rng)
  : outcome (list (list point) * list rect * rng) :=
  let '(colors, corridors, g) := st in
  if 1 <? len colors then
    let color_alpha := hd [] colors in
    alpha_average <- average_centerpoint color_alpha ;;
    best <- for_each (combine (seq 1 (length colors - 1)) (tl colors))
              (closest_color_step alpha_average) None ;;
    '(_, (which_color_is_closest, which_beta_color_index_is_closest, beta_average))
       <- from_bound best ;;
    which_alpha <- from_bound (nearest_to beta_average color_alpha) ;;
    which_beta <- from_bound (nearest_to alpha_average which_color_is_closest) ;;
    '(which_direction_first, g) <- randint 0 1 g ;;
    let '(new_horizontal_corridor, new_vertical_corridor) :=
      link_corridors which_direction_first which_alpha which_beta in
    Return
      (del_nth ((color_alpha ++ which_color_is_closest) :: tl colors)
         which_beta_color_index_is_closest,
       corridors ++ [new_horizontal_corridor; new_vertical_corridor],
       g)
  else Return st.

(** Writing one room: every cell of the rectangle is incremented. *)
Definition write_room (room : rect) (the_dungeon_map : grid) : outcome grid :=
  for_each (py_range 0 (rh room))
    (fun each_room_height_unit m =>
       for_each (py_range 0 (rw room))
         (fun each_room_width_unit m =>
            increment_cell m (ry room + each_room_height_unit) (rx room + each_room_width_unit))
         m)
    the_dungeon_map.

(** Writing one corridor: only still-zero cells are incremented. *)
Definition write_corridor (corridor : rect) (the_dungeon_map : grid) : outcome grid :=
  for_each (py_range 0 (rh corridor))
    (fun each_corridor_height_unit m =>
       for_each (py_range 0 (rw corridor))
         (fun each_corridor_width_unit m =>
            carve_if_uncarved m (ry corridor + each_corridor_height_unit)
              (rx corridor + each_corridor_width_unit))
         m)
    the_dungeon_map.

(** Everything after room placement: first-pass linking, color merging
    and the writing of the map. *)
Definition connect_and_write (p : params) (list_of_candidate_rooms : list rect) (g : rng)
  : outcome grid :=
  '(lk, g) <- for_each list_of_candidate_rooms link_room
                (Links (map center_of list_of_candidate_rooms) [] [], g) ;;
  '(_, corridors, _) <-
     for_each (py_range 0 (len (list_of_room_connection_colors lk))) merge_step
       (list_of_room_connection_colors lk, list_of_new_corridors lk, g) ;;
  the_dungeon_map <- for_each list_of_candidate_rooms write_room
                       (blank_map (map_width p) (map_height p)) ;;
  for_each corridors write_corridor the_dungeon_map.

Definition generate_noise (fuel : nat) (p : params) (g : rng) : outcome grid :=
  '(list_of_candidate_rooms, g) <- place_rooms fuel p [] g ;;
  connect_and_write p list_of_candidate_rooms g.

End MarkII.

(** ** DungeonMapGenerator *)

Module Dungeon.

Record params : Type := Params {
  supplied_map_width : Z;
  supplied_map_height : Z;
  room_max_size : Z;
  room_min_size : Z;
  room_max_count : Z;
  room_min_count : Z
}.

(** [supplied_map_width -= 1; self.map_width = supplied_map_width] *)
Definition map_width (p : params) : Z := supplied_map_width p - 1.
Definition map_height (p : params) : Z := supplied_map_height p - 1.

Definition room_attempt (p : params) (_ : Z) (st : list rect * rng)
  : outcome (list rect * rng) :=
  let '(list_of_rooms, g) := st in
  '(new_room_width, g) <- randint (room_min_size p) (room_max_size p) g ;;
  '(new_room_height, g) <- randint (room_min_size p) (room_max_size p) g ;;
  '(new_room_upperleft_x, g) <- randint 1 (map_width p - new_room_width) g ;;
  '(new_room_upperleft_y, g) <- randint 1 (map_height p - new_room_height) g ;;
  let new_room :=
    Rect new_room_upperleft_x new_room_upperleft_y new_room_width new_room_height in
  if passes_intersection_test new_room list_of_rooms
  then Return (list_of_rooms ++ [new_room], g)
  else Return (list_of_rooms, g).

(** [while are_there_enough_rooms_yet == False: list_of_rooms = [] ...] *)
Fixpoint place_rooms (fuel : nat) (p : params) (g : rng) : outcome (list rect * rng) :=
  match fuel with
  | O => OutOfFuel
  | S fuel' =>
      '(list_of_rooms, g) <- for_each (py_range 0 (room_max_count p)) (room_attempt p) ([], g) ;;
      if len list_of_rooms >=? room_min_count p
      then Return (list_of_rooms, g)
      else place_rooms fuel' p g
  end.

(** Carving one room: columns in the outer loop, rows in the inner one,
    each cell written only while it is still 0. *)
Definition carve_room (room : rect) (new_dungeon_map : grid) : outcome grid :=
  for_each (py_range (rx room) (rx room + rw room))
    (fun each_x_coordinate m =>
       for_each (py_range (ry room) (ry room + rh room))
         (fun each_y_coordinate m => carve_if_uncarved m each_y_coordinate each_x_coordinate)
         m)
    new_dungeon_map.

(** The body of the loop over the completed rooms.  After the room is
    carved and the direction is drawn, the body calls
    [self.return_the_center_of_this_rectangle()] without any of its four
    required arguments, which raises [TypeError]; the rest of the body
    (the two corridors and their carving) is never reached. *)
Definition carve_and_connect (each_completed_room : rect) (st : grid * rng)
  : outcome (grid * rng) :=
  let '(new_dungeon_map, g) := st in
  new_dungeon_map <- carve_room each_completed_room new_dungeon_map ;;
  '(which_direction_first, g) <- randint 0 1 g ;;
  Raise TypeError.

Definition generate_noise (fuel : nat) (p : params) (g : rng) : outcome grid :=
  let new_dungeon_map := blank_map (map_width p) (map_height p) in
  '(list_of_rooms, g) <- place_rooms fuel p g ;;
  '(new_dungeon_map, _) <- for_each list_of_rooms carve_and_connect (new_dungeon_map, g) ;;
  Return new_dungeon_map.

End Dungeon.

(** ** Floats

    Python floats are idealised by exact rationals.  [int(x)] truncates
    towards zero; on a float that has overflowed to infinity, or is NaN,
    the code raises [OverflowError] or [ValueError], which no rational
    stands for: [float_safe] below bounds the arguments that keep the
    code away from both. *)

Definition py_int (x : Q) : Z := Z.quot (Qnum x) (Zpos (Qden x)).

(** ** PerlinNoiseGenerator *)

Module Perlin.

(** [noise_value = random.randint(0, 1000) / 1000.0], appended to the row. *)
Definition fill_cell (_ : Z) (st : list Q * rng) : outcome (list Q * rng) :=
  let '(noise_row_handler, g) := st in
  '(v, g) <- randint 0 1000 g ;;
  Return (noise_row_handler ++ [(inject_Z v / 1000)%Q], g).

Definition fill_row (noise_width : Z) (_ : Z) (st : list (list Q) * rng)
  : outcome (list (list Q) * rng) :=
  let '(noise_array, g) := st in
  '(noise_row_handler, g) <- for_each (py_range 0 noise_width) fill_cell ([], g) ;;
  Return (noise_array ++ [noise_row_handler], g).

(** The random field of [noise_height] rows of [noise_width] values. *)
Definition fill_noise_array (noise_width noise_height : Z) (g : rng)
  : outcome (list (list Q) * rng) :=
  for_each (py_range 0 noise_height) (fill_row noise_width) ([], g).

(** [a % b] on integers *)
Definition py_mod (a b : Z) : outcome Z :=
  if b =? 0 then Raise ZeroDivisionError else Return (a mod b).

Definition noise_at (noise_array : list (list Q)) (row col : Z) : outcome Q :=
  r <- py_get noise_array row ;; py_get r col.

Definition smooth_noise (noise_array : list (list Q)) (noise_width noise_height : Z)
  (x y : Q) : outcome Q :=
  let fractional_element_of_x := (x - inject_Z (py_int x))%Q in
  let fractional_element_of_y := (y - inject_Z (py_int y))%Q in
  x1 <- py_mod (py_int x + noise_width) noise_width ;;
  y1 <- py_mod (py_int y + noise_height) noise_height ;;
  x2 <- py_mod (x1 + noise_width - 1) noise_width ;;
  y2 <- py_mod (y1 + noise_height - 1) noise_height ;;
  let value := 0%Q in
  n11 <- noise_at noise_array y1 x1 ;;
  let value := (value + fractional_element_of_x * fractional_element_of_y * n11)%Q in
  n21 <- noise_at noise_array y2 x1 ;;
  let value := (value + fractional_element_of_x * (1 - fractional_element_of_y) * n21)%Q in
  n12 <- noise_at noise_array y1 x2 ;;
  let value := (value + (1 - fractional_element_of_x) * fractional_element_of_y * n12)%Q in
  n22 <- noise_at noise_array y2 x2 ;;
  let value :=
    (value + (1 - fractional_element_of_x) * (1 - fractional_element_of_y) * n22)%Q in
  Return value.

(** [while (size >= 1): ...] *)
Fixpoint turbulence_loop (fuel : nat) (noise_array : list (list Q))
  (noise_width noise_height : Z) (x y size noise_value : Q) : outcome Q :=
  if Qle_bool 1 size then
    match fuel with
    | O => OutOfFuel
    | S fuel' =>
        the_smooth_noise <-
          smooth_noise noise_array noise_width noise_height (x / size)%Q (y / size)%Q ;;
        let the_smooth_noise := (the_smooth_noise * size)%Q in
        turbulence_loop fuel' noise_array noise_width noise_height x y (size / 2)%Q
          (noise_value + the_smooth_noise)%Q
    end
  else Return noise_value.

Definition totally_justified_turbulence_function (fuel : nat) (noise_array : list (list Q))
  (noise_width noise_height : Z) (x y size : Q) : outcome Q :=
  let initial_size := size in
  noise_value <- turbulence_loop fuel noise_array noise_width noise_height x y size 0%Q ;;
  if Qeq_bool initial_size 0 then Raise ZeroDivisionError
  else Return (noise_value / initial_size * 128)%Q.

Definition turbulate_cell (fuel : nat) (noise_array : list (list Q))
  (noise_width noise_height : Z) (frequency octaves : Q) (each_y each_x : Z)
  (turbulated_noise_row_handler : list Z) : outcome (list Z) :=
  v <- totally_justified_turbulence_function fuel noise_array noise_width noise_height
         (inject_Z each_x * frequency)%Q (inject_Z each_y * frequency)%Q octaves ;;
  Return (turbulated_noise_row_handler ++ [py_int v]).

Definition turbulate_row (fuel : nat) (noise_array : list (list Q))
  (noise_width noise_height : Z) (frequency octaves : Q) (each_y : Z) (result : grid)
  : outcome grid :=
  row <- for_each (py_range 0 noise_width)
           (turbulate_cell fuel noise_array noise_width noise_height frequency octaves each_y)
           [] ;;
  Return (result ++ [row]).

Definition generate_noise (fuel : nat) (width height : Z) (frequency octaves : Q) (g : rng)
  : outcome grid :=
  '(noise_array, _) <- fill_noise_array width height g ;;
  for_each (py_range 0 height)
    (turbulate_row fuel noise_array width height frequency octaves) [].

End Perlin.

(** ** PlasmaFractalGenerator *)

Module Plasma.

(** The fields of the generator that [generate_noise] reads. *)
Record generator : Type := Generator {
  displacement_min : Z;
  displacement_max : Z;
  minimum_separation_distance : Q
}.

(** An emitted cell [[x, y, z]]. *)
Definition emitted : Type := (Q * Q * Q)%type.

(** [plasma_recursion]: the fuel bounds the depth of the recursion (the
    interpreter's recursion limit); the emitted cells are appended to
    [self.saved_noise_array]. *)
Fixpoint plasma_recursion (fuel : nat) (gen : generator)
  (x y supplied_width supplied_height uleft_corner uright_corner lleft_corner lright_corner : Q)
  (st : list emitted * rng) : outcome (list emitted * rng) :=
  let new_width := (supplied_width / 2)%Q in
  let new_height := (supplied_height / 2)%Q in
  if negb (Qle_bool supplied_width (minimum_separation_distance gen))
     || negb (Qle_bool supplied_height (minimum_separation_distance gen))
  then
    match fuel with
    | O => OutOfFuel
    | S fuel' =>
        let '(saved_noise_array, g) := st in
        '(random_midpoint_displacement, g) <-
           randint (displacement_min gen) (displacement_max gen) g ;;
        let mid_z :=
          ((uleft_corner + uright_corner + lleft_corner + lright_corner) / 4
           + inject_Z random_midpoint_displacement)%Q in
        let top_z := ((uleft_corner + uright_corner) / 2)%Q in
        let bottom_z := ((lleft_corner + lright_corner) / 2)%Q in
        let left_z := ((uleft_corner + lleft_corner) / 2)%Q in
        let right_z := ((uright_corner + lright_corner) / 2)%Q in
        st <- plasma_recursion fuel' gen x y new_width new_height
                uleft_corner top_z left_z mid_z (saved_noise_array, g) ;;
        st <- plasma_recursion fuel' gen (x + new_width)%Q y new_width new_height
                top_z uright_corner mid_z right_z st ;;
        st <- plasma_recursion fuel' gen x (y + new_height)%Q new_width new_height
                left_z mid_z lleft_corner bottom_z st ;;
        plasma_recursion fuel' gen (x + new_width)%Q (y + new_height)%Q new_width new_height
          mid_z right_z bottom_z lright_corner st
    end
  else
    let '(saved_noise_array, g) := st in
    let new_z_value :=
      ((uleft_corner + uright_corner + lleft_corner + lright_corner) / 4)%Q in
    Return (saved_noise_array ++ [(x, y, new_z_value)], g).

(** [array_to_return[int(each_cell[1])][int(each_cell[0])] = each_cell[2]] *)
Definition store_cell (each_cell : emitted) (array_to_return : list (list Q))
  : outcome (list (list Q)) :=
  let '(cx, cy, cz) := each_cell in
  row <- py_get array_to_return (py_int cy) ;;
  row' <- py_set row (py_int cx) cz ;;
  py_set array_to_return (py_int cy) row'.

Definition generate_noise (fuel : nat) (gen : generator) (x y : Q)
  (supplied_width supplied_height : Z)
  (uleft_corner uright_corner lleft_corner lright_corner : Q) (g : rng)
  : outcome (list (list Q)) :=
  '(saved_noise_array, _) <-
     plasma_recursion fuel gen x y (inject_Z supplied_width) (inject_Z supplied_height)
       uleft_corner uright_corner lleft_corner lright_corner ([], g) ;;
  let array_to_return :=
    map (fun _ => map (fun _ => (-1)%Q) (py_range 0 supplied_width))
      (py_range 0 supplied_height) in
  for_each saved_noise_array store_cell array_to_return.

End Plasma.

(** ** SimplexNoiseGenerator *)

Module Simplex.

Definition grad3 : list (Z * Z * Z) :=
  [ (1, 1, 0); (-1, 1, 0); (1, -1, 0); (-1, -1, 0);
    (1, 0, 1); (-1, 0, 1); (1, 0, -1); (-1, 0, -1);
    (0, 1, 1); (0, -1, 1); (0, 1, -1); (0, -1, -1) ].

(** [F2 = 0.5 * (math.sqrt(3.0) - 1.0)] and [G2 = (3.0 - math.sqrt(3.0)) / 6.0]:
    the exact values of the two doubles, 0.3660254037844386 and
    0.21132486540518713. *)
Definition F2 : Q := 1648431872091733 # 4503599627370496.
Definition G2 : Q := 951722585092921 # 4503599627370496.

(** The mutable fields of a generator. *)
Record generator : Type := Generator {
  noise_array_seed : list Z;
  noise_array : list Z;
  hash_number : option Z;
  permutations_table : list Z
}.

(** The seed sequence written in [__init__]. *)
Definition initial_noise_array_seed : list Z :=
  [151;160;137;91;90;15;
   131;13;201;95;96;53;194;233;7;225;140;36;103;30;69;142;8;99;37;240;21;10;23;
   190;6;148;247;120;234;75;0;26;197;62;94;252;219;203;117;35;11;32;57;177;33;
   88;237;149;56;87;174;20;125;136;171;168;68;175;74;165;71;134;139;48;27;166;
   77;146;158;231;83;111;229;122;60;211;133;230;220;105;92;41;55;46;245;40;244;
   102;143;54;65;25;63;161;1;216;80;73;209;76;132;187;208;89;18;169;200;196;
   135;130;116;188;159;86;164;100;109;198;173;186;3;64;52;217;226;250;124;123;
   5;202;38;147;118;126;255;82;85;212;207;206;59;227;47;16;58;17;182;189;28;42;
   223;183;170;213;119;248;152;2;44;154;163;70;221;153;101;155;167;43;172;9;
   129;22;39;253;19;98;108;110;79;113;224;232;178;185;112;104;218;246;97;228;
   251;34;242;193;238;210;144;12;191;179;162;241;81;51;145;235;249;14;239;107;
   49;192;214;31;181;199;106;157;184;84;204;176;115;121;50;45;127;4;150;254;
   138;236;205;93;222;114;67;29;24;72;243;141;128;195;78;66;215;61;156;180].

(** [while len(noise_array_seed_handler) > 1:] pick an index, append the
    number found there to the new array and pop it from the handler. *)
Fixpoint shuffle_loop (fuel : nat) (noise_array_seed_handler new_noise_array : list Z)
  (g : rng) : outcome (list Z * list Z * rng) :=
  if 1 <? len noise_array_seed_handler then
    match fuel with
    | O => OutOfFuel
    | S fuel' =>
        '(which_number_to_pick, g) <- randint 0 (len noise_array_seed_handler - 1) g ;;
        picked <- py_get noise_array_seed_handler which_number_to_pick ;;
        shuffle_loop fuel' (del_nth noise_array_seed_handler (Z.to_nat which_number_to_pick))
          (new_noise_array ++ [picked]) g
    end
  else Return (noise_array_seed_handler, new_noise_array, g).

(** [double_the_noise_array] *)
Definition double_the_noise_array (gen : generator) : generator :=
  Generator (noise_array_seed gen) (noise_array gen ++ noise_array gen)
    (hash_number gen) (permutations_table gen).

Definition generate_permutations_table (gen : generator) : outcome generator :=
  let hash :=
    match hash_number gen with
    | None => len (noise_array gen) / 2 - 1
    | Some h => h
    end in
  table <- for_each (py_range 0 (len (noise_array gen)))
             (fun each_number table =>
                v <- py_get (noise_array gen) (Z.land each_number hash) ;;
                Return (table ++ [v]))
             [] ;;
  Return (Generator (noise_array_seed gen) (noise_array gen) (Some hash) table).

(** [randomize_the_noise_array_seed]; the loop runs fewer times than the
    seed sequence has entries, which is the fuel it is given. *)
Definition randomize_the_noise_array_seed (gen : generator) (g : rng)
  : outcome (generator * rng) :=
  let noise_array_seed_handler := noise_array_seed gen in
  '(noise_array_seed_handler, new_noise_array, g) <-
     shuffle_loop (length noise_array_seed_handler) noise_array_seed_handler [] g ;;
  last <- py_get noise_array_seed_handler 0 ;;
  let new_noise_array := new_noise_array ++ [last] in
  let gen := Generator (noise_array_seed gen) new_noise_array
               (hash_number gen) (permutations_table gen) in
  gen <- generate_permutations_table (double_the_noise_array gen) ;;
  Return (gen, g).

(** [__init__(supplied_hash)] *)
Definition init (supplied_hash : option Z) (g : rng) : outcome (generator * rng) :=
  randomize_the_noise_array_seed
    (Generator initial_noise_array_seed [] supplied_hash []) g.

Local Open Scope Q_scope.

Definition twodee_dot_product (supplied_gradient : Z * Z * Z) (x y : Q) : Q :=
  let '(g0, g1, _) := supplied_gradient in
  inject_Z g0 * x + inject_Z g1 * y.

(** [if t < 0: n = 0.0 else: t *= t; n = t * t * dot(gradient, x, y)] *)
Definition corner_contribution (gradient : Z * Z * Z) (x y : Q) : Q :=
  let t := (1 # 2) - x * x - y * y in
  if Qlt_le_dec t 0 then 0
  else let t := t * t in t * t * twodee_dot_product gradient x y.

Definition gradient_index (gen : generator) (a b : Z) : outcome Z :=
  inner <- py_get (permutations_table gen) b ;;
  outer <- py_get (permutations_table gen) (a + inner) ;;
  Return (outer mod 12).

Definition generate_raw_unoctaved_noise (gen : generator) (supplied_x supplied_y : Q)
  : outcome Q :=
  let s := (supplied_x + supplied_y) * F2 in
  let i := py_int (supplied_x + s) in
  let j := py_int (supplied_y + s) in
  let t := inject_Z (i + j) * G2 in
  let unskewed_x_zero := inject_Z i - t in
  let unskewed_y_zero := inject_Z j - t in
  let x0 := supplied_x - unskewed_x_zero in
  let y0 := supplied_y - unskewed_y_zero in
  let '(i1, j1) := if Qlt_le_dec y0 x0 then (1, 0)%Z else (0, 1)%Z in
  let x1 := x0 - inject_Z i1 + G2 in
  let y1 := y0 - inject_Z j1 + G2 in
  let x2 := x0 - 1 + 2 * G2 in
  let y2 := y0 - 1 + 2 * G2 in
  match hash_number gen with
  | None => Raise TypeError
  | Some hash =>
      let ii := Z.land i hash in
      let jj := Z.land j hash in
      gradient_i_zero <- gradient_index gen ii jj ;;
      gradient_i_one <- gradient_index gen (ii + i1) (jj + j1) ;;
      gradient_i_two <- gradient_index gen (ii + 1) (jj + 1) ;;
      g0 <- py_get grad3 gradient_i_zero ;;
      let n0 := corner_contribution g0 x0 y0 in
      g1 <- py_get grad3 gradient_i_one ;;
      let n1 := corner_contribution g1 x1 y1 in
      g2 <- py_get grad3 gradient_i_two ;;
      let n2 := corner_contribution g2 x2 y2 in
      let number_to_return := 70 * (n0 + n1 + n2) in
      let number_to_return := number_to_return + 1 in
      Return (number_to_return * 128)
  end.

(** The accumulators of the octave loop:
    total, frequency, amplitude, max_amplitude. *)
Definition octave_step (gen : generator) (supplied_x supplied_y persistence : Q)
  (_ : Z) (acc : Q * Q * Q * Q) : outcome (Q * Q * Q * Q) :=
  let '(total_noise_for_this_cell, frequency, amplitude, max_amplitude) := acc in
  let new_x := supplied_x * frequency in
  let new_y := supplied_y * frequency in
  raw <- generate_raw_unoctaved_noise gen new_x new_y ;;
  Return (total_noise_for_this_cell + raw * amplitude,
          frequency * 2, amplitude * persistence, max_amplitude + amplitude).

Definition generate_octaved_noise (gen : generator) (supplied_x supplied_y scale : Q)
  (octaves : Z) (persistence : Q) : outcome Q :=
  '(total_noise_for_this_cell, _, _, max_amplitude) <-
     for_each (py_range 0 octaves) (octave_step gen supplied_x supplied_y persistence)
       (0, scale, 1, 0) ;;
  if Qeq_bool max_amplitude 0 then Raise ZeroDivisionError
  else Return (total_noise_for_this_cell / max_amplitude).

(** [generate_noise] reshuffles the seed, then fills the grid; it returns
    the grid together with the generator as the call leaves it. *)
Definition generate_noise (gen : generator) (supplied_x supplied_y : Z) (scale : Q)
  (octaves : Z) (persistence : Q) (g : rng)
  : outcome (list (list Q) * generator) :=
  '(gen, _) <- randomize_the_noise_array_seed gen g ;;
  array_to_be_returned <-
    for_each (py_range 0 supplied_y)
      (fun each_y array_to_be_returned =>
         new_row <-
           for_each (py_range 0 supplied_x)
             (fun each_x new_row =>
                new_z_value <-
                  generate_octaved_noise gen (inject_Z each_x) (inject_Z each_y)
                    scale octaves persistence ;;
                Return (new_row ++ [new_z_value]))
             [] ;;
         Return (array_to_be_returned ++ [new_row]))
      [] ;;
  Return (array_to_be_returned, gen).

End Simplex.

(** ** RoomFilledMapGenerator *)

Module RoomFilled.

Record params : Type := Params {
  supplied_map_width : Z;
  supplied_map_height : Z;
  room_max_size : Z;
  room_min_size : Z
}.

(** The offsets visited by the two nested [range(-1, 2)] loops. *)
Definition nearby_tiles : list (Z * Z) :=
  flat_map (fun each_nearby_tile_y =>
              map (fun each_nearby_tile_x => (each_nearby_tile_y, each_nearby_tile_x))
                (py_range (-1) 2))
    (py_range (-1) 2).

(** Is the tile, or one of its eight neighbours, carved already? *)
Definition check_start (m : grid) (row col : Z) (should_we_start_a_room_here : Z)
  : outcome Z :=
  for_each nearby_tiles
    (fun t should =>
       v <- grid_get m (row + fst t) (col + snd t) ;;
       Return (if negb (v =? 0) then 0 else should))
    should_we_start_a_room_here.

(** One pass of the loop that probes the width, tile by tile. *)
Definition width_probe (m : grid) (row col : Z) (each_next_unit_of_width : Z)
  (st : Z * bool) : outcome (Z * bool) :=
  let '(room_max_width, continue_incrementing_room_width) := st in
  '(should_increment, continue_incrementing_room_width) <-
     for_each nearby_tiles
       (fun t (st : bool * bool) =>
          let '(should_increment, continue) := st in
          if continue then
            v <- grid_get m (row + fst t) ((col + snd t) + each_next_unit_of_width) ;;
            if v =? 0 then Return (true, continue) else Return (should_increment, false)
          else Return (should_increment, false))
       (false, continue_incrementing_room_width) ;;
  Return (if should_increment && continue_incrementing_room_width
          then room_max_width + 1 else room_max_width,
          continue_incrementing_room_width).

(** One pass of the loop that probes the height. *)
Definition height_probe (m : grid) (row col : Z) (each_next_unit_of_height : Z)
  (room_height_decrementor : Z) : outcome Z :=
  should_decrement <-
    for_each nearby_tiles
      (fun t should_decrement =>
         v <- grid_get m ((row + fst t) + each_next_unit_of_height) (col + snd t) ;;
         Return (if negb (v =? 0) then true else should_decrement))
      false ;;
  Return (if should_decrement then room_height_decrementor + 1 else room_height_decrementor).

(** Writing an accepted room: every cell is incremented. *)
Definition write_room (row col new_room_width new_room_height : Z) (m : grid) : outcome grid :=
  for_each (py_range 0 new_room_height)
    (fun each_new_room_height_index m =>
       for_each (py_range 0 new_room_width)
         (fun each_new_room_width_index m =>
            increment_cell m (row + each_new_room_height_index)
              (col + each_new_room_width_index))
         m)
    m.

(** The body of the scan at one tile. *)
Definition try_tile (p : params) (each_row_index each_column_index : Z) (st : grid * rng)
  : outcome (grid * rng) :=
  let '(new_dungeon_map, g) := st in
  let should_we_start_a_room_here := 1 in
  '(new_room_width, g) <- randint (room_min_size p) (room_max_size p) g ;;
  '(new_room_height, g) <- randint (room_min_size p) (room_max_size p) g ;;
  this_row <- py_get new_dungeon_map each_row_index ;;
  let '(new_room_width, should_we_start_a_room_here) :=
    if each_column_index + new_room_width >=? len this_row - 1 then
      let difference := each_column_index + new_room_width - (len this_row - 1) in
      let new_room_width := new_room_width - difference in
      (new_room_width,
       if new_room_width <? room_min_size p then 0 else should_we_start_a_room_here)
    else (new_room_width, should_we_start_a_room_here) in
  let '(new_room_height, should_we_start_a_room_here) :=
    if each_row_index + new_room_height >=? len new_dungeon_map - 1 then
      let difference := each_row_index + new_room_height - (len new_dungeon_map - 1) in
      let new_room_height := new_room_height - difference in
      (new_room_height,
       if new_room_height <? room_min_size p then 0 else should_we_start_a_room_here)
    else (new_room_height, should_we_start_a_room_here) in
  should_we_start_a_room_here <-
    check_start new_dungeon_map each_row_index each_column_index should_we_start_a_room_here ;;
  '(room_max_width, _) <-
     for_each (py_range 0 new_room_width)
       (width_probe new_dungeon_map each_row_index each_column_index) (0, true) ;;
  let new_room_width := room_max_width in
  let should_we_start_a_room_here :=
    if new_room_width <? room_min_size p then 0 else should_we_start_a_room_here in
  room_height_decrementor <-
    for_each (py_range 0 new_room_height)
      (height_probe new_dungeon_map each_row_index each_column_index) 0 ;;
  let new_room_height := new_room_height - room_height_decrementor in
  let should_we_start_a_room_here :=
    if new_room_height <? room_min_size p then 0 else should_we_start_a_room_here in
  if should_we_start_a_room_here =? 1 then
    new_dungeon_map <-
      write_room each_row_index each_column_index new_room_width new_room_height
        new_dungeon_map ;;
    Return (new_dungeon_map, g)
  else Return (new_dungeon_map, g).

Definition scan_row (p : params) (each_row_index : Z) (st : grid * rng)
  : outcome (grid * rng) :=
  this_row <- py_get (fst st) each_row_index ;;
  for_each (py_range 1 (len this_row - 1)) (try_tile p each_row_index) st.

Definition generate_noise (p : params) (g : rng) : outcome grid :=
  let new_dungeon_map := blank_map (supplied_map_width p) (supplied_map_height p) in
  '(new_dungeon_map, _) <-
     for_each (py_range 1 (len new_dungeon_map - 1)) (scan_row p) (new_dungeon_map, g) ;;
  Return new_dungeon_map.

End RoomFilled.

(** * MarkIIDungeonGeneratorDemo.py

    The demonstration program asks MarkIIDungeonMapGenerator for a map,
    turns the map into tiles and draws one rectangle per tile.  The
    calls into pygame are represented by the arguments they receive. *)

Module Demo.

Definition MAPTILE_WIDTH_IN_PIXELS : Z := 4.
Definition MAPTILE_HEIGHT_IN_PIXELS : Z := 4.

(** A color is a list [[r, g, b]]; the grayscale scheme builds it from
    [self.z], which may be [None]. *)
Definition color : Type := list (option Z).

Definition rgb (r g b : Z) : color := [Some r; Some g; Some b].

Definition BLACK : color := rgb 0 0 0.
Definition WHITE : color := rgb 255 255 255.
Definition LIGHT_GRAY : color := rgb 120 120 120.
Definition DARK_GRAY : color := rgb 50 50 50.
Definition GREEN : color := rgb 0 255 0.
Definition BLUE : color := rgb 0 0 255.
Definition DARK_BLUE : color := rgb 0 0 150.
Definition DEEP_BLUE : color := rgb 0 0 75.
Definition BRAUN : color := rgb 95 45 0.
Definition LIGHT_BRAUN : color := rgb 115 65 20.
Definition DARK_GREEN : color := rgb 0 155 0.
Definition DEBUG_PINK : color := rgb 224 176 255.

Inductive color_scheme : Type := terrain | grayscale | starfield | dungeon.

Definition WHICH_COLOR_SCHEME : color_scheme := dungeon.

Record MapTile : Type := Build_MapTile {
  x : Z;
  pixel_x : Z;
  y : Z;
  pixel_y : Z;
  z : option Z
}.

(** [MapTile.__init__]: a magnitude above 255 or below 0 is clamped. *)
Definition new_MapTile (supplied_x_in_maptiles supplied_y_in_maptiles : Z)
  (supplied_z : option Z) : MapTile :=
  let x := supplied_x_in_maptiles in
  let y := supplied_y_in_maptiles in
  Build_MapTile x (x * MAPTILE_WIDTH_IN_PIXELS) y (y * MAPTILE_HEIGHT_IN_PIXELS)
    (match supplied_z with
     | Some v => if v >? 255 then Some 255 else if v <? 0 then Some 0 else Some v
     | None => None
     end).

(** The arguments of one call of [pygame.draw.rect]: the color and the
    rectangle [[pixel_x, pixel_y, width, height]]. *)
Definition drawn : Type := (color * list Z)%type.

(** [draw_maptile] under a color scheme.  The test [type(self.z) == None]
    at its head compares a type with [None] and never holds, so every
    tile goes on to the scheme; the terrain scheme orders [self.z]
    against numbers, which raises [TypeError] for [None]. *)
Definition draw_maptile_in (scheme : color_scheme) (tile : MapTile) : outcome drawn :=
  let rectangle :=
    [pixel_x tile; pixel_y tile; MAPTILE_WIDTH_IN_PIXELS; MAPTILE_HEIGHT_IN_PIXELS] in
  match scheme with
  | terrain =>
      match z tile with
      | None => Raise TypeError
      | Some v =>
          Return (if v <? 90 then DEEP_BLUE
                  else if v <? 120 then DARK_BLUE
                  else if v <? 160 then BLUE
                  else if v <? 170 then GREEN
                  else if v <? 180 then DARK_GREEN
                  else if v <? 190 then GREEN
                  else if v <? 200 then BRAUN
                  else if v <? 210 then LIGHT_BRAUN
                  else WHITE, rectangle)
      end
  | starfield =>
      Return (match z tile with
              | Some 1 => WHITE
              | Some 2 => LIGHT_GRAY
              | Some 3 => DARK_GRAY
              | _ => BLACK
              end, rectangle)
  | dungeon =>
      Return (match z tile with
              | Some 0 => BLACK
              | Some 1 => LIGHT_GRAY
              | _ => DEBUG_PINK
              end, rectangle)
  | grayscale => Return ([z tile; z tile; z tile], rectangle)
  end.

Definition draw_maptile (tile : MapTile) : outcome drawn :=
  draw_maptile_in WHICH_COLOR_SCHEME tile.

(** [convert_noise_map_to_maptile_map] *)
Definition convert_noise_map_to_maptile_map (supplied_map : grid) : outcome (list MapTile) :=
  for_each (py_range 0 (len supplied_map))
    (fun each_y_index new_maptile_map =>
       row <- py_get supplied_map each_y_index ;;
       for_each (py_range 0 (len row))
         (fun each_x_index new_maptile_map =>
            row <- py_get supplied_map each_y_index ;;
            v <- py_get row each_x_index ;;
            let new_maptile := new_MapTile each_x_index each_y_index (Some v) in
            Return (new_maptile_map ++ [new_maptile]))
         new_maptile_map)
    [].

(** [render_all]: the screen is filled with black, then every tile is
    drawn; the result lists the rectangles drawn, in order. *)
Definition render_all (array_of_all_maptiles : list MapTile) : outcome (list drawn) :=
  for_each array_of_all_maptiles
    (fun _each_nook drawn_so_far =>
       d <- draw_maptile _each_nook ;;
       Return (drawn_so_far ++ [d]))
    [].

End Demo.


(** ** Vocabulary of the statements *)

(** The value stored at row [r], column [c] (0 outside the grid). *)
Definition cell (m : grid) (r c : nat) : Z := nth c (nth r m []) 0.

Definition in_rectb (room : rect) (col row : Z) : bool :=
  (rx room <=? col) && (col <? rx room + rw room)
  && (ry room <=? row) && (row <? ry room + rh room).

(** How many rectangles of a list cover the cell at [(col, row)]. *)
Fixpoint cover_count (rooms : list rect) (col row : Z) : Z :=
  match rooms with
  | [] => 0
  | room :: rest => (if in_rectb room col row then 1 else 0) + cover_count rest col row
  end.

(** Two rectangles share no cell. *)
Definition apart (a b : rect) : Prop :=
  forall col row, in_rect a col row -> in_rect b col row -> False.

(** Every cell of the grid is 0 or 1. *)
Definition binary_grid (m : grid) : Prop :=
  Forall (Forall (fun v => v = 0 \/ v = 1)) m.

(** [m] has exactly [h] rows, each of length [w]. *)
Definition has_dimensions {A : Type} (m : list (list A)) (w h : Z) : Prop :=
  len m = h /\ Forall (fun row => len row = w) m.

(** The cells [(row, col)] visited by the two nested loops that write a
    rectangle, in the order of the visits. *)
Definition targets (room : rect) : list (Z * Z) :=
  flat_map (fun dy => map (fun dx => (ry room + dy, rx room + dx)) (py_range 0 (rw room)))
    (py_range 0 (rh room)).

(** How often a list of visits names the cell at row [r], column [c]. *)
Fixpoint hits (ts : list (Z * Z)) (r c : nat) : Z :=
  match ts with
  | [] => 0
  | t :: rest =>
      (if (fst t =? Z.of_nat r) && (snd t =? Z.of_nat c) then 1 else 0) + hits rest r c
  end.

(** The loop bodies applied to a visited cell. *)
Definition visit_increment (t : Z * Z) (m : grid) : outcome grid :=
  increment_cell m (fst t) (snd t).

Definition visit_carve (t : Z * Z) (m : grid) : outcome grid :=
  carve_if_uncarved m (fst t) (snd t).

(** Every cell, addressed by position, is 0 or 1. *)
Definition cells01 (m : grid) : Prop :=
  forall r c, cell m r c = 0 \/ cell m r c = 1.

(** What room placement guarantees of the rooms it keeps: each lies at
    column and row 1 or beyond, has the drawn extents and ends before the
    last usable column and row, and no two of them share a cell. *)
Definition well_placed (p : MarkII.params) (room : rect) : Prop :=
  1 <= rx room /\ 1 <= ry room
  /\ MarkII.room_min_size p <= rw room /\ MarkII.room_min_size p <= rh room
  /\ rx room + rw room <= MarkII.map_width p - 1
  /\ ry room + rh room <= MarkII.map_height p - 1.

Definition placement (p : MarkII.params) (rooms : list rect) : Prop :=
  Forall (well_placed p) rooms /\ ForallOrdPairs apart rooms.

(** A random field of [h] rows of [w] values, all between 0 and 1. *)
Definition unit_row (w : Z) (row : list Q) : Prop :=
  length row = Z.to_nat w /\ Forall (fun v => (0 <= v <= 1)%Q) row.

Definition unit_field (noise_array : list (list Q)) (w h : Z) : Prop :=
  length noise_array = Z.to_nat h /\ Forall (unit_row w) noise_array.


(** The cell at row [r], column [c] of a grid of numbers. *)
Definition qcell (m : list (list Q)) (r c : nat) : Q := nth c (nth r m []) (-1)%Q.

(** The three entries of an emitted cell [[x, y, z]]. *)
Definition ex (e : Plasma.emitted) : Q := fst (fst e).
Definition ey (e : Plasma.emitted) : Q := snd (fst e).
Definition ez (e : Plasma.emitted) : Q := snd e.

(** The position a stored cell is written to. *)
Definition stored_row (e : Plasma.emitted) : nat := Z.to_nat (py_int (ey e)).
Definition stored_col (e : Plasma.emitted) : nat := Z.to_nat (py_int (ex e)).

(** ** Reachability in the written map *)

(** Two cells are neighbours when they lie one step apart along a row or
    along a column (4-adjacency).  A point is [(column, row)]. *)
Definition adjacent (a b : point) : Prop :=
  (fst a = fst b /\ (snd b = snd a + 1 \/ snd b = snd a - 1))
  \/ (snd a = snd b /\ (fst b = fst a + 1 \/ fst b = fst a - 1)).

(** [reachable ok a b]: a walk of neighbouring cells leads from [a] to
    [b], and every cell on it, both ends included, satisfies [ok]. *)
Inductive reachable (ok : point -> Prop) : point -> point -> Prop :=
| reachable_here (a : point) : ok a -> reachable ok a a
| reachable_step (a b c : point) :
    reachable ok a b -> adjacent b c -> ok c -> reachable ok a c.

(** The cell of the map at column [fst pt], row [snd pt] is excavated:
    it is a cell of the grid and holds a value of at least 1. *)
Definition excavated (m : grid) (pt : point) : Prop :=
  0 <= fst pt /\ 0 <= snd pt /\ 1 <= cell m (Z.to_nat (snd pt)) (Z.to_nat (fst pt)).

(** The point is one of the cells of the rectangle. *)
Definition on_rect (r : rect) (pt : point) : Prop := in_rect r (fst pt) (snd pt).

(** The point is a cell of one of the rectangles. *)
Definition covered (rs : list rect) (pt : point) : Prop :=
  exists r, In r rs /\ on_rect r pt.

(** The members of a color are mutually reachable. *)
Definition linked (ok : point -> Prop) (color : list point) : Prop :=
  forall a b, In a color -> In b color -> reachable ok a b.

(** The point lies in the part of the map where rooms are placed. *)
Definition inside_map (p : MarkII.params) (pt : point) : Prop :=
  1 <= fst pt <= MarkII.map_width p - 1 /\ 1 <= snd pt <= MarkII.map_height p - 1.

(** Every cell of the rectangle lies in that part of the map. *)
Definition within_map (p : MarkII.params) (r : rect) : Prop :=
  forall q, on_rect r q -> inside_map p q.

(** The point is a member of one of the colors. *)
Definition in_some_color (colors : list (list point)) (q : point) : Prop :=
  exists color, In color colors /\ In q color.

(** What linking and merging maintain: the corridors stay inside the
    map, and the members of each color are mutually reachable along the
    corridors defined so far. *)
Definition colors_ok (p : MarkII.params) (colors : list (list point)) (corridors : list rect)
  : Prop :=
  Forall (within_map p) corridors /\ Forall (linked (covered corridors)) colors.

(** The same parameters for a map one column and one row smaller:
    [inside_map (narrowed p)] leaves out the last column and the last
    row of the map as well. *)
Definition narrowed (p : MarkII.params) : MarkII.params :=
  MarkII.Params (MarkII.supplied_map_width p - 1) (MarkII.supplied_map_height p - 1)
    (MarkII.room_max_size p) (MarkII.room_min_size p)
    (MarkII.room_max_count p) (MarkII.room_min_count p).

(** The tile at [(row, col)] and its eight neighbours are all uncarved. *)
Definition clear_around (m : grid) (row col : Z) : Prop :=
  forall t, In t RoomFilled.nearby_tiles ->
    cell m (Z.to_nat (row + fst t)) (Z.to_nat (col + snd t)) = 0.

(** From row [row] downwards every carved cell has a carved cell right
    above it, unless it lies in row [row] itself. *)
Definition stacked (m : grid) (row : Z) : Prop :=
  forall r c : nat, row <= Z.of_nat r -> cell m (S r) c <> 0 -> cell m r c <> 0.

(** Carved cells form rectangles with walls between them: wherever two
    cells that touch at a corner are both carved, the two cells between
    them are carved as well. *)
Definition walled (m : grid) : Prop :=
  forall r c,
    (cell m r c <> 0 /\ cell m (S r) (S c) <> 0) \/ (cell m r (S c) <> 0 /\ cell m (S r) c <> 0) ->
    cell m r c <> 0 /\ cell m r (S c) <> 0 /\ cell m (S r) c <> 0 /\ cell m (S r) (S c) <> 0.

(** No cell of the outermost rows and columns is carved. *)
Definition bordered (m : grid) (w h : Z) : Prop :=
  forall r c, cell m r c <> 0 -> 1 <= Z.of_nat r <= h - 2 /\ 1 <= Z.of_nat c <= w - 2.


(** ** A bound on the simplex kernels, checked box by box

    In the coordinates [u = x + y] and [v = x - y] the contribution of a
    corner at offset [(dx, dy)] is [t^4 * dot] with
    [2 t = 1 - du^2 - dv^2] and [|dot| <= max |du| |dv|].  Lengths are
    counted in grains, [grain] to the unit. *)
Definition grain : Z := 65536.

(** What [16 * grain^9 * |contribution|] can be at most, for a corner
    whose offset has [a <= grain * du <= b] and [c <= grain * |dv'| <= d],
    [dv'] being [dv] or [- dv]. *)
Definition kernel_bound (a b c d : Z) : Z :=
  let mu := Z.max 0 (Z.max a (- b)) in
  let mv := Z.max 0 (Z.max c (- d)) in
  let T := grain * grain - mu * mu - mv * mv in
  if T <=? 0 then 0
  else let T2 := T * T in T2 * T2 * Z.max (Z.max (- a) b) (Z.max (- c) d).

(** The second and the third corner lie at [u = 1 - 2 G2] and
    [u = 2 - 4 G2]; in grains, between these integers. *)
Definition corner_one_lo : Z := 37837.
Definition corner_one_hi : Z := 37838.
Definition corner_two_lo : Z := 75674.
Definition corner_two_hi : Z := 75675.

(** The three corners together, over the box
    [ul <= grain * u <= ul + hu], [vl <= grain * |v| <= vl + hv]. *)
Definition box_bound (ul vl hu hv : Z) : Z :=
  kernel_bound ul (ul + hu) vl (vl + hv)
  + kernel_bound (ul - corner_one_hi) (ul + hu - corner_one_lo)
      (vl - grain) (vl + hv - grain)
  + kernel_bound (ul - corner_two_hi) (ul + hu - corner_two_lo) vl (vl + hv).

Definition box_limit : Z := Eval vm_compute in 16 * grain ^ 9.

(** A box passes when 70 times its bound stays below one; otherwise it
    is cut in two, across [u] unless it is much longer in [v], and both
    halves have to pass. *)
Fixpoint boxes_pass (fuel : nat) (ul vl hu hv : Z) : bool :=
  if 70 * box_bound ul vl hu hv <? box_limit then true
  else
    match fuel with
    | O => false
    | S fuel' =>
        if hv <=? 4 * hu then
          Z.even hu
          && boxes_pass fuel' ul vl (hu / 2) hv
          && boxes_pass fuel' (ul + hu / 2) vl (hu / 2) hv
        else
          Z.even hv
          && boxes_pass fuel' ul vl hu (hv / 2)
          && boxes_pass fuel' ul (vl + hv / 2) hu (hv / 2)
    end.

(** The three contributions that [generate_raw_unoctaved_noise] adds
    up, for the offsets [x0, y0] of the first corner and the gradients
    found for the three corners. *)
Definition corner_sum (g0 g1 g2 : Z * Z * Z) (x0 y0 : Q) : Q :=
  (let '(i1, j1) := if Qlt_le_dec y0 x0 then (1, 0)%Z else (0, 1)%Z in
   Simplex.corner_contribution g0 x0 y0
   + Simplex.corner_contribution g1
       (x0 - inject_Z i1 + Simplex.G2) (y0 - inject_Z j1 + Simplex.G2)
   + Simplex.corner_contribution g2
       (x0 - 1 + 2 * Simplex.G2) (y0 - 1 + 2 * Simplex.G2))%Q.

(** The offsets covered by a box. *)
Definition in_box (ul vl hu hv : Z) (x y : Q) : Prop :=
  (inject_Z ul <= inject_Z grain * (x + y) <= inject_Z (ul + hu)
   /\ ((y < x /\ inject_Z vl <= inject_Z grain * (x - y) <= inject_Z (vl + hv))
       \/ (x <= y /\ inject_Z vl <= inject_Z grain * (y - x) <= inject_Z (vl + hv))))%Q.

(** Every cell of a field of numbers lies in [[lo, hi)]. *)
Definition field_within (lo hi : Q) (m : list (list Q)) : Prop :=
  Forall (Forall (fun v => lo <= v /\ v < hi)%Q) m.

(** How far the midpoint displacements can carry a value below and
    above the supplied corners, over [depth] levels of the recursion. *)
Definition drift_below (gen : Plasma.generator) (depth : nat) : Q :=
  inject_Z (Z.of_nat depth * Z.min 0 (Plasma.displacement_min gen)).
Definition drift_above (gen : Plasma.generator) (depth : nat) : Q :=
  inject_Z (Z.of_nat depth * Z.max 0 (Plasma.displacement_max gen)).

(** What one call of the recursion appends: cells inside the quadrant,
    with values in [[lo, hi]], and among them one at every point of a
    lattice of [n] by [n] points, [sw] apart across and [sh] down. *)
Definition quadrant_filled (lo hi : Q) (n : Z) (sw sh : Q) (x0 y0 W H : Q)
  (new : list Plasma.emitted) : Prop :=
  Forall (fun e => (x0 <= ex e)%Q /\ (ex e < x0 + W)%Q /\ (y0 <= ey e)%Q /\ (ey e < y0 + H)%Q
                   /\ (lo <= ez e)%Q /\ (ez e <= hi)%Q) new
  /\ forall i j, 0 <= i < n -> 0 <= j < n ->
       exists e, In e new /\ (ex e == x0 + inject_Z i * sw)%Q
                 /\ (ey e == y0 + inject_Z j * sh)%Q.

(** A magnitude far enough below the largest double (just under 2^1024)
    that the products and sums the code forms from a coordinate of this
    size stay finite. *)
Definition float_safe : Q := inject_Z (2 ^ 1000).

(** Binary floating point holds the integers up to 2^53 exactly.  The
    values that [depth] levels of the plasma recursion form from integers
    of size at most [magnitude] are multiples of [4^-depth], and their
    sums of four stay below [4 * magnitude]; the coordinates of a grid
    of at most [2^depth] cells across are multiples of [2^-depth].
    Under this condition every sum, every halving and every average of
    the code is exact, and the code computes what the embedding
    computes. *)
Definition exact_in_binary64 (depth : nat) (magnitude : Z) : Prop :=
  4 ^ (Z.of_nat depth + 1) * Z.max 1 magnitude <= 2 ^ 53.





(** * Part II: properties *)

Lemma bind_Return_inv {A B : Type} (m : outcome A) (k : A -> outcome B) (b : B) :
  bind m k = Return b -> exists a, m = Return a /\ k a = Return b.
Proof.
  destruct m as [a| |]; simpl; intro H; try discriminate.
  exists a; split; [reflexivity | exact H].
Qed.

Lemma randint_range (a b : Z) (g g' : rng) (v : Z) :
  randint a b g = Return (v, g') -> a <= v <= b.
Proof.
  unfold randint. destruct (b <? a) eqn:E; [discriminate|].
  apply Z.ltb_ge in E.
  destruct g as [|r g0]; intro H; inversion H; subst; clear H.
  - lia.
  - pose proof (Z.mod_pos_bound r (b - a + 1)). lia.
Qed.

Lemma point_eqb_eq (p q : point) : point_eqb p q = true <-> p = q.
Proof.
  unfold point_eqb. destruct p as [a b], q as [c d]; simpl.
  rewrite andb_true_iff, !Z.eqb_eq. split.
  - intros [-> ->]; reflexivity.
  - intro H; inversion H; auto.
Qed.

Lemma intersection_check_complete (a b : rect) (col row : Z) :
  in_rect a col row -> in_rect b col row ->
  check_these_two_rectangles_for_intersection a b = true.
Proof.
  unfold in_rect, check_these_two_rectangles_for_intersection.
  destruct a as [ax ay aw ah], b as [bx by_ bw bh]; simpl.
  intros [Hx Hy] [Hx' Hy'].
  rewrite !Z.geb_leb, !Z.gtb_ltb.
  rewrite !orb_true_iff, !andb_true_iff, !Z.leb_le, !Z.ltb_lt.
  lia.
Qed.

(** C7: the cross configuration [1,1,5,5] / [3,0,1,10] is reported as
    intersecting, whichever rectangle is passed first. *)
Theorem cross_rectangles_intersect :
  check_these_two_rectangles_for_intersection (Rect 1 1 5 5) (Rect 3 0 1 10) = true
  /\ check_these_two_rectangles_for_intersection (Rect 3 0 1 10) (Rect 1 1 5 5) = true.
Proof. split; reflexivity. Qed.

(** ** Python lists and grids *)

Lemma py_index_lt {A : Type} (l : list A) (i : Z) (k : nat) :
  py_index l i = Some k -> (k < length l)%nat.
Proof.
  unfold py_index.
  destruct ((0 <=? i) && (i <? Z.of_nat (length l))) eqn:E1.
  - apply andb_true_iff in E1 as [H1 H2].
    apply Z.leb_le in H1. apply Z.ltb_lt in H2.
    intro H; inversion H; subst. lia.
  - destruct ((i <? 0) && (- Z.of_nat (length l) <=? i)) eqn:E2; [|discriminate].
    apply andb_true_iff in E2 as [H1 H2].
    apply Z.ltb_lt in H1. apply Z.leb_le in H2.
    intro H; inversion H; subst. lia.
Qed.

Lemma py_index_nonneg {A : Type} (l : list A) (i : Z) (k : nat) :
  0 <= i -> py_index l i = Some k -> k = Z.to_nat i.
Proof.
  unfold py_index. intros Hi.
  destruct ((0 <=? i) && (i <? Z.of_nat (length l))) eqn:E1.
  - intro H; inversion H; reflexivity.
  - destruct ((i <? 0) && (- Z.of_nat (length l) <=? i)) eqn:E2; [|discriminate].
    apply andb_true_iff in E2 as [H1 _]. apply Z.ltb_lt in H1. lia.
Qed.

Lemma length_set_nth {A : Type} (l : list A) (k : nat) (a : A) :
  length (set_nth l k a) = length l.
Proof.
  revert k; induction l as [|h t IH]; intros [|k]; simpl; auto.
Qed.

Lemma nth_set_nth {A : Type} (l : list A) (j k : nat) (a d : A) :
  (j < length l)%nat ->
  nth k (set_nth l j a) d = if Nat.eqb k j then a else nth k l d.
Proof.
  revert j k; induction l as [|h t IH]; intros j k Hj; simpl in Hj; [lia|].
  destruct j as [|j], k as [|k]; simpl; auto.
  apply IH. lia.
Qed.

Lemma nth_set_nth_other {A : Type} (l : list A) (j k : nat) (a d : A) :
  k <> j -> nth k (set_nth l j a) d = nth k l d.
Proof.
  revert j k; induction l as [|h t IH]; intros j k Hjk; simpl.
  - destruct j; reflexivity.
  - destruct j as [|j], k as [|k]; simpl; auto; try lia.
Qed.

Lemma py_get_inv {A : Type} (l : list A) (i : Z) (a d : A) :
  py_get l i = Return a ->
  exists k, py_index l i = Some k /\ nth k l d = a.
Proof.
  unfold py_get. destruct (py_index l i) as [k|] eqn:E; [|discriminate].
  destruct (nth_error l k) as [x|] eqn:N; [|discriminate].
  intro H; inversion H; subst. exists k; split; auto.
  apply nth_error_nth; exact N.
Qed.

Lemma py_set_inv {A : Type} (l l' : list A) (i : Z) (a : A) :
  py_set l i a = Return l' ->
  exists k, py_index l i = Some k /\ l' = set_nth l k a.
Proof.
  unfold py_set. destruct (py_index l i) as [k|]; [|discriminate].
  intro H; inversion H; subst. exists k; auto.
Qed.

Lemma grid_get_inv (m : grid) (R C v : Z) :
  grid_get m R C = Return v ->
  exists kr kc, py_index m R = Some kr /\ py_index (nth kr m []) C = Some kc
                /\ cell m kr kc = v.
Proof.
  unfold grid_get. intro H.
  apply bind_Return_inv in H as (row & Hrow & Hc).
  apply (py_get_inv _ _ _ []) in Hrow as (kr & Hkr & Hn).
  apply (py_get_inv _ _ _ 0) in Hc as (kc & Hkc & Hv).
  exists kr, kc. unfold cell. rewrite Hn. auto.
Qed.

Lemma grid_set_inv (m m' : grid) (R C v : Z) :
  grid_set m R C v = Return m' ->
  exists kr kc, py_index m R = Some kr /\ py_index (nth kr m []) C = Some kc
                /\ m' = set_nth m kr (set_nth (nth kr m []) kc v).
Proof.
  unfold grid_set. intro H.
  apply bind_Return_inv in H as (row & Hrow & H).
  apply bind_Return_inv in H as (row' & Hrow' & H).
  apply (py_get_inv _ _ _ []) in Hrow as (kr & Hkr & Hn).
  apply py_set_inv in Hrow' as (kc & Hkc & ->).
  apply py_set_inv in H as (kr' & Hkr' & ->).
  rewrite Hkr in Hkr'. inversion Hkr'; subst kr'.
  exists kr, kc. rewrite Hn. auto.
Qed.

Lemma cell_set (m : grid) (kr kc r c : nat) (v : Z) :
  (kr < length m)%nat -> (kc < length (nth kr m []))%nat ->
  cell (set_nth m kr (set_nth (nth kr m []) kc v)) r c
  = if (Nat.eqb r kr && Nat.eqb c kc)%bool then v else cell m r c.
Proof.
  intros Hr Hc. unfold cell.
  rewrite (nth_set_nth m kr r _ []) by exact Hr.
  destruct (Nat.eqb r kr) eqn:E; simpl; [|reflexivity].
  apply Nat.eqb_eq in E; subst r.
  rewrite (nth_set_nth _ kc c v 0) by exact Hc.
  reflexivity.
Qed.

(** [increment_cell] adds one to exactly one cell, the one it read. *)
Lemma increment_cell_inv (m m' : grid) (R C : Z) :
  increment_cell m R C = Return m' ->
  exists kr kc, py_index m R = Some kr /\ py_index (nth kr m []) C = Some kc /\
    m' = set_nth m kr (set_nth (nth kr m []) kc (cell m kr kc + 1)) /\
    forall r c, cell m' r c
                = if (Nat.eqb r kr && Nat.eqb c kc)%bool then cell m kr kc + 1 else cell m r c.
Proof.
  unfold increment_cell. intro H.
  apply bind_Return_inv in H as (v & Hv & Hs).
  apply grid_get_inv in Hv as (kr & kc & Hkr & Hkc & Hcell).
  apply grid_set_inv in Hs as (kr' & kc' & Hkr' & Hkc' & ->).
  rewrite Hkr in Hkr'; inversion Hkr'; subst kr'.
  rewrite Hkc in Hkc'; inversion Hkc'; subst kc'.
  exists kr, kc. subst v. repeat split; auto.
  intros r c. apply cell_set.
  - eapply py_index_lt; eauto.
  - eapply py_index_lt; eauto.
Qed.

(** ** Loops *)

Lemma for_each_app {A S : Type} (l1 l2 : list A) (body : A -> S -> outcome S) (s : S) :
  for_each (l1 ++ l2) body s = (s' <- for_each l1 body s ;; for_each l2 body s').
Proof.
  revert s; induction l1 as [|a t IH]; intro s; simpl; [reflexivity|].
  destruct (body a s); simpl; auto.
Qed.

Lemma for_each_map {A B S : Type} (f : A -> B) (l : list A) (body : B -> S -> outcome S) (s : S) :
  for_each (map f l) body s = for_each l (fun a => body (f a)) s.
Proof.
  revert s; induction l as [|a t IH]; intro s; simpl; [reflexivity|].
  destruct (body (f a) s); simpl; auto.
Qed.

Lemma for_each_flat_map {A B S : Type} (f : A -> list B) (l : list A)
  (body : B -> S -> outcome S) (s : S) :
  for_each l (fun a s => for_each (f a) body s) s = for_each (flat_map f l) body s.
Proof.
  revert s; induction l as [|a t IH]; intro s; simpl; [reflexivity|].
  rewrite for_each_app. destruct (for_each (f a) body s); simpl; auto.
Qed.

Lemma for_each_ext {A S : Type} (l : list A) (b1 b2 : A -> S -> outcome S) (s : S) :
  (forall a s, b1 a s = b2 a s) -> for_each l b1 s = for_each l b2 s.
Proof.
  intro H. revert s; induction l as [|a t IH]; intro s; simpl; [reflexivity|].
  rewrite H. destruct (b2 a s); simpl; auto.
Qed.

(** A property kept by every pass of the body holds after the loop. *)
Lemma for_each_invariant {A S : Type} (P : S -> Prop) (l : list A)
  (body : A -> S -> outcome S) (s s' : S) :
  (forall a s1 s2, In a l -> P s1 -> body a s1 = Return s2 -> P s2) ->
  P s -> for_each l body s = Return s' -> P s'.
Proof.
  revert s; induction l as [|a t IH]; intros s Hstep Hs H; simpl in H.
  - inversion H; subst; exact Hs.
  - apply bind_Return_inv in H as (s1 & H1 & H2).
    apply (IH s1); auto.
    + intros b u v Hb. apply Hstep. right; exact Hb.
    + apply (Hstep a s s1); auto. left; reflexivity.
Qed.

(** ** Writing rectangles *)

Lemma write_room_targets (room : rect) (m : grid) :
  MarkII.write_room room m = for_each (targets room) visit_increment m.
Proof.
  unfold MarkII.write_room, targets.
  rewrite <- for_each_flat_map. apply for_each_ext. intros dy s.
  rewrite for_each_map. reflexivity.
Qed.

Lemma write_corridor_targets (corridor : rect) (m : grid) :
  MarkII.write_corridor corridor m = for_each (targets corridor) visit_carve m.
Proof.
  unfold MarkII.write_corridor, targets.
  rewrite <- for_each_flat_map. apply for_each_ext. intros dy s.
  rewrite for_each_map. reflexivity.
Qed.

Lemma write_rooms_targets (rooms : list rect) (m : grid) :
  for_each rooms MarkII.write_room m = for_each (flat_map targets rooms) visit_increment m.
Proof.
  rewrite <- for_each_flat_map. apply for_each_ext. intros; apply write_room_targets.
Qed.

Lemma write_corridors_targets (corridors : list rect) (m : grid) :
  for_each corridors MarkII.write_corridor m
  = for_each (flat_map targets corridors) visit_carve m.
Proof.
  rewrite <- for_each_flat_map. apply for_each_ext. intros; apply write_corridor_targets.
Qed.

Lemma hits_app (l1 l2 : list (Z * Z)) (r c : nat) :
  hits (l1 ++ l2) r c = hits l1 r c + hits l2 r c.
Proof.
  induction l1 as [|t l IH]; simpl; [lia|]. rewrite IH. lia.
Qed.

Lemma hit_indicator (a b : Z) (r c : nat) :
  0 <= a -> 0 <= b ->
  ((a =? Z.of_nat r) && (b =? Z.of_nat c))%bool
  = (Nat.eqb r (Z.to_nat a) && Nat.eqb c (Z.to_nat b))%bool.
Proof.
  intros Ha Hb. apply eq_true_iff_eq.
  rewrite !andb_true_iff, !Z.eqb_eq, !Nat.eqb_eq. lia.
Qed.

(** After a run of increments over non-negative coordinates every cell
    has grown by the number of visits it received. *)
Lemma increments_count (ts : list (Z * Z)) (m m' : grid) :
  Forall (fun t => 0 <= fst t /\ 0 <= snd t) ts ->
  for_each ts visit_increment m = Return m' ->
  forall r c, cell m' r c = cell m r c + hits ts r c.
Proof.
  revert m; induction ts as [|t ts IH]; intros m Hnn H r c; simpl in H.
  - inversion H; subst. simpl. lia.
  - apply bind_Return_inv in H as (m1 & H1 & H2).
    inversion Hnn as [|? ? [Ht1 Ht2] Hnn']; subst.
    rewrite (IH m1 Hnn' H2 r c). simpl.
    unfold visit_increment in H1.
    apply increment_cell_inv in H1 as (kr & kc & Hkr & Hkc & _ & Hcell).
    rewrite Hcell.
    apply py_index_nonneg in Hkr; [|exact Ht1].
    apply py_index_nonneg in Hkc; [|exact Ht2].
    subst kr kc.
    rewrite (hit_indicator (fst t) (snd t) r c Ht1 Ht2).
    destruct (Nat.eqb r (Z.to_nat (fst t)) && Nat.eqb c (Z.to_nat (snd t)))%bool eqn:E.
    + apply andb_true_iff in E as [Er Ec].
      apply Nat.eqb_eq in Er, Ec. subst r c. lia.
    + lia.
Qed.

Ltac split_comparisons :=
  repeat match goal with
  | |- context [Z.eqb ?a ?b] => destruct (Z.eqb_spec a b)
  | |- context [Z.leb ?a ?b] => destruct (Z.leb_spec a b)
  | |- context [Z.ltb ?a ?b] => destruct (Z.ltb_spec a b)
  end; cbn [andb orb negb]; try reflexivity; try lia.

Lemma hits_row_seq (R x : Z) (s n r c : nat) :
  hits (map (fun k => (R, x + Z.of_nat k)) (seq s n)) r c
  = if (R =? Z.of_nat r) && (x + Z.of_nat s <=? Z.of_nat c)
       && (Z.of_nat c <? x + Z.of_nat s + Z.of_nat n)
    then 1 else 0.
Proof.
  revert s; induction n as [|n IH]; intro s; cbn [seq map hits fst snd].
  - split_comparisons.
  - rewrite IH. rewrite !Nat2Z.inj_succ. split_comparisons.
Qed.

Lemma hits_row (R x w : Z) (r c : nat) :
  hits (map (fun dx => (R, x + dx)) (py_range 0 w)) r c
  = if (R =? Z.of_nat r) && (x <=? Z.of_nat c) && (Z.of_nat c <? x + w) then 1 else 0.
Proof.
  unfold py_range. rewrite map_map.
  rewrite (map_ext _ (fun k => (R, x + Z.of_nat k))) by (intro k; f_equal).
  rewrite hits_row_seq.
  change (Z.of_nat 0) with 0.
  destruct (Z.le_gt_cases 0 w).
  - rewrite Z2Nat.id by lia. split_comparisons.
  - replace (Z.to_nat (w - 0)) with 0%nat by lia. change (Z.of_nat 0) with 0.
    split_comparisons.
Qed.

Lemma hits_rect_seq (x y w : Z) (s n r c : nat) :
  hits (flat_map (fun k => map (fun dx => (y + Z.of_nat k, x + dx)) (py_range 0 w)) (seq s n)) r c
  = if (y + Z.of_nat s <=? Z.of_nat r) && (Z.of_nat r <? y + Z.of_nat s + Z.of_nat n)
       && (x <=? Z.of_nat c) && (Z.of_nat c <? x + w)
    then 1 else 0.
Proof.
  revert s; induction n as [|n IH]; intro s; cbn [seq flat_map hits].
  - split_comparisons.
  - rewrite hits_app, IH, hits_row. rewrite !Nat2Z.inj_succ. split_comparisons.
Qed.

(** A rectangle's visits name each of its cells once and no other cell. *)
Lemma hits_targets (room : rect) (r c : nat) :
  hits (targets room) r c = if in_rectb room (Z.of_nat c) (Z.of_nat r) then 1 else 0.
Proof.
  unfold targets, in_rectb. unfold py_range at 2. rewrite flat_map_concat_map, map_map.
  rewrite <- flat_map_concat_map.
  rewrite (flat_map_ext _
             (fun k => map (fun dx => (ry room + Z.of_nat k, rx room + dx)) (py_range 0 (rw room))))
    by (intro k; reflexivity).
  rewrite hits_rect_seq.
  change (Z.of_nat 0) with 0.
  destruct (Z.le_gt_cases 0 (rh room)).
  - rewrite Z2Nat.id by lia. split_comparisons.
  - replace (Z.to_nat (rh room - 0)) with 0%nat by lia. change (Z.of_nat 0) with 0.
    split_comparisons.
Qed.

Lemma hits_rooms (rooms : list rect) (r c : nat) :
  hits (flat_map targets rooms) r c = cover_count rooms (Z.of_nat c) (Z.of_nat r).
Proof.
  induction rooms as [|room rest IH]; simpl; [reflexivity|].
  rewrite hits_app, hits_targets, IH. reflexivity.
Qed.

Lemma in_rectb_iff (room : rect) (col row : Z) :
  in_rectb room col row = true <-> in_rect room col row.
Proof.
  unfold in_rectb, in_rect.
  rewrite !andb_true_iff, !Z.leb_le, !Z.ltb_lt. lia.
Qed.

Lemma targets_in_rect (room : rect) (t : Z * Z) :
  In t (targets room) -> in_rect room (snd t) (fst t).
Proof.
  unfold targets, py_range. rewrite in_flat_map.
  intros (dy & Hdy & Ht).
  apply in_map_iff in Hdy as (k & <- & Hk). apply in_seq in Hk.
  apply in_map_iff in Ht as (dx & <- & Hdx).
  apply in_map_iff in Hdx as (j & <- & Hj). apply in_seq in Hj.
  unfold in_rect; simpl. lia.
Qed.

(** ** Room placement *)

Lemma passes_intersection_test_fold (candidate : rect) (rooms : list rect) (ok : bool) :
  fold_left
    (fun ok each_other_room =>
       if check_these_two_rectangles_for_intersection candidate each_other_room
       then false else ok) rooms ok
  = (ok && forallb (fun o => negb (check_these_two_rectangles_for_intersection candidate o)) rooms)%bool.
Proof.
  revert ok; induction rooms as [|o rest IH]; intro ok; simpl.
  - rewrite andb_true_r; reflexivity.
  - rewrite IH.
    destruct (check_these_two_rectangles_for_intersection candidate o); simpl.
    + rewrite andb_false_r; reflexivity.
    + reflexivity.
Qed.

Lemma passes_intersection_test_apart (candidate : rect) (rooms : list rect) :
  passes_intersection_test candidate rooms = true ->
  Forall (fun o => apart o candidate) rooms.
Proof.
  unfold passes_intersection_test. rewrite passes_intersection_test_fold. simpl.
  rewrite forallb_forall. intro H. apply Forall_forall. intros o Ho col row Ha Hb.
  specialize (H o Ho).
  rewrite (intersection_check_complete candidate o col row Hb Ha) in H. discriminate.
Qed.

Lemma ForallOrdPairs_snoc {A : Type} (R : A -> A -> Prop) (l : list A) (x : A) :
  ForallOrdPairs R l -> Forall (fun a => R a x) l -> ForallOrdPairs R (l ++ [x]).
Proof.
  induction 1 as [|a l Ha Hl IH]; intro Hx; simpl.
  - constructor; constructor.
  - inversion Hx; subst. constructor.
    + apply Forall_app; split; auto.
    + apply IH; assumption.
Qed.

Lemma room_attempt_placement (p : MarkII.params) (k : Z) (rooms rooms' : list rect) (g g' : rng) :
  placement p rooms ->
  MarkII.room_attempt p k (rooms, g) = Return (rooms', g') ->
  placement p rooms'.
Proof.
  intros [Hwp Hap] H. unfold MarkII.room_attempt in H.
  apply bind_Return_inv in H as ([w g1] & Hw & H).
  apply bind_Return_inv in H as ([h g2] & Hh & H).
  apply bind_Return_inv in H as ([x g3] & Hx & H).
  apply bind_Return_inv in H as ([y g4] & Hy & H).
  apply randint_range in Hw, Hh, Hx, Hy.
  destruct (passes_intersection_test (Rect x y w h) rooms) eqn:E;
    inversion H; subst; clear H.
  - split.
    + apply Forall_app; split; [exact Hwp|].
      constructor; [|constructor]. unfold well_placed; simpl. lia.
    + apply ForallOrdPairs_snoc; [exact Hap|].
      apply passes_intersection_test_apart; exact E.
  - split; assumption.
Qed.

Lemma placement_nil (p : MarkII.params) : placement p [].
Proof. split; constructor. Qed.

Lemma room_attempts_placement (p : MarkII.params) (l : list Z) (rooms rooms' : list rect)
  (g g' : rng) :
  placement p rooms ->
  for_each l (MarkII.room_attempt p) (rooms, g) = Return (rooms', g') ->
  placement p rooms'.
Proof.
  intros Hp H.
  change (placement p (fst (rooms', g'))).
  apply (for_each_invariant (fun st => placement p (fst st)) l
           (MarkII.room_attempt p) (rooms, g) (rooms', g')); [|exact Hp|exact H].
  intros a [r1 g1] [r2 g2] _ H1 H2. cbn [fst] in *.
  exact (room_attempt_placement p a r1 r2 g1 g2 H1 H2).
Qed.

(** Whatever room placement returns is a placement, and it holds at
    least [room_min_count] rooms. *)
Lemma place_rooms_placement (fuel : nat) (p : MarkII.params) (rooms rooms' : list rect)
  (g g' : rng) :
  placement p rooms ->
  MarkII.place_rooms fuel p rooms g = Return (rooms', g') ->
  placement p rooms' /\ MarkII.room_min_count p <= len rooms'.
Proof.
  revert rooms g; induction fuel as [|fuel IH]; intros rooms g Hp H; simpl in H.
  - destruct (len rooms <? MarkII.room_min_count p) eqn:E; [discriminate|].
    inversion H; subst. apply Z.ltb_ge in E. auto.
  - destruct (len rooms <? MarkII.room_min_count p) eqn:E.
    + apply bind_Return_inv in H as ([r1 g1] & H1 & H2).
      apply room_attempts_placement in H1; [|exact Hp].
      destruct (len r1 <? MarkII.room_min_count p).
      * apply (IH [] g1); [apply placement_nil | exact H2].
      * apply (IH r1 g1); assumption.
    + inversion H; subst. apply Z.ltb_ge in E. auto.
Qed.

Lemma cover_count_nonneg (rooms : list rect) (col row : Z) :
  0 <= cover_count rooms col row.
Proof.
  induction rooms as [|a l IH]; simpl; [lia|].
  destruct (in_rectb a col row); lia.
Qed.

Lemma cover_count_zero (rooms : list rect) (a : rect) (col row : Z) :
  Forall (apart a) rooms -> in_rect a col row -> cover_count rooms col row = 0.
Proof.
  induction 1 as [|b l Hb Hl IH]; intro Ha; simpl; [reflexivity|].
  rewrite (IH Ha).
  destruct (in_rectb b col row) eqn:E; [|reflexivity].
  apply in_rectb_iff in E. exfalso. exact (Hb col row Ha E).
Qed.

Lemma cover_count_apart (rooms : list rect) (col row : Z) :
  ForallOrdPairs apart rooms -> cover_count rooms col row <= 1.
Proof.
  induction 1 as [|a l Ha Hl IH]; simpl; [lia|].
  destruct (in_rectb a col row) eqn:E; [|lia].
  apply in_rectb_iff in E. rewrite (cover_count_zero l a col row Ha E). lia.
Qed.

Lemma cover_count_positive (rooms : list rect) (a : rect) (col row : Z) :
  In a rooms -> in_rect a col row -> 1 <= cover_count rooms col row.
Proof.
  induction rooms as [|b l IH]; intros Hin Ha; simpl; [contradiction|].
  destruct Hin as [->|Hin].
  - apply in_rectb_iff in Ha. rewrite Ha.
    pose proof (cover_count_nonneg l col row). lia.
  - specialize (IH Hin Ha). destruct (in_rectb b col row); lia.
Qed.

(** ** The written map *)

Lemma nth_map_const {A B : Type} (l : list A) (b d : B) (k : nat) :
  nth k (map (fun _ => b) l) d = b \/ nth k (map (fun _ => b) l) d = d.
Proof.
  revert k; induction l as [|a t IH]; intros [|k]; simpl; auto.
Qed.

Lemma cell_blank_map (w h : Z) (r c : nat) : cell (blank_map w h) r c = 0.
Proof.
  unfold cell, blank_map.
  destruct (nth_map_const (py_range 0 h) (map (fun _ => 0) (py_range 0 w)) [] r) as [-> | ->].
  - destruct (nth_map_const (py_range 0 w) 0 0 c) as [-> | ->]; reflexivity.
  - destruct c; reflexivity.
Qed.

Lemma room_targets_nonneg (p : MarkII.params) (rooms : list rect) :
  Forall (well_placed p) rooms ->
  Forall (fun t => 0 <= fst t /\ 0 <= snd t) (flat_map targets rooms).
Proof.
  intro H. apply Forall_forall. intros t Ht.
  apply in_flat_map in Ht as (room & Hroom & Ht).
  rewrite Forall_forall in H. specialize (H room Hroom).
  apply targets_in_rect in Ht. unfold in_rect in Ht. unfold well_placed in H. lia.
Qed.

(** After the rooms are written onto the blank map every cell holds the
    number of rooms that cover it. *)
Lemma written_rooms_cover (p : MarkII.params) (rooms : list rect) (m : grid) :
  Forall (well_placed p) rooms ->
  for_each rooms MarkII.write_room (blank_map (MarkII.map_width p) (MarkII.map_height p))
  = Return m ->
  forall r c, cell m r c = cover_count rooms (Z.of_nat c) (Z.of_nat r).
Proof.
  intros Hwp H r c. rewrite write_rooms_targets in H.
  rewrite (increments_count _ _ _ (room_targets_nonneg p rooms Hwp) H r c).
  rewrite cell_blank_map, hits_rooms. lia.
Qed.

(** A guarded write changes at most one cell, and only from 0 to 1. *)
Lemma carve_if_uncarved_inv (m m' : grid) (R C : Z) :
  carve_if_uncarved m R C = Return m' ->
  exists kr kc, py_index m R = Some kr /\ py_index (nth kr m []) C = Some kc /\
    ((cell m kr kc <> 0 /\ m' = m) \/
     (cell m kr kc = 0 /\
      forall r c, cell m' r c = if (Nat.eqb r kr && Nat.eqb c kc)%bool then 1 else cell m r c)).
Proof.
  unfold carve_if_uncarved. intro H.
  apply bind_Return_inv in H as (v & Hv & H).
  apply grid_get_inv in Hv as (kr & kc & Hkr & Hkc & Hcell).
  exists kr, kc. split; [exact Hkr|]. split; [exact Hkc|].
  destruct (Z.eqb_spec v 0) as [E|E].
  - right. subst v. split; [exact E|].
    apply increment_cell_inv in H as (kr' & kc' & Hkr' & Hkc' & _ & Hc).
    rewrite Hkr in Hkr'; inversion Hkr'; subst kr'.
    rewrite Hkc in Hkc'; inversion Hkc'; subst kc'.
    intros r c. rewrite Hc, E. reflexivity.
  - left. inversion H; subst. auto.
Qed.

Lemma carve_keeps_cells01 (t : Z * Z) (m m' : grid) :
  cells01 m -> visit_carve t m = Return m' -> cells01 m'.
Proof.
  intros Hm H. unfold visit_carve in H.
  apply carve_if_uncarved_inv in H as (kr & kc & _ & _ & [[_ ->] | [_ Hc]]); [exact Hm|].
  intros r c. rewrite Hc. destruct (Nat.eqb r kr && Nat.eqb c kc)%bool; [right; reflexivity|].
  apply Hm.
Qed.

Lemma cells01_binary_grid (m : grid) : cells01 m -> binary_grid m.
Proof.
  intro H. apply Forall_forall. intros row Hrow. apply Forall_forall. intros v Hv.
  apply (In_nth _ _ []) in Hrow as (r & _ & Hr).
  apply (In_nth _ _ 0) in Hv as (c & _ & Hc).
  specialize (H r c). unfold cell in H. rewrite Hr, Hc in H. exact H.
Qed.

(** The pieces of a run of [generate_noise] that returned a map. *)
Lemma generate_noise_inv (fuel : nat) (p : MarkII.params) (g : rng) (m : grid) :
  MarkII.generate_noise fuel p g = Return m ->
  exists rooms g1 lk g2 colors corridors g3 m1,
    MarkII.place_rooms fuel p [] g = Return (rooms, g1)
    /\ for_each rooms MarkII.link_room (MarkII.Links (map center_of rooms) [] [], g1)
       = Return (lk, g2)
    /\ for_each (py_range 0 (len (MarkII.list_of_room_connection_colors lk))) MarkII.merge_step
         (MarkII.list_of_room_connection_colors lk, MarkII.list_of_new_corridors lk, g2)
       = Return (colors, corridors, g3)
    /\ for_each rooms MarkII.write_room (blank_map (MarkII.map_width p) (MarkII.map_height p))
       = Return m1
    /\ for_each corridors MarkII.write_corridor m1 = Return m.
Proof.
  unfold MarkII.generate_noise, MarkII.connect_and_write. intro H.
  apply bind_Return_inv in H as ([rooms g1] & H1 & H).
  apply bind_Return_inv in H as ([lk g2] & H2 & H).
  apply bind_Return_inv in H as ([[colors corridors] g3] & H3 & H).
  apply bind_Return_inv in H as (m1 & H4 & H5).
  exists rooms, g1, lk, g2, colors, corridors, g3, m1. auto.
Qed.

(** C10: every cell of a map returned by MarkII [generate_noise] is 0 or
    1 -- the kept rooms share no cell, so the additive room writes reach
    each cell at most once, and corridors only turn a 0 into a 1. *)
Theorem markii_cells_are_0_or_1 (fuel : nat) (p : MarkII.params) (g : rng) (m : grid) :
  MarkII.generate_noise fuel p g = Return m -> binary_grid m.
Proof.
  intro H.
  apply generate_noise_inv in H
    as (rooms & g1 & lk & g2 & colors & corridors & g3 & m1 & H1 & _ & _ & H4 & H5).
  apply place_rooms_placement in H1 as [[Hwp Hap] _]; [|apply placement_nil].
  apply cells01_binary_grid.
  rewrite write_corridors_targets in H5.
  apply (for_each_invariant cells01 (flat_map targets corridors) visit_carve m1 m);
    [| |exact H5].
  - intros t s1 s2 _ Hs1 Hs. eapply carve_keeps_cells01; eauto.
  - intros r c. rewrite (written_rooms_cover p rooms m1 Hwp H4 r c).
    pose proof (cover_count_nonneg rooms (Z.of_nat c) (Z.of_nat r)).
    pose proof (cover_count_apart rooms (Z.of_nat c) (Z.of_nat r) Hap). lia.
Qed.

Lemma markii_cells_are_0_or_1_witness :
  binary_grid
    [[0; 0; 0; 0; 0; 0; 0; 0; 0; 0; 0];
     [0; 1; 1; 0; 0; 0; 0; 0; 0; 0; 0];
     [0; 1; 1; 0; 0; 0; 0; 0; 0; 0; 0];
     [0; 0; 1; 0; 0; 0; 0; 0; 0; 0; 0];
     [0; 0; 1; 0; 0; 1; 1; 0; 0; 0; 0];
     [0; 0; 1; 1; 1; 1; 1; 0; 0; 0; 0];
     [0; 0; 0; 0; 0; 0; 0; 0; 0; 0; 0]].
Proof.
  apply (markii_cells_are_0_or_1 1 (MarkII.Params 12 8 2 2 2 2) [0; 0; 0; 0; 0; 0; 4; 3; 1; 0]).
  vm_compute. reflexivity.
Defined.

(** ** A single room *)

Lemma point_eqb_refl (p : point) : point_eqb p p = true.
Proof. apply point_eqb_eq; reflexivity. Qed.

Lemma randint_0_1 (g : rng) :
  exists d g', randint 0 1 g = Return (d, g') /\ (d = 0 \/ d = 1).
Proof.
  destruct g as [|r g'].
  - exists 0, []. split; [reflexivity|left; reflexivity].
  - exists (0 + r mod (1 - 0 + 1)), g'. split; [reflexivity|].
    pose proof (Z.mod_pos_bound r 2). change (1 - 0 + 1) with 2. lia.
Qed.

(** C4 (what the code does): when room placement keeps exactly one room,
    the first-pass loop finds no other centerpoint, leaves
    [which_centerpoint_is_closest] at [None] and subscripts it: the call
    raises [TypeError] instead of returning a map with that room. *)
Theorem markii_single_room_raises (fuel : nat) (p : MarkII.params) (g g1 : rng) (room : rect) :
  MarkII.place_rooms fuel p [] g = Return ([room], g1) ->
  MarkII.generate_noise fuel p g = Raise TypeError.
Proof.
  intro H. unfold MarkII.generate_noise. rewrite H. cbn [bind].
  unfold MarkII.connect_and_write. cbn [for_each map].
  unfold MarkII.link_room at 1.
  unfold MarkII.closest_centerpoint. cbn [MarkII.list_of_all_centerpoints fold_left].
  rewrite point_eqb_refl. cbn [option_map].
  destruct (randint_0_1 g1) as (d & g2 & -> & _). reflexivity.
Qed.

Lemma markii_single_room_raises_witness :
  MarkII.generate_noise 1 (MarkII.Params 40 40 10 4 1 1) [3; 4; 5; 6] = Raise TypeError.
Proof.
  apply (markii_single_room_raises 1 (MarkII.Params 40 40 10 4 1 1) [3; 4; 5; 6] []
           (Rect 6 7 7 8)).
  reflexivity.
Defined.

(** ** DungeonMapGenerator *)

Lemma carve_and_connect_never_returns (room : rect) (st st' : grid * rng) :
  Dungeon.carve_and_connect room st <> Return st'.
Proof.
  destruct st as [m g]. unfold Dungeon.carve_and_connect.
  destruct (Dungeon.carve_room room m) as [m1| |]; simpl; try discriminate.
  destruct (randint 0 1 g) as [[d g1]| |]; simpl; discriminate.
Qed.

Lemma dungeon_place_rooms_count (fuel : nat) (p : Dungeon.params) (g g' : rng)
  (rooms : list rect) :
  Dungeon.place_rooms fuel p g = Return (rooms, g') ->
  Dungeon.room_min_count p <= len rooms.
Proof.
  revert g; induction fuel as [|fuel IH]; intros g H; simpl in H; [discriminate|].
  apply bind_Return_inv in H as ([r1 g1] & _ & H).
  destruct (len r1 >=? Dungeon.room_min_count p) eqn:E.
  - inversion H; subst. rewrite Z.geb_leb in E. apply Z.leb_le in E. exact E.
  - eapply IH; eauto.
Qed.

(** Whenever DungeonMapGenerator [generate_noise] returns a map, no room
    was kept, and the map is the blank one. *)
Lemma dungeon_returns_only_blank (fuel : nat) (p : Dungeon.params) (g : rng) (m : grid) :
  Dungeon.generate_noise fuel p g = Return m ->
  Dungeon.room_min_count p <= 0
  /\ m = blank_map (Dungeon.map_width p) (Dungeon.map_height p).
Proof.
  unfold Dungeon.generate_noise. intro H.
  apply bind_Return_inv in H as ([rooms g1] & Hp & H).
  apply bind_Return_inv in H as ([m1 g2] & Hc & H).
  inversion H; subst; clear H.
  apply dungeon_place_rooms_count in Hp.
  destruct rooms as [|room rest].
  - simpl in Hc. inversion Hc; subst. split; [exact Hp | reflexivity].
  - cbn [for_each] in Hc. apply bind_Return_inv in Hc as (st' & Hc & _).
    exfalso. exact (carve_and_connect_never_returns room _ _ Hc).
Qed.

(** With at least one room required, the call never returns a map. *)
Lemma dungeon_generate_noise_never_returns (fuel : nat) (p : Dungeon.params) (g : rng) (m : grid) :
  1 <= Dungeon.room_min_count p ->
  Dungeon.generate_noise fuel p g <> Return m.
Proof.
  intros Hmin H. apply dungeon_returns_only_blank in H as [H _]. lia.
Qed.

(** C2 (what the code does): with the constructor's default arguments
    (a 40 by 40 map, rooms of size 4 to 10, 30 attempts, at least 5 rooms)
    and draws that place five separate rooms, the call carves the first
    room and then raises [TypeError]; no grid is returned. *)
Theorem dungeon_default_call_raises :
  Dungeon.generate_noise 1 (Dungeon.Params 40 40 10 4 30 5)
    [0; 0; 0; 0;  0; 0; 0; 7;  0; 0; 0; 14;  0; 0; 0; 21;  0; 0; 0; 28]
  = Raise TypeError.
Proof. vm_compute. reflexivity. Qed.

(** ** Loops that always return *)

Lemma for_each_total {A St : Type} (P : nat -> St -> Prop) (l : list A)
  (body : A -> St -> outcome St) (s : St) :
  P O s ->
  (forall k a s1, In a l -> P k s1 -> exists s2, body a s1 = Return s2 /\ P (S k) s2) ->
  exists s', for_each l body s = Return s' /\ P (length l) s'.
Proof.
  revert P s; induction l as [|a t IH]; intros P s H0 Hstep; simpl.
  - exists s; auto.
  - destruct (Hstep O a s (or_introl eq_refl) H0) as (s1 & Hb & H1).
    rewrite Hb; simpl.
    apply (IH (fun k => P (S k)) s1 H1).
    intros k b s2 Hb2 Hk. apply Hstep; [right; exact Hb2 | exact Hk].
Qed.

Lemma in_py_range (a b k : Z) : In k (py_range a b) <-> a <= k < b.
Proof.
  unfold py_range. rewrite in_map_iff. split.
  - intros (n & <- & Hn). apply in_seq in Hn. lia.
  - intro H. exists (Z.to_nat (k - a)). split; [lia|]. apply in_seq. lia.
Qed.

Lemma length_py_range (a b : Z) : length (py_range a b) = Z.to_nat (b - a).
Proof. unfold py_range. rewrite length_map, length_seq. reflexivity. Qed.

Lemma py_get_in_range {A : Type} (l : list A) (i : Z) :
  0 <= i < len l -> exists a, py_get l i = Return a /\ In a l.
Proof.
  unfold len, py_get, py_index. intro H.
  replace ((0 <=? i) && (i <? Z.of_nat (length l)))%bool with true
    by (symmetry; apply andb_true_iff; split; [apply Z.leb_le | apply Z.ltb_lt]; lia).
  destruct (nth_error l (Z.to_nat i)) as [a|] eqn:E.
  - exists a. split; [reflexivity|]. eapply nth_error_In; eauto.
  - apply nth_error_None in E. lia.
Qed.

(** ** PerlinNoiseGenerator *)

Lemma py_int_nonneg (x : Q) : (0 <= x)%Q -> py_int x = Qfloor x.
Proof.
  intro H. unfold py_int, Qfloor. destruct x as [n d]; simpl.
  apply Z.quot_div_nonneg; [|lia].
  unfold Qle in H; simpl in H. lia.
Qed.


Lemma py_int_nonneg_le (x : Q) : (0 <= x)%Q -> 0 <= py_int x.
Proof.
  intro H. rewrite (py_int_nonneg x H).
  change 0 with (Qfloor 0). apply Qfloor_resp_le. exact H.
Qed.





Lemma Qdiv_nonneg (a b : Q) : (0 <= a)%Q -> (0 < b)%Q -> (0 <= a / b)%Q.
Proof.
  intros Ha Hb. apply Qle_shift_div_l; [exact Hb|]. rewrite Qmult_0_l. exact Ha.
Qed.





Lemma randint_total (a b : Z) (g : rng) :
  a <= b -> exists v g', randint a b g = Return (v, g') /\ a <= v <= b.
Proof.
  intro H. unfold randint.
  replace (b <? a) with false by (symmetry; apply Z.ltb_ge; lia).
  destruct g as [|r g'].
  - exists a, []. split; [reflexivity | lia].
  - exists (a + r mod (b - a + 1)), g'. split; [reflexivity|].
    pose proof (Z.mod_pos_bound r (b - a + 1)). lia.
Qed.

Lemma fill_noise_array_unit (w h : Z) (g : rng) :
  exists noise_array g',
    Perlin.fill_noise_array w h g = Return (noise_array, g') /\ unit_field noise_array w h.
Proof.
  unfold Perlin.fill_noise_array.
  destruct (for_each_total
              (fun k (st : list (list Q) * rng) =>
                 length (fst st) = k /\ Forall (unit_row w) (fst st))
              (py_range 0 h) (Perlin.fill_row w) ([], g)) as ([na g'] & Hr & Hlen & Hrows).
  - split; [reflexivity | constructor].
  - intros k a [na g1] _ [Hk Hna]. cbn [fst] in *. unfold Perlin.fill_row.
    destruct (for_each_total
                (fun j (st : list Q * rng) =>
                   length (fst st) = j /\ Forall (fun v => (0 <= v <= 1)%Q) (fst st))
                (py_range 0 w) Perlin.fill_cell ([], g1)) as ([row g2] & Hrow & Hl & Hv).
    + split; [reflexivity | constructor].
    + intros j b [row g2] _ [Hj Hrow]. cbn [fst] in *. unfold Perlin.fill_cell.
      destruct (randint_total 0 1000 g2) as (v & g3 & -> & Hv); [lia|].
      cbn [bind]. eexists. split; [reflexivity|]. cbn [fst]. split.
      * rewrite length_app. simpl. lia.
      * apply Forall_app. split; [exact Hrow|]. constructor; [|constructor].
        assert (H0 : (0 <= inject_Z v)%Q) by (change 0%Q with (inject_Z 0); rewrite <- Zle_Qle; lia).
        assert (H1 : (inject_Z v <= 1000)%Q)
          by (change 1000%Q with (inject_Z 1000); rewrite <- Zle_Qle; lia).
        split.
        -- apply Qdiv_nonneg; [exact H0 | reflexivity].
        -- apply Qle_shift_div_r; [reflexivity | lra].
    + rewrite Hrow. cbn [bind fst] in *. eexists. split; [reflexivity|]. cbn [fst]. split.
      * rewrite length_app. simpl. lia.
      * apply Forall_app. split; [exact Hna|]. constructor; [|constructor].
        split; [|exact Hv]. rewrite Hl, length_py_range. f_equal. lia.
  - exists na, g'. split; [exact Hr|]. cbn [fst] in *. split; [|exact Hrows].
    rewrite Hlen, length_py_range. f_equal. lia.
Qed.

(** ** PerlinNoiseGenerator: frequencies of either sign *)













(** ** Dimensions of the returned grids *)

Lemma for_each_counted {A St : Type} (P : nat -> St -> Prop) (l : list A)
  (body : A -> St -> outcome St) (s s' : St) :
  P O s ->
  (forall k a s1 s2, In a l -> P k s1 -> body a s1 = Return s2 -> P (S k) s2) ->
  for_each l body s = Return s' -> P (length l) s'.
Proof.
  revert P s; induction l as [|a t IH]; intros P s H0 Hstep H; simpl in H.
  - inversion H; subst. exact H0.
  - apply bind_Return_inv in H as (s1 & Hb & H).
    apply (IH (fun k => P (S k)) s1); [| |exact H].
    + apply (Hstep O a s s1); auto. left; reflexivity.
    + intros k b u v Hb2. apply Hstep. right; exact Hb2.
Qed.

Lemma len_py_range (n : Z) : 0 <= n -> len (py_range 0 n) = n.
Proof. intro H. unfold len. rewrite length_py_range. lia. Qed.

Lemma blank_rows_dimensions {A : Type} (a : A) (w h : Z) :
  0 <= w -> 0 <= h ->
  has_dimensions (map (fun _ => map (fun _ => a) (py_range 0 w)) (py_range 0 h)) w h.
Proof.
  intros Hw Hh. split.
  - unfold len. rewrite length_map. apply len_py_range; exact Hh.
  - apply Forall_forall. intros row Hrow. apply in_map_iff in Hrow as (k & <- & _).
    unfold len. rewrite length_map. apply len_py_range; exact Hw.
Qed.

Lemma Forall_set_nth {A : Type} (P : A -> Prop) (l : list A) (k : nat) (a : A) :
  Forall P l -> P a -> Forall P (set_nth l k a).
Proof.
  intros Hl Ha. revert k; induction Hl as [|x t Hx Ht IH]; intros [|k]; simpl;
    constructor; auto.
Qed.

Lemma store_keeps_dimensions {A : Type} (m : list (list A)) (kr kc : nat) (v : A) (d : list A)
  (w h : Z) :
  has_dimensions m w h -> (kr < length m)%nat ->
  has_dimensions (set_nth m kr (set_nth (nth kr m d) kc v)) w h.
Proof.
  intros [Hh Hw] Hkr. split.
  - unfold len. rewrite length_set_nth. exact Hh.
  - apply Forall_set_nth; [exact Hw|].
    unfold len. rewrite length_set_nth.
    rewrite Forall_forall in Hw. apply Hw. apply nth_In. exact Hkr.
Qed.

Lemma increment_keeps_dimensions (m m' : grid) (R C w h : Z) :
  has_dimensions m w h -> increment_cell m R C = Return m' -> has_dimensions m' w h.
Proof.
  intros Hd H.
  apply increment_cell_inv in H as (kr & kc & Hkr & _ & -> & _).
  apply store_keeps_dimensions; [exact Hd|]. eapply py_index_lt; eauto.
Qed.

Lemma carve_keeps_dimensions (m m' : grid) (R C w h : Z) :
  has_dimensions m w h -> carve_if_uncarved m R C = Return m' -> has_dimensions m' w h.
Proof.
  intros Hd H. unfold carve_if_uncarved in H.
  apply bind_Return_inv in H as (v & _ & H).
  destruct (v =? 0).
  - eapply increment_keeps_dimensions; eauto.
  - inversion H; subst. exact Hd.
Qed.

Lemma increments_keep_dimensions (ts : list (Z * Z)) (m m' : grid) (w h : Z) :
  has_dimensions m w h -> for_each ts visit_increment m = Return m' -> has_dimensions m' w h.
Proof.
  intros Hd H.
  apply (for_each_invariant (fun m => has_dimensions m w h) ts visit_increment m m');
    [|exact Hd|exact H].
  intros t s1 s2 _ H1 H2. eapply increment_keeps_dimensions; eauto.
Qed.

Lemma carves_keep_dimensions (ts : list (Z * Z)) (m m' : grid) (w h : Z) :
  has_dimensions m w h -> for_each ts visit_carve m = Return m' -> has_dimensions m' w h.
Proof.
  intros Hd H.
  apply (for_each_invariant (fun m => has_dimensions m w h) ts visit_carve m m');
    [|exact Hd|exact H].
  intros t s1 s2 _ H1 H2. eapply carve_keeps_dimensions; eauto.
Qed.

Lemma markii_dimensions (fuel : nat) (p : MarkII.params) (g : rng) (m : grid) :
  1 <= MarkII.supplied_map_width p -> 1 <= MarkII.supplied_map_height p ->
  MarkII.generate_noise fuel p g = Return m ->
  has_dimensions m (MarkII.supplied_map_width p - 1) (MarkII.supplied_map_height p - 1).
Proof.
  intros Hw Hh H.
  apply generate_noise_inv in H
    as (rooms & g1 & lk & g2 & colors & corridors & g3 & m1 & _ & _ & _ & H4 & H5).
  rewrite write_rooms_targets in H4. rewrite write_corridors_targets in H5.
  eapply carves_keep_dimensions; [|exact H5].
  eapply increments_keep_dimensions; [|exact H4].
  apply (blank_rows_dimensions 0); unfold MarkII.map_width, MarkII.map_height; lia.
Qed.

Lemma dungeon_dimensions (fuel : nat) (p : Dungeon.params) (g : rng) (m : grid) :
  1 <= Dungeon.supplied_map_width p -> 1 <= Dungeon.supplied_map_height p ->
  Dungeon.generate_noise fuel p g = Return m ->
  has_dimensions m (Dungeon.supplied_map_width p - 1) (Dungeon.supplied_map_height p - 1).
Proof.
  intros Hw Hh H. apply dungeon_returns_only_blank in H as [_ ->].
  apply (blank_rows_dimensions 0); unfold Dungeon.map_width, Dungeon.map_height; lia.
Qed.

Lemma roomfilled_write_room_dimensions (row col rw rh : Z) (m m' : grid) (w h : Z) :
  has_dimensions m w h -> RoomFilled.write_room row col rw rh m = Return m' ->
  has_dimensions m' w h.
Proof.
  intros Hd H. unfold RoomFilled.write_room in H.
  apply (for_each_invariant (fun m => has_dimensions m w h) _ _ m m') in H; auto.
  intros dy s1 s2 _ H1 H2.
  apply (for_each_invariant (fun m => has_dimensions m w h) _ _ s1 s2) in H2; auto.
  intros dx t1 t2 _ H3 H4. eapply increment_keeps_dimensions; eauto.
Qed.

Lemma try_tile_dimensions (p : RoomFilled.params) (r c : Z) (m m' : grid) (g g' : rng) (w h : Z) :
  has_dimensions m w h -> RoomFilled.try_tile p r c (m, g) = Return (m', g') ->
  has_dimensions m' w h.
Proof.
  intros Hd H. unfold RoomFilled.try_tile in H.
  apply bind_Return_inv in H as ([w1 g1] & _ & H).
  apply bind_Return_inv in H as ([h1 g2] & _ & H).
  apply bind_Return_inv in H as (this_row & _ & H).
  destruct (c + w1 >=? len this_row - 1); destruct (r + h1 >=? len m - 1);
  (apply bind_Return_inv in H as (should & _ & H);
  apply bind_Return_inv in H as ([rmw cont] & _ & H);
  apply bind_Return_inv in H as (dec & _ & H);
  match type of H with (if ?b then _ else _) = _ => destruct b end;
  [ apply bind_Return_inv in H as (m2 & Hw & H); inversion H; subst;
    eapply roomfilled_write_room_dimensions; eauto
  | inversion H; subst; exact Hd ]).
Qed.

Lemma roomfilled_dimensions (p : RoomFilled.params) (g : rng) (m : grid) :
  1 <= RoomFilled.supplied_map_width p -> 1 <= RoomFilled.supplied_map_height p ->
  RoomFilled.generate_noise p g = Return m ->
  has_dimensions m (RoomFilled.supplied_map_width p) (RoomFilled.supplied_map_height p).
Proof.
  intros Hw Hh H. unfold RoomFilled.generate_noise in H.
  apply bind_Return_inv in H as ([m1 g1] & H & E). inversion E; subst; clear E.
  change (has_dimensions (fst (m, g1)) (RoomFilled.supplied_map_width p)
            (RoomFilled.supplied_map_height p)).
  eapply (for_each_invariant
            (fun st : grid * rng =>
               has_dimensions (fst st) (RoomFilled.supplied_map_width p)
                 (RoomFilled.supplied_map_height p))); [| |exact H].
  - intros r [s1 q1] [s2 q2] _ H1 H2. cbn [fst] in *.
    unfold RoomFilled.scan_row in H2.
    apply bind_Return_inv in H2 as (this_row & _ & H2).
    change (has_dimensions (fst (s2, q2)) (RoomFilled.supplied_map_width p)
              (RoomFilled.supplied_map_height p)).
    eapply (for_each_invariant
              (fun st : grid * rng =>
                 has_dimensions (fst st) (RoomFilled.supplied_map_width p)
                   (RoomFilled.supplied_map_height p))); [| |exact H2].
    + intros c [t1 u1] [t2 u2] _ H3 H4. cbn [fst] in *.
      eapply try_tile_dimensions; eauto.
    + exact H1.
  - cbn [fst]. apply (blank_rows_dimensions 0); lia.
Qed.

(* rows appended one per pass *)
Lemma appended_rows_dimensions {B : Type} (w h : Z) (F : Z -> list (list B) -> outcome (list B))
  (m : list (list B)) :
  0 <= h ->
  (forall y acc row, F y acc = Return row -> len row = w) ->
  for_each (py_range 0 h) (fun y acc => row <- F y acc ;; Return (acc ++ [row])) [] = Return m ->
  has_dimensions m w h.
Proof.
  intros Hh HF H.
  apply (for_each_counted (fun k (acc : list (list B)) =>
            length acc = k /\ Forall (fun row => len row = w) acc)) in H.
  - destruct H as [H1 H2]. split; [|exact H2]. unfold len. rewrite H1, length_py_range. lia.
  - split; [reflexivity|constructor].
  - intros k y s1 s2 _ [Hk Hs] Hb.
    apply bind_Return_inv in Hb as (row & Hrow & E). inversion E; subst; clear E.
    split; [rewrite length_app; simpl; lia|].
    apply Forall_app; split; [exact Hs|]. constructor; [|constructor]. eapply HF; eauto.
Qed.

Lemma appended_cells_length {B : Type} (w : Z) (F : Z -> list B -> outcome B) (row : list B) :
  0 <= w ->
  for_each (py_range 0 w) (fun x acc => v <- F x acc ;; Return (acc ++ [v])) [] = Return row ->
  len row = w.
Proof.
  intros Hw H.
  apply (for_each_counted (fun k (acc : list B) => length acc = k)) in H.
  - unfold len. rewrite H, length_py_range. lia.
  - reflexivity.
  - intros k y s1 s2 _ Hk Hb.
    apply bind_Return_inv in Hb as (v & _ & E). inversion E; subst; clear E.
    rewrite length_app; simpl; lia.
Qed.

Lemma perlin_dimensions (fuel : nat) (w h : Z) (frequency octaves : Q) (g : rng) (m : grid) :
  1 <= w -> 1 <= h ->
  Perlin.generate_noise fuel w h frequency octaves g = Return m -> has_dimensions m w h.
Proof.
  intros Hw Hh H. unfold Perlin.generate_noise in H.
  apply bind_Return_inv in H as ([na g1] & _ & H).
  apply (appended_rows_dimensions w h
           (fun y _ => for_each (py_range 0 w)
                         (Perlin.turbulate_cell fuel na w h frequency octaves y) [])); [lia| |exact H].
  intros y _ row Hrow.
  apply (appended_cells_length w
           (fun x _ => v <- Perlin.totally_justified_turbulence_function fuel na w h
                              (inject_Z x * frequency)%Q (inject_Z y * frequency)%Q octaves ;;
                       Return (py_int v))); [lia|].
  rewrite <- Hrow. apply for_each_ext. intros x acc. unfold Perlin.turbulate_cell.
  destruct (Perlin.totally_justified_turbulence_function fuel na w h
              (inject_Z x * frequency)%Q (inject_Z y * frequency)%Q octaves); reflexivity.
Qed.

Lemma simplex_dimensions (gen gen' : Simplex.generator) (w h : Z) (scale : Q) (octaves : Z)
  (persistence : Q) (g : rng) (m : list (list Q)) :
  1 <= w -> 1 <= h ->
  Simplex.generate_noise gen w h scale octaves persistence g = Return (m, gen') ->
  has_dimensions m w h.
Proof.
  intros Hw Hh H. unfold Simplex.generate_noise in H.
  apply bind_Return_inv in H as ([gen1 g1] & _ & H).
  apply bind_Return_inv in H as (arr & H & E). inversion E; subst; clear E.
  apply (appended_rows_dimensions w h
           (fun y _ => for_each (py_range 0 w)
              (fun each_x new_row =>
                 new_z_value <- Simplex.generate_octaved_noise gen' (inject_Z each_x) (inject_Z y)
                                  scale octaves persistence ;;
                 Return (new_row ++ [new_z_value])) [])); [lia| |exact H].
  intros y _ row Hrow.
  apply (appended_cells_length w
           (fun x _ => Simplex.generate_octaved_noise gen' (inject_Z x) (inject_Z y)
                         scale octaves persistence)); [lia|exact Hrow].
Qed.

Lemma store_cell_dimensions (c : Plasma.emitted) (m m' : list (list Q)) (w h : Z) :
  has_dimensions m w h -> Plasma.store_cell c m = Return m' -> has_dimensions m' w h.
Proof.
  intros Hd H. destruct c as [[cx cy] cz]. unfold Plasma.store_cell in H.
  apply bind_Return_inv in H as (row & Hrow & H).
  apply bind_Return_inv in H as (row' & Hrow' & H).
  apply (py_get_inv _ _ _ []) in Hrow as (kr & Hkr & Hn).
  apply py_set_inv in Hrow' as (kc & Hkc & ->).
  apply py_set_inv in H as (kr' & Hkr' & ->).
  rewrite Hkr in Hkr'. inversion Hkr'; subst kr'. rewrite <- Hn.
  apply store_keeps_dimensions; [exact Hd|]. eapply py_index_lt; eauto.
Qed.

Lemma plasma_dimensions (fuel : nat) (gen : Plasma.generator) (x y : Q) (w h : Z)
  (ul ur ll lr : Q) (g : rng) (m : list (list Q)) :
  1 <= w -> 1 <= h ->
  Plasma.generate_noise fuel gen x y w h ul ur ll lr g = Return m -> has_dimensions m w h.
Proof.
  intros Hw Hh H. unfold Plasma.generate_noise in H.
  apply bind_Return_inv in H as ([saved g1] & _ & H).
  eapply (for_each_invariant (fun m : list (list Q) => has_dimensions m w h)); [| |exact H].
  - intros c s1 s2 _ H1 H2. eapply store_cell_dimensions; eauto.
  - apply blank_rows_dimensions; lia.
Qed.

(** C3 (as amended): for a call with width [w >= 1] and height [h >= 1]
    that returns a grid, the plasma, value-noise, simplex and room-filling
    generators return [h] rows of length [w], while DungeonMapGenerator
    and MarkIIDungeonMapGenerator, which decrement both sizes before they
    build the map, return [h - 1] rows of length [w - 1]. *)
Theorem grid_dimensions (w h : Z) :
  1 <= w -> 1 <= h ->
  (forall fuel gen x y ul ur ll lr g m,
      Plasma.generate_noise fuel gen x y w h ul ur ll lr g = Return m -> has_dimensions m w h)
  /\ (forall fuel frequency octaves g m,
         Perlin.generate_noise fuel w h frequency octaves g = Return m -> has_dimensions m w h)
  /\ (forall gen gen' scale octaves persistence g m,
         Simplex.generate_noise gen w h scale octaves persistence g = Return (m, gen') ->
         has_dimensions m w h)
  /\ (forall room_max_size room_min_size g m,
         RoomFilled.generate_noise (RoomFilled.Params w h room_max_size room_min_size) g
         = Return m ->
         has_dimensions m w h)
  /\ (forall fuel room_max_size room_min_size room_max_count room_min_count g m,
         Dungeon.generate_noise fuel
           (Dungeon.Params w h room_max_size room_min_size room_max_count room_min_count) g
         = Return m ->
         has_dimensions m (w - 1) (h - 1))
  /\ (forall fuel room_max_size room_min_size room_max_count room_min_count g m,
         MarkII.generate_noise fuel
           (MarkII.Params w h room_max_size room_min_size room_max_count room_min_count) g
         = Return m ->
         has_dimensions m (w - 1) (h - 1)).
Proof.
  intros Hw Hh. split; [|split; [|split; [|split; [|split]]]].
  - intros fuel gen x y ul ur ll lr g m H.
    exact (plasma_dimensions fuel gen x y w h ul ur ll lr g m Hw Hh H).
  - intros fuel frequency octaves g m H.
    exact (perlin_dimensions fuel w h frequency octaves g m Hw Hh H).
  - intros gen gen' scale octaves persistence g m H.
    exact (simplex_dimensions gen gen' w h scale octaves persistence g m Hw Hh H).
  - intros rmax rmin g m H.
    apply (roomfilled_dimensions (RoomFilled.Params w h rmax rmin) g m Hw Hh H).
  - intros fuel rmax rmin cmax cmin g m H.
    apply (dungeon_dimensions fuel (Dungeon.Params w h rmax rmin cmax cmin) g m Hw Hh H).
  - intros fuel rmax rmin cmax cmin g m H.
    apply (markii_dimensions fuel (MarkII.Params w h rmax rmin cmax cmin) g m Hw Hh H).
Qed.

Lemma grid_dimensions_witness :
  has_dimensions
    [[0; 0; 0; 0; 0; 0; 0; 0; 0; 0; 0];
     [0; 1; 1; 0; 0; 0; 0; 0; 0; 0; 0];
     [0; 1; 1; 0; 0; 0; 0; 0; 0; 0; 0];
     [0; 0; 1; 0; 0; 0; 0; 0; 0; 0; 0];
     [0; 0; 1; 0; 0; 1; 1; 0; 0; 0; 0];
     [0; 0; 1; 1; 1; 1; 1; 0; 0; 0; 0];
     [0; 0; 0; 0; 0; 0; 0; 0; 0; 0; 0]] (12 - 1) (8 - 1).
Proof.
  refine (proj2 (proj2 (proj2 (proj2 (proj2
            (grid_dimensions 12 8 ltac:(lia) ltac:(lia))))))
            1%nat 2 2 2 2 [0; 0; 0; 0; 0; 0; 4; 3; 1; 0] _ _).
  vm_compute. reflexivity.
Defined.

(** C3 (as stated) fails: asked for a 12 by 8 map, MarkII [generate_noise]
    returns 7 rows of length 11. *)
Lemma markii_dimensions_counterexample :
  exists m,
    MarkII.generate_noise 1 (MarkII.Params 12 8 2 2 2 2) [0; 0; 0; 0; 0; 0; 4; 3; 1; 0] = Return m
    /\ ~ has_dimensions m 12 8.
Proof.
  eexists. split; [vm_compute; reflexivity|].
  intros [H _]. vm_compute in H. discriminate.
Qed.

(** ** SimplexNoiseGenerator: the state a call leaves behind *)

Lemma del_nth_permutation {A : Type} (l : list A) (k : nat) (a : A) :
  nth_error l k = Some a -> Permutation (a :: del_nth l k) l.
Proof.
  revert k; induction l as [|x t IH]; intros [|k] H; simpl in *; try discriminate.
  - inversion H; subst. reflexivity.
  - rewrite perm_swap. constructor. apply IH; exact H.
Qed.

Lemma py_get_nth_error {A : Type} (l : list A) (i : Z) (a : A) :
  0 <= i -> py_get l i = Return a -> nth_error l (Z.to_nat i) = Some a.
Proof.
  intros Hi H. unfold py_get in H.
  destruct (py_index l i) as [k|] eqn:E; [|discriminate].
  apply py_index_nonneg in E; [|exact Hi]. subst k.
  destruct (nth_error l (Z.to_nat i)); [|discriminate]. inversion H; reflexivity.
Qed.

(** The shuffle moves numbers from the handler to the new array and
    never drops or invents one; it stops with at most one number left. *)
Lemma shuffle_loop_permutation (fuel : nat) (handler new handler' new' : list Z) (g g' : rng) :
  Simplex.shuffle_loop fuel handler new g = Return (handler', new', g') ->
  Permutation (new' ++ handler') (new ++ handler) /\ (length handler' <= 1)%nat.
Proof.
  revert handler new g; induction fuel as [|fuel IH]; intros handler new g H;
    cbn [Simplex.shuffle_loop] in H.
  - destruct (1 <? len handler) eqn:E; [discriminate|].
    inversion H; subst. apply Z.ltb_ge in E. unfold len in E. split; [reflexivity | lia].
  - destruct (1 <? len handler) eqn:E.
    + apply bind_Return_inv in H as ([k g1] & Hk & H).
      apply bind_Return_inv in H as (picked & Hp & H).
      apply randint_range in Hk.
      apply py_get_nth_error in Hp; [|lia].
      apply IH in H as [HP Hlen]. split; [|exact Hlen].
      rewrite HP. rewrite <- app_assoc. apply Permutation_app_head. simpl.
      apply del_nth_permutation; exact Hp.
    + inversion H; subst. apply Z.ltb_ge in E. unfold len in E. split; [reflexivity | lia].
Qed.

Lemma generate_permutations_table_fields (gen gen' : Simplex.generator) :
  Simplex.generate_permutations_table gen = Return gen' ->
  Simplex.noise_array_seed gen' = Simplex.noise_array_seed gen
  /\ Simplex.noise_array gen' = Simplex.noise_array gen.
Proof.
  unfold Simplex.generate_permutations_table. intro H.
  apply bind_Return_inv in H as (table & _ & H). inversion H; subst. auto.
Qed.

Lemma randomize_the_noise_array_seed_spec (gen gen' : Simplex.generator) (g g' : rng) :
  Simplex.randomize_the_noise_array_seed gen g = Return (gen', g') ->
  Simplex.noise_array_seed gen' = Simplex.noise_array_seed gen
  /\ exists shuffled,
       Permutation shuffled (Simplex.noise_array_seed gen)
       /\ Simplex.noise_array gen' = shuffled ++ shuffled.
Proof.
  unfold Simplex.randomize_the_noise_array_seed. intro H.
  apply bind_Return_inv in H as ([[handler new] g1] & Hs & H).
  apply bind_Return_inv in H as (last & Hl & H).
  apply bind_Return_inv in H as (gen1 & Ht & H). inversion H; subst; clear H.
  apply generate_permutations_table_fields in Ht as [Hseed Harr].
  cbn [Simplex.double_the_noise_array Simplex.noise_array_seed Simplex.noise_array] in *.
  split; [exact Hseed|].
  exists (new ++ [last]). split; [|exact Harr].
  apply shuffle_loop_permutation in Hs as [HP Hlen].
  apply py_get_nth_error in Hl; [|lia].
  destruct handler as [|x [|y t]]; simpl in *; try discriminate; try lia.
  inversion Hl; subst. exact HP.
Qed.

(** The loop that fills the permutation table: entry [k] is
    [noise_array[k & hash_number]]. *)
Lemma table_loop_entries (noise_array : list Z) (hash : Z) (numbers : list Z) :
  forall table table' : list Z,
    for_each numbers
      (fun each_number table =>
         v <- py_get noise_array (Z.land each_number hash) ;; Return (table ++ [v]))
      table = Return table' ->
    exists entries,
      table' = table ++ entries
      /\ Forall2 (fun each_number entry =>
                    py_get noise_array (Z.land each_number hash) = Return entry)
           numbers entries.
Proof.
  induction numbers as [|k rest IH]; intros table table' H; cbn [for_each] in H.
  - inversion H; subst. exists []. split; [rewrite app_nil_r; reflexivity|constructor].
  - apply bind_Return_inv in H as (t1 & Hstep & H).
    apply bind_Return_inv in Hstep as (v & Hv & Hstep). inversion Hstep; subst; clear Hstep.
    destruct (IH _ _ H) as (entries & -> & Hall).
    exists (v :: entries). split; [rewrite <- app_assoc; reflexivity|].
    constructor; assumption.
Qed.

Lemma generate_permutations_table_entries (gen gen' : Simplex.generator) :
  Simplex.generate_permutations_table gen = Return gen' ->
  exists hash,
    Simplex.hash_number gen' = Some hash
    /\ match Simplex.hash_number gen with
       | Some supplied => hash = supplied
       | None => hash = len (Simplex.noise_array gen) / 2 - 1
       end
    /\ Forall2 (fun each_number entry =>
                  py_get (Simplex.noise_array gen') (Z.land each_number hash) = Return entry)
         (py_range 0 (len (Simplex.noise_array gen'))) (Simplex.permutations_table gen').
Proof.
  unfold Simplex.generate_permutations_table. intro H.
  apply bind_Return_inv in H as (table & Hloop & H). inversion H; subst; clear H.
  cbn [Simplex.hash_number Simplex.noise_array Simplex.permutations_table].
  eexists. split; [reflexivity|]. split; [destruct (Simplex.hash_number gen); reflexivity|].
  apply table_loop_entries in Hloop as (entries & -> & Hall). exact Hall.
Qed.

Lemma randomize_the_noise_array_seed_table (gen gen' : Simplex.generator) (g g' : rng) :
  Simplex.randomize_the_noise_array_seed gen g = Return (gen', g') ->
  exists hash,
    Simplex.hash_number gen' = Some hash
    /\ match Simplex.hash_number gen with
       | Some supplied => hash = supplied
       | None => hash = len (Simplex.noise_array gen') / 2 - 1
       end
    /\ Forall2 (fun each_number entry =>
                  py_get (Simplex.noise_array gen') (Z.land each_number hash) = Return entry)
         (py_range 0 (len (Simplex.noise_array gen'))) (Simplex.permutations_table gen').
Proof.
  unfold Simplex.randomize_the_noise_array_seed. intro H.
  apply bind_Return_inv in H as ([[handler new] g1] & Hs & H).
  apply bind_Return_inv in H as (last & Hl & H).
  apply bind_Return_inv in H as (gen1 & Ht & H). inversion H; subst; clear H.
  pose proof (generate_permutations_table_fields _ _ Ht) as [_ Harr].
  destruct (generate_permutations_table_entries _ _ Ht) as (hash & Hh & Hm & Hall).
  exists hash. split; [exact Hh|]. split; [|exact Hall].
  cbn [Simplex.double_the_noise_array Simplex.hash_number Simplex.noise_array] in Hm.
  rewrite Harr.
  cbn [Simplex.double_the_noise_array Simplex.noise_array]. exact Hm.
Qed.

(** C5 (as amended): a call of [generate_noise] leaves the seed sequence
    [noise_array_seed] exactly as it was, but it reseeds itself: it starts
    by calling [randomize_the_noise_array_seed], so the generator comes
    out of the call with the noise array (a fresh shuffle of the seed
    sequence, written twice) and with the permutation table rebuilt from
    that shuffle: entry [k] of the table is
    [noise_array[k & hash_number]]. *)
Theorem simplex_generate_noise_reshuffles (gen gen' : Simplex.generator) (supplied_x supplied_y : Z)
  (scale : Q) (octaves : Z) (persistence : Q) (g : rng) (m : list (list Q)) :
  Simplex.generate_noise gen supplied_x supplied_y scale octaves persistence g
  = Return (m, gen') ->
  Simplex.noise_array_seed gen' = Simplex.noise_array_seed gen
  /\ (exists g', Simplex.randomize_the_noise_array_seed gen g = Return (gen', g'))
  /\ (exists shuffled,
        Permutation shuffled (Simplex.noise_array_seed gen)
        /\ Simplex.noise_array gen' = shuffled ++ shuffled)
  /\ exists hash,
       Simplex.hash_number gen' = Some hash
       /\ match Simplex.hash_number gen with
          | Some supplied => hash = supplied
          | None => hash = len (Simplex.noise_array gen') / 2 - 1
          end
       /\ Forall2 (fun each_number entry =>
                     py_get (Simplex.noise_array gen') (Z.land each_number hash) = Return entry)
            (py_range 0 (len (Simplex.noise_array gen'))) (Simplex.permutations_table gen').
Proof.
  unfold Simplex.generate_noise. intro H.
  apply bind_Return_inv in H as ([gen1 g1] & Hr & H).
  apply bind_Return_inv in H as (arr & _ & H). inversion H; subst; clear H.
  destruct (randomize_the_noise_array_seed_spec _ _ _ _ Hr) as [Hseed Hshuffled].
  split; [exact Hseed|]. split; [exists g1; exact Hr|]. split; [exact Hshuffled|].
  exact (randomize_the_noise_array_seed_table _ _ _ _ Hr).
Qed.

Lemma simplex_generate_noise_reshuffles_witness :
  exists m gen',
    Simplex.generate_noise
      (Simplex.Generator Simplex.initial_noise_array_seed [] (Some 255) []) 1 1 1 1 1 [5]
    = Return (m, gen')
    /\ Simplex.noise_array_seed gen' = Simplex.initial_noise_array_seed.
Proof.
  destruct (Simplex.generate_noise
              (Simplex.Generator Simplex.initial_noise_array_seed [] (Some 255) []) 1 1 1 1 1 [5])
    as [[m gen']| |] eqn:E.
  - exists m, gen'. split; [reflexivity|].
    exact (proj1 (simplex_generate_noise_reshuffles _ _ _ _ _ _ _ _ _ E)).
  - vm_compute in E. discriminate.
  - vm_compute in E. discriminate.
Defined.

(** C5 (as stated) fails: a generator built with the draws all 0 has a
    permutation table that starts with 151; one call of [generate_noise]
    whose first draw is 5 leaves it with a table that starts with 15. *)
Lemma simplex_table_changes_counterexample :
  exists gen0 g0 m gen1,
    Simplex.init (Some 255) [] = Return (gen0, g0)
    /\ Simplex.generate_noise gen0 1 1 1 1 1 [5] = Return (m, gen1)
    /\ Simplex.permutations_table gen1 <> Simplex.permutations_table gen0
    /\ Simplex.noise_array gen1 <> Simplex.noise_array gen0.
Proof.
  do 4 eexists. split; [vm_compute; reflexivity|].
  split; [vm_compute; reflexivity|].
  split; intro H; apply (f_equal (fun l => hd 0 l)) in H; vm_compute in H; discriminate.
Qed.

(** ** PlasmaFractalGenerator *)

Lemma half_eq (a : Q) : (a / 2 == a * (1 # 2))%Q.
Proof. unfold Qdiv. reflexivity. Qed.


Lemma py_get_nth {A : Type} (l : list A) (i : Z) (d : A) :
  0 <= i < len l -> py_get l i = Return (nth (Z.to_nat i) l d).
Proof.
  intro H. unfold len in H. unfold py_get, py_index.
  replace ((0 <=? i) && (i <? Z.of_nat (length l)))%bool with true
    by (symmetry; apply andb_true_iff; split; [apply Z.leb_le | apply Z.ltb_lt]; lia).
  destruct (nth_error l (Z.to_nat i)) as [a|] eqn:E.
  - rewrite (nth_error_nth _ _ d E). reflexivity.
  - apply nth_error_None in E. lia.
Qed.

Lemma py_set_nth {A : Type} (l : list A) (i : Z) (a : A) :
  0 <= i < len l -> py_set l i a = Return (set_nth l (Z.to_nat i) a).
Proof.
  intro H. unfold len in H. unfold py_set, py_index.
  replace ((0 <=? i) && (i <? Z.of_nat (length l)))%bool with true
    by (symmetry; apply andb_true_iff; split; [apply Z.leb_le | apply Z.ltb_lt]; lia).
  reflexivity.
Qed.

Lemma qcell_set (m : list (list Q)) (kr kc r cc : nat) (v : Q) :
  (kr < length m)%nat -> (kc < length (nth kr m []))%nat ->
  qcell (set_nth m kr (set_nth (nth kr m []) kc v)) r cc
  = if (Nat.eqb r kr && Nat.eqb cc kc)%bool then v else qcell m r cc.
Proof.
  intros Hr Hc. unfold qcell.
  rewrite (nth_set_nth m kr r _ []) by exact Hr.
  destruct (Nat.eqb r kr) eqn:E; simpl; [|reflexivity].
  apply Nat.eqb_eq in E; subst r.
  rewrite (nth_set_nth _ kc cc v (-1)%Q) by exact Hc.
  reflexivity.
Qed.

Lemma Qfloor_unique (q : Q) (n : Z) :
  (inject_Z n <= q)%Q -> (q < inject_Z n + 1)%Q -> Qfloor q = n.
Proof.
  intros H1 H2.
  assert (A : n <= Qfloor q).
  { rewrite <- (Qfloor_Z n). apply Qfloor_resp_le. exact H1. }
  assert (B : Qfloor q < n + 1).
  { rewrite Zlt_Qlt, inject_Z_plus. change (inject_Z 1) with 1%Q.
    pose proof (Qfloor_le q). lra. }
  lia.
Qed.

Lemma py_int_unique (q : Q) (n : Z) :
  0 <= n -> (inject_Z n <= q)%Q -> (q < inject_Z n + 1)%Q -> py_int q = n.
Proof.
  intros Hn H1 H2. rewrite py_int_nonneg; [apply Qfloor_unique; assumption|].
  assert ((0 <= inject_Z n)%Q) by (change 0%Q with (inject_Z 0); rewrite <- Zle_Qle; exact Hn).
  lra.
Qed.

Lemma py_int_in_range (q : Q) (n : Z) :
  (0 <= q)%Q -> (q < inject_Z n)%Q -> 0 <= py_int q < n.
Proof.
  intros H0 H1. split; [apply py_int_nonneg_le; exact H0|].
  rewrite (py_int_nonneg q H0). rewrite Zlt_Qlt.
  pose proof (Qfloor_le q). lra.
Qed.

(** ** PlasmaFractalGenerator: the cells interpolate the corners *)

Section Interpolation.

Variable gen : Plasma.generator.
Hypothesis Hdmin : Plasma.displacement_min gen = 0.
Hypothesis Hdmax : Plasma.displacement_max gen = 0.

(** A function that is linear in each coordinate. *)
Variables alpha beta gamma delta : Q.



End Interpolation.

(** A lattice of [n] points that spans [w] columns, with neighbours at
    most one apart, has a point in every column. *)
Lemma lattice_hits (n w c : Z) (sw : Q) :
  (inject_Z n * sw == inject_Z w)%Q -> (0 < sw)%Q -> (sw <= 1)%Q -> 0 <= c < w ->
  exists i, 0 <= i < n /\ (inject_Z c <= inject_Z i * sw)%Q
            /\ (inject_Z i * sw < inject_Z c + 1)%Q.
Proof.
  intros En Hsw Hsw1 Hc.
  set (q := (inject_Z c / sw)%Q).
  assert (Eq : (q * sw == inject_Z c)%Q).
  { unfold q. field. lra. }
  pose proof (Qle_ceiling q) as Hup. pose proof (Qceiling_lt q) as Hlow.
  set (i := Qceiling q) in *.
  assert (Hc0 : (0 <= inject_Z c)%Q).
  { change 0%Q with (inject_Z 0). rewrite <- Zle_Qle. lia. }
  assert (Hcw : (inject_Z c + 1 <= inject_Z w)%Q).
  { change 1%Q with (inject_Z 1). rewrite <- inject_Z_plus, <- Zle_Qle. lia. }
  assert (Hq0 : (0 <= q)%Q).
  { destruct (Qlt_le_dec q 0) as [Hneg|Hpos]; [|exact Hpos]. exfalso. nra. }
  unfold Z.sub in Hlow. rewrite inject_Z_plus, inject_Z_opp in Hlow.
  change (inject_Z 1) with 1%Q in Hlow.
  assert (Hlow' : (inject_Z i * sw < inject_Z c + sw)%Q).
  { assert (X : (0 < (q - (inject_Z i + - (1))) * sw)%Q)
      by (apply Qmult_lt_0_compat; lra).
    lra. }
  assert (Hup' : (inject_Z c <= inject_Z i * sw)%Q).
  { assert (X : (0 <= (inject_Z i - q) * sw)%Q)
      by (apply Qmult_le_0_compat; lra).
    lra. }
  exists i. split; [split|split].
  - rewrite Zle_Qle. change (inject_Z 0) with 0%Q. lra.
  - destruct (Z_lt_le_dec i n) as [Hlt|Hge]; [exact Hlt|exfalso].
    rewrite Zle_Qle in Hge.
    assert (X : (0 <= (inject_Z i - inject_Z n) * sw)%Q)
      by (apply Qmult_le_0_compat; lra).
    lra.
  - exact Hup'.
  - lra.
Qed.






(** ** Walks *)

Lemma reachable_ok_l (ok : point -> Prop) (a b : point) : reachable ok a b -> ok a.
Proof. induction 1; assumption. Qed.

Lemma reachable_ok_r (ok : point -> Prop) (a b : point) : reachable ok a b -> ok b.
Proof. destruct 1; assumption. Qed.

Lemma reachable_trans (ok : point -> Prop) (a b c : point) :
  reachable ok a b -> reachable ok b c -> reachable ok a c.
Proof.
  intros Hab Hbc. induction Hbc as [b _|b c d _ IH Hadj Hd].
  - exact Hab.
  - eapply reachable_step; [exact (IH Hab)|exact Hadj|exact Hd].
Qed.

Lemma adjacent_sym (a b : point) : adjacent a b -> adjacent b a.
Proof. unfold adjacent. lia. Qed.

Lemma reachable_sym (ok : point -> Prop) (a b : point) :
  reachable ok a b -> reachable ok b a.
Proof.
  induction 1 as [a Ha|a b c Hab IH Hadj Hc].
  - apply reachable_here; exact Ha.
  - apply (reachable_trans ok c b a); [|exact IH].
    apply (reachable_step ok c c b); [apply reachable_here; exact Hc|
      apply adjacent_sym; exact Hadj|exact (reachable_ok_r ok a b Hab)].
Qed.

Lemma reachable_mono (ok ok' : point -> Prop) (a b : point) :
  (forall q, ok q -> ok' q) -> reachable ok a b -> reachable ok' a b.
Proof.
  intros Hsub. induction 1 as [a Ha|a b c _ IH Hadj Hc].
  - apply reachable_here; auto.
  - eapply reachable_step; eauto.
Qed.

(** A run of cells along a row, all satisfying [ok], is a walk. *)
Lemma row_walk_right (ok : point -> Prop) (y x : Z) (n : nat) :
  (forall c, x <= c <= x + Z.of_nat n -> ok (c, y)) ->
  reachable ok (x, y) (x + Z.of_nat n, y).
Proof.
  induction n as [|n IH]; intro H.
  - replace (x + Z.of_nat 0) with x by lia. apply reachable_here. apply H. lia.
  - apply (reachable_step ok _ (x + Z.of_nat n, y)).
    + apply IH. intros c Hc. apply H. lia.
    + unfold adjacent; simpl. lia.
    + apply H. lia.
Qed.

Lemma row_walk (ok : point -> Prop) (y x1 x2 : Z) :
  (forall c, Z.min x1 x2 <= c <= Z.max x1 x2 -> ok (c, y)) ->
  reachable ok (x1, y) (x2, y).
Proof.
  intro H. destruct (Z_le_gt_dec x1 x2) as [Hle|Hgt].
  - replace (x2, y) with (x1 + Z.of_nat (Z.to_nat (x2 - x1)), y) by (f_equal; lia).
    apply row_walk_right. intros c Hc. apply H. lia.
  - apply reachable_sym.
    replace (x1, y) with (x2 + Z.of_nat (Z.to_nat (x1 - x2)), y) by (f_equal; lia).
    apply row_walk_right. intros c Hc. apply H. lia.
Qed.

Lemma column_walk_down (ok : point -> Prop) (x y : Z) (n : nat) :
  (forall r, y <= r <= y + Z.of_nat n -> ok (x, r)) ->
  reachable ok (x, y) (x, y + Z.of_nat n).
Proof.
  induction n as [|n IH]; intro H.
  - replace (y + Z.of_nat 0) with y by lia. apply reachable_here. apply H. lia.
  - apply (reachable_step ok _ (x, y + Z.of_nat n)).
    + apply IH. intros c Hc. apply H. lia.
    + unfold adjacent; simpl. lia.
    + apply H. lia.
Qed.

Lemma column_walk (ok : point -> Prop) (x y1 y2 : Z) :
  (forall r, Z.min y1 y2 <= r <= Z.max y1 y2 -> ok (x, r)) ->
  reachable ok (x, y1) (x, y2).
Proof.
  intro H. destruct (Z_le_gt_dec y1 y2) as [Hle|Hgt].
  - replace (x, y2) with (x, y1 + Z.of_nat (Z.to_nat (y2 - y1))) by (f_equal; lia).
    apply column_walk_down. intros c Hc. apply H. lia.
  - apply reachable_sym.
    replace (x, y1) with (x, y2 + Z.of_nat (Z.to_nat (y1 - y2))) by (f_equal; lia).
    apply column_walk_down. intros c Hc. apply H. lia.
Qed.

(** Any two cells of one rectangle are joined by a walk inside it. *)
Lemma rect_walk (ok : point -> Prop) (r : rect) (a b : point) :
  (forall q, on_rect r q -> ok q) -> on_rect r a -> on_rect r b -> reachable ok a b.
Proof.
  destruct a as [xa ya], b as [xb yb]. unfold on_rect, in_rect; simpl. intros Hok Ha Hb.
  apply (reachable_trans ok _ (xb, ya)).
  - apply row_walk. intros c Hc. apply Hok; simpl. lia.
  - apply column_walk. intros c Hc. apply Hok; simpl. lia.
Qed.

(** ** Corridors *)

Lemma on_horizontal_corridor (x y x2 y2 : Z) (q : point) :
  on_rect (define_corridor horizontal x y x2 y2) q
  <-> snd q = y /\ Z.min x x2 <= fst q <= Z.max x x2.
Proof.
  unfold define_corridor, on_rect, in_rect.
  destruct (Z.ltb_spec (x2 - x) 0); simpl; lia.
Qed.

Lemma on_vertical_corridor (x y x2 y2 : Z) (q : point) :
  on_rect (define_corridor vertical x y x2 y2) q
  <-> fst q = x /\ Z.min y y2 <= snd q <= Z.max y y2.
Proof.
  unfold define_corridor, on_rect, in_rect.
  destruct (Z.ltb_spec (y2 - y) 0); simpl; lia.
Qed.

Lemma half_inside (w : Z) : 1 <= w -> 0 <= w / 2 < w.
Proof.
  intro H. split; [apply Z.div_pos; lia|apply Z.div_lt_upper_bound; lia].
Qed.

(** The centerpoint of a rectangle with a cell is one of its cells. *)
Lemma center_on_rect (r : rect) : 1 <= rw r -> 1 <= rh r -> on_rect r (center_of r).
Proof.
  intros Hw Hh. unfold on_rect, in_rect, center_of, return_the_center_of_this_rectangle; simpl.
  pose proof (half_inside (rw r) Hw). pose proof (half_inside (rh r) Hh). lia.
Qed.

Lemma corridor_extents (o : orientation) (x y x2 y2 : Z) :
  1 <= rw (define_corridor o x y x2 y2) /\ 1 <= rh (define_corridor o x y x2 y2).
Proof.
  unfold define_corridor. destruct o.
  - destruct (Z.ltb_spec (x2 - x) 0); simpl; lia.
  - destruct (Z.ltb_spec (y2 - y) 0); simpl; lia.
Qed.

(** The two corridors of a link: both ends and both corridor centerpoints
    are mutually reachable along the corridors, whichever comes first. *)
Lemma link_corridors_linked (d : Z) (alpha beta : point) :
  linked (covered [fst (link_corridors d alpha beta); snd (link_corridors d alpha beta)])
    [alpha; beta; center_of (fst (link_corridors d alpha beta));
     center_of (snd (link_corridors d alpha beta))].
Proof.
  set (h := fst (link_corridors d alpha beta)).
  set (v := snd (link_corridors d alpha beta)).
  set (ok := covered [h; v]).
  assert (Hh : forall q, on_rect h q -> ok q) by (intros q Hq; exists h; split; [left; reflexivity|exact Hq]).
  assert (Hv : forall q, on_rect v q -> ok q)
    by (intros q Hq; exists v; split; [right; left; reflexivity|exact Hq]).
  assert (Hch : on_rect h (center_of h)).
  { unfold h, link_corridors. destruct (d =? 0); cbn [fst snd]; apply center_on_rect; apply corridor_extents. }
  assert (Hcv : on_rect v (center_of v)).
  { unfold v, link_corridors. destruct (d =? 0); cbn [fst snd]; apply center_on_rect; apply corridor_extents. }
  destruct alpha as [xa ya], beta as [xb yb].
  (* the corner of the L lies on both corridors *)
  assert (Hcorner : exists k, on_rect h k /\ on_rect v k
                              /\ ((on_rect h (xa, ya) /\ on_rect v (xb, yb))
                                  \/ (on_rect v (xa, ya) /\ on_rect h (xb, yb)))).
  { unfold h, v, link_corridors. destruct (d =? 0); cbn [fst snd].
    - exists (xb, ya). rewrite !on_horizontal_corridor, !on_vertical_corridor; simpl. lia.
    - exists (xa, yb). rewrite !on_horizontal_corridor, !on_vertical_corridor; simpl. lia. }
  destruct Hcorner as (k & Hkh & Hkv & Hends).
  assert (Hhv : forall p q, on_rect h p -> on_rect v q -> reachable ok p q).
  { intros p q Hp Hq. apply (reachable_trans ok p k q).
    - apply (rect_walk ok h); assumption.
    - apply (rect_walk ok v); assumption. }
  assert (Hall : forall q, In q [(xa, ya); (xb, yb); center_of h; center_of v] ->
                           on_rect h q \/ on_rect v q).
  { intros q [<-|[<-|[<-|[<-|[]]]]]; tauto. }
  intros p q Hp Hq.
  destruct (Hall p Hp) as [Hp'|Hp'], (Hall q Hq) as [Hq'|Hq'].
  - apply (rect_walk ok h); assumption.
  - apply Hhv; assumption.
  - apply reachable_sym. apply Hhv; assumption.
  - apply (rect_walk ok v); assumption.
Qed.

(** ** Colors *)

Lemma linked_incl (ok : point -> Prop) (l l' : list point) :
  incl l' l -> linked ok l -> linked ok l'.
Proof. intros Hi Hl a b Ha Hb. apply Hl; apply Hi; assumption. Qed.

Lemma linked_mono (ok ok' : point -> Prop) (l : list point) :
  (forall q, ok q -> ok' q) -> linked ok l -> linked ok' l.
Proof. intros Hs Hl a b Ha Hb. apply (reachable_mono ok ok'); [exact Hs|apply Hl; assumption]. Qed.

(** Two linked colors with a walk between a member of each form one
    linked color. *)
Lemma linked_bridge (ok : point -> Prop) (l1 l2 : list point) (x y : point) :
  linked ok l1 -> linked ok l2 -> In x l1 -> In y l2 -> reachable ok x y ->
  linked ok (l1 ++ l2).
Proof.
  intros H1 H2 Hx Hy Hxy a b Ha Hb.
  apply in_app_or in Ha. apply in_app_or in Hb.
  destruct Ha as [Ha|Ha], Hb as [Hb|Hb].
  - apply H1; assumption.
  - apply (reachable_trans ok a x b); [apply H1; assumption|].
    apply (reachable_trans ok x y b); [exact Hxy|apply H2; assumption].
  - apply (reachable_trans ok a y b); [apply H2; assumption|].
    apply (reachable_trans ok y x b); [apply reachable_sym; exact Hxy|apply H1; assumption].
  - apply H2; assumption.
Qed.

Lemma covered_app_l (rs rs' : list rect) (q : point) : covered rs q -> covered (rs ++ rs') q.
Proof. intros (r & Hr & Hq). exists r. split; [apply in_or_app; left; exact Hr|exact Hq]. Qed.

Lemma covered_app_r (rs rs' : list rect) (q : point) : covered rs' q -> covered (rs ++ rs') q.
Proof. intros (r & Hr & Hq). exists r. split; [apply in_or_app; right; exact Hr|exact Hq]. Qed.

(** What the scan of a color reports: it connects only when the color
    holds one of the four centerpoints, and it withholds the alpha
    centerpoint only when the color holds it already. *)
Lemma scan_fold (a b h v : point) (color : list point) (s0 : MarkII.scan) :
  let s := fold_left (MarkII.scan_step a b h v) color s0 in
  (MarkII.connects s = true ->
     MarkII.connects s0 = true \/ exists q, In q color /\ In q [a; b; h; v])
  /\ (MarkII.can_append_alpha s = false ->
        MarkII.can_append_alpha s0 = false \/ In a color).
Proof.
  revert s0; induction color as [|c color IH]; intros s0; cbn [fold_left].
  - split; intro H; left; exact H.
  - specialize (IH (MarkII.scan_step a b h v s0 c)). cbv zeta in IH.
    destruct IH as [IH1 IH2]. split; intro H.
    + destruct (IH1 H) as [H1|(q & Hq & Hq4)].
      * unfold MarkII.scan_step in H1.
        destruct (point_eqb c a) eqn:Ea;
          [apply point_eqb_eq in Ea; right; exists c; split; [left; reflexivity|subst; simpl; auto]|].
        destruct (point_eqb c b) eqn:Eb;
          [apply point_eqb_eq in Eb; right; exists c; split; [left; reflexivity|subst; simpl; auto]|].
        destruct (point_eqb c h) eqn:Eh;
          [apply point_eqb_eq in Eh; right; exists c; split; [left; reflexivity|subst; simpl; auto]|].
        destruct (point_eqb c v) eqn:Ev;
          [apply point_eqb_eq in Ev; right; exists c; split; [left; reflexivity|subst; simpl; auto]|].
        left; exact H1.
      * right. exists q. split; [right; exact Hq|exact Hq4].
    + destruct (IH2 H) as [H1|H1]; [|right; right; exact H1].
      unfold MarkII.scan_step in H1.
      destruct (point_eqb c a) eqn:Ea; [apply point_eqb_eq in Ea; right; left; exact Ea|].
      left.
      destruct (point_eqb c b), (point_eqb c h), (point_eqb c v); simpl in H1; exact H1.
Qed.

Lemma scan_color_connects (a b h v : point) (color : list point) :
  MarkII.connects (MarkII.scan_color a b h v color) = true ->
  exists q, In q color /\ In q [a; b; h; v].
Proof.
  intro H. destruct (scan_fold a b h v color (MarkII.Scan false true true true true)) as [H1 _].
  destruct (H1 H) as [H0|H0]; [discriminate|exact H0].
Qed.

Lemma scan_color_withholds_alpha (a b h v : point) (color : list point) :
  MarkII.can_append_alpha (MarkII.scan_color a b h v color) = false -> In a color.
Proof.
  intro H. destruct (scan_fold a b h v color (MarkII.Scan false true true true true)) as [_ H2].
  destruct (H2 H) as [H0|H0]; [discriminate|exact H0].
Qed.

(** A color is never shrunk by growing it ... *)
Lemma grow_color_incl (a b h v : point) (color : list point) :
  incl color (MarkII.grow_color a b h v color).
Proof.
  unfold MarkII.grow_color.
  destruct (MarkII.connects _); [|apply incl_refl]. apply incl_appl, incl_refl.
Qed.

(** ... it receives centerpoints of the new link only, and only when it
    holds one of them already ... *)
Lemma grow_color_members (a b h v : point) (color : list point) :
  MarkII.grow_color a b h v color = color
  \/ (incl (MarkII.grow_color a b h v color) (color ++ [a; b; h; v])
      /\ exists q, In q color /\ In q [a; b; h; v]).
Proof.
  unfold MarkII.grow_color.
  destruct (MarkII.connects (MarkII.scan_color a b h v color)) eqn:E; [right|left; reflexivity].
  split; [|apply scan_color_connects; exact E].
  apply incl_app; [apply incl_appl, incl_refl|apply incl_appr].
  destruct (MarkII.can_append_alpha _), (MarkII.can_append_beta _),
    (MarkII.can_append_horizontal _), (MarkII.can_append_vertical _);
    intros q Hq; simpl in Hq; simpl; tauto.
Qed.

(** ... and a color that fits holds the alpha centerpoint afterwards. *)
Lemma grow_color_alpha (a b h v : point) (color : list point) :
  MarkII.connects (MarkII.scan_color a b h v color) = true ->
  In a (MarkII.grow_color a b h v color).
Proof.
  intro E. unfold MarkII.grow_color. rewrite E.
  destruct (MarkII.can_append_alpha (MarkII.scan_color a b h v color)) eqn:Ea.
  - apply in_or_app; right. left; reflexivity.
  - apply in_or_app; left. apply scan_color_withholds_alpha in Ea. exact Ea.
Qed.

Lemma grow_color_linked (ok : point -> Prop) (a b h v : point) (color : list point) :
  linked ok color -> linked ok [a; b; h; v] ->
  linked ok (MarkII.grow_color a b h v color).
Proof.
  intros Hc H4. destruct (grow_color_members a b h v color) as [->|[Hi (q & Hq & Hq4)]];
    [exact Hc|].
  apply (linked_incl ok (color ++ [a; b; h; v])); [exact Hi|].
  apply (linked_bridge ok color [a; b; h; v] q q); try assumption.
  apply Hc; assumption.
Qed.

(** The colors after one link: every color is still linked, every
    member of an old color is a member of a new one, and the alpha
    centerpoint is a member of some color. *)
Lemma update_colors_spec (ok : point -> Prop) (a b h v : point) (colors : list (list point)) :
  Forall (linked ok) colors -> linked ok [a; b; h; v] ->
  Forall (linked ok) (MarkII.update_colors a b h v colors)
  /\ (forall q color, In color colors -> In q color ->
        exists color', In color' (MarkII.update_colors a b h v colors) /\ In q color')
  /\ (exists color', In color' (MarkII.update_colors a b h v colors) /\ In a color').
Proof.
  intros Hcs H4. unfold MarkII.update_colors.
  destruct (len colors =? 0) eqn:E0.
  - split; [constructor; [exact H4|constructor]|]. split.
    + intros q color Hin. destruct colors; [contradiction|]. unfold len in E0. simpl in E0.
      discriminate.
    + exists [a; b; h; v]. split; left; reflexivity.
  - assert (Hgrown : Forall (linked ok) (map (MarkII.grow_color a b h v) colors)).
    { apply Forall_forall. intros c' Hc'. apply in_map_iff in Hc' as (c & <- & Hc).
      apply grow_color_linked; [|exact H4]. rewrite Forall_forall in Hcs. apply Hcs; exact Hc. }
    assert (Hkeep : forall q color, In color colors -> In q color ->
              exists color', In color' (map (MarkII.grow_color a b h v) colors) /\ In q color').
    { intros q color Hc Hq. exists (MarkII.grow_color a b h v color).
      split; [apply in_map; exact Hc|apply grow_color_incl; exact Hq]. }
    destruct (existsb _ colors) eqn:Ef.
    + split; [exact Hgrown|]. split; [exact Hkeep|].
      apply existsb_exists in Ef as (c & Hc & Ec).
      exists (MarkII.grow_color a b h v c). split; [apply in_map; exact Hc|].
      apply grow_color_alpha; exact Ec.
    + split; [apply Forall_app; split; [exact Hgrown|constructor; [exact H4|constructor]]|].
      split.
      * intros q color Hc Hq. destruct (Hkeep q color Hc Hq) as (c' & Hc' & Hq').
        exists c'. split; [apply in_or_app; left; exact Hc'|exact Hq'].
      * exists [a; b; h; v]. split; [apply in_or_app; right; left; reflexivity|left; reflexivity].
Qed.

(** ** Nearest-point scans answer with a member of the list *)

Lemma nearer_choice {A : Type} (d : Z) (a : A) (best : option (Z * A)) (r : Z * A) :
  nearer d a best = Some r -> best = Some r \/ snd r = a.
Proof.
  unfold nearer. destruct best as [[s b0]|].
  - destruct (d <? s); intro H; inversion H; subst; auto.
  - intro H; inversion H; subst; auto.
Qed.

Lemma scan_choice {A : Type} (step : option (Z * A) -> A -> option (Z * A)) (l : list A) :
  (forall best c r, step best c = Some r -> best = Some r \/ snd r = c) ->
  forall best r, fold_left step l best = Some r -> best = Some r \/ In (snd r) l.
Proof.
  intro Hstep. induction l as [|c l IH]; intros best r H; cbn [fold_left] in H.
  - left; exact H.
  - destruct (IH _ _ H) as [H1|H1]; [|right; right; exact H1].
    destruct (Hstep _ _ _ H1) as [H2|H2]; [left; exact H2|right; left; symmetry; exact H2].
Qed.

Lemma closest_centerpoint_in (alpha beta : point) (l : list point) :
  MarkII.closest_centerpoint alpha l = Some beta -> In beta l.
Proof.
  unfold MarkII.closest_centerpoint.
  destruct (fold_left _ l None) as [r|] eqn:E; [|discriminate].
  cbn [option_map]. intro H; inversion H; subst.
  apply scan_choice in E; [destruct E as [E|E]; [discriminate|exact E]|].
  intros best c r'. destruct (point_eqb alpha c); [left; assumption|apply nearer_choice].
Qed.

Lemma nearest_to_in (target x : point) (l : list point) :
  nearest_to target l = Some x -> In x l.
Proof.
  unfold nearest_to.
  destruct (fold_left _ l None) as [r|] eqn:E; [|discriminate].
  cbn [option_map]. intro H; inversion H; subst.
  apply scan_choice in E; [destruct E as [E|E]; [discriminate|exact E]|].
  intros best c r'. apply nearer_choice.
Qed.

(** ** The first pass *)

Lemma for_each_prefix {A St : Type} (P : list A -> St -> Prop) (l : list A)
  (body : A -> St -> outcome St) (s s' : St) :
  P [] s ->
  (forall done a s1 s2, In a l -> P done s1 -> body a s1 = Return s2 -> P (done ++ [a]) s2) ->
  for_each l body s = Return s' -> P l s'.
Proof.
  intros H0 Hstep.
  assert (G : forall rest done s1, incl rest l -> P done s1 ->
                for_each rest body s1 = Return s' -> P (done ++ rest) s').
  { induction rest as [|a rest IH]; intros done s1 Hi Hd H; cbn [for_each] in H.
    - inversion H; subst. rewrite app_nil_r. exact Hd.
    - apply bind_Return_inv in H as (s2 & H1 & H2).
      replace (done ++ a :: rest) with ((done ++ [a]) ++ rest)
        by (rewrite <- app_assoc; reflexivity).
      apply (IH (done ++ [a]) s2); [intros x Hx; apply Hi; right; exact Hx| |exact H2].
      apply (Hstep done a s1 s2); [apply Hi; left; reflexivity|exact Hd|exact H1]. }
  intro H. apply (G l [] s); [apply incl_refl|exact H0|exact H].
Qed.

Lemma half_within (w : Z) : 0 <= w -> 0 <= w / 2 <= w.
Proof.
  intro H. split; [apply Z.div_pos; lia|apply Z.div_le_upper_bound; lia].
Qed.

(** The centerpoint of a placed room with non-negative extents lies
    inside the map. *)
Lemma room_center_inside (p : MarkII.params) (room : rect) :
  0 <= MarkII.room_min_size p -> well_placed p room -> inside_map p (center_of room).
Proof.
  intros Hmin (Hx & Hy & Hw & Hh & Hx2 & Hy2).
  unfold inside_map, center_of, return_the_center_of_this_rectangle; cbn [fst snd].
  pose proof (half_within (rw room) ltac:(lia)). pose proof (half_within (rh room) ltac:(lia)). lia.
Qed.

(** The corridors of a link between two points inside the map stay
    inside the map. *)
Lemma link_corridors_within (p : MarkII.params) (d : Z) (alpha beta : point) :
  inside_map p alpha -> inside_map p beta ->
  within_map p (fst (link_corridors d alpha beta))
  /\ within_map p (snd (link_corridors d alpha beta)).
Proof.
  unfold inside_map, within_map. intros Ha Hb.
  unfold link_corridors. destruct (d =? 0); cbn [fst snd]; split; intros q Hq; unfold inside_map.
  - apply on_horizontal_corridor in Hq. lia.
  - apply on_vertical_corridor in Hq. lia.
  - apply on_horizontal_corridor in Hq. lia.
  - apply on_vertical_corridor in Hq. lia.
Qed.

Lemma linked_member_ok (ok : point -> Prop) (color : list point) (q : point) :
  linked ok color -> In q color -> ok q.
Proof. intros Hl Hq. exact (reachable_ok_l ok q q (Hl q q Hq Hq)). Qed.

(** The members of the colors lie inside the map. *)
Lemma color_member_inside (p : MarkII.params) (colors : list (list point))
  (corridors : list rect) (color : list point) (q : point) :
  colors_ok p colors corridors -> In color colors -> In q color -> inside_map p q.
Proof.
  intros [Hw Hl] Hc Hq. rewrite Forall_forall in Hw, Hl.
  destruct (linked_member_ok _ color q (Hl color Hc) Hq) as (r & Hr & Hon).
  exact (Hw r Hr q Hon).
Qed.

(** Adding the two corridors of a link: the old colors stay linked, and
    the four centerpoints of the link are linked. *)
Lemma colors_ok_link (p : MarkII.params) (colors : list (list point)) (corridors : list rect)
  (d : Z) (alpha beta : point) :
  colors_ok p colors corridors -> inside_map p alpha -> inside_map p beta ->
  let h := fst (link_corridors d alpha beta) in
  let v := snd (link_corridors d alpha beta) in
  Forall (within_map p) (corridors ++ [h; v])
  /\ Forall (linked (covered (corridors ++ [h; v]))) colors
  /\ linked (covered (corridors ++ [h; v])) [alpha; beta; center_of h; center_of v].
Proof.
  intros [Hw Hl] Ha Hb h v.
  destruct (link_corridors_within p d alpha beta Ha Hb) as [Hh Hv].
  split; [|split].
  - apply Forall_app; split; [exact Hw|]. constructor; [exact Hh|constructor; [exact Hv|constructor]].
  - eapply Forall_impl; [|exact Hl]. intros color Hc.
    apply (linked_mono (covered corridors)); [apply covered_app_l|exact Hc].
  - apply (linked_mono (covered [h; v])); [apply covered_app_r|].
    apply link_corridors_linked.
Qed.

(** One room of the first pass. *)
Lemma link_room_spec (p : MarkII.params) (room : rect) (lk lk' : MarkII.links) (g g' : rng) :
  inside_map p (center_of room) ->
  Forall (inside_map p) (MarkII.list_of_all_centerpoints lk) ->
  colors_ok p (MarkII.list_of_room_connection_colors lk) (MarkII.list_of_new_corridors lk) ->
  MarkII.link_room room (lk, g) = Return (lk', g') ->
  Forall (inside_map p) (MarkII.list_of_all_centerpoints lk')
  /\ colors_ok p (MarkII.list_of_room_connection_colors lk') (MarkII.list_of_new_corridors lk')
  /\ in_some_color (MarkII.list_of_room_connection_colors lk') (center_of room)
  /\ (forall q, in_some_color (MarkII.list_of_room_connection_colors lk) q ->
                in_some_color (MarkII.list_of_room_connection_colors lk') q).
Proof.
  intros Ha Hall Hok H. unfold MarkII.link_room in H.
  apply bind_Return_inv in H as ([d g1] & _ & H).
  destruct (MarkII.closest_centerpoint (center_of room) (MarkII.list_of_all_centerpoints lk))
    as [beta|] eqn:Eb; [|discriminate].
  apply closest_centerpoint_in in Eb.
  assert (Hb : inside_map p beta) by (rewrite Forall_forall in Hall; apply Hall; exact Eb).
  pose proof (colors_ok_link p _ _ d (center_of room) beta Hok Ha Hb) as Hlink.
  cbv zeta in Hlink.
  destruct (link_corridors d (center_of room) beta) as [h v] eqn:El. cbn [fst snd] in Hlink.
  destruct Hlink as (Hw & Hl & H4).
  inversion H; subst; clear H.
  cbn [MarkII.list_of_all_centerpoints MarkII.list_of_room_connection_colors
       MarkII.list_of_new_corridors].
  destruct (update_colors_spec (covered (MarkII.list_of_new_corridors lk ++ [h; v]))
              (center_of room) beta (center_of h) (center_of v)
              (MarkII.list_of_room_connection_colors lk) Hl H4) as (U1 & U2 & U3).
  split; [|split; [|split]].
  - apply Forall_app; split; [exact Hall|].
    assert (Hin : forall q, In q [center_of room; beta; center_of h; center_of v] ->
                            inside_map p q).
    { intros q Hq. destruct (linked_member_ok _ _ q H4 Hq) as (r & Hr & Hon).
      rewrite Forall_forall in Hw. exact (Hw r Hr q Hon). }
    constructor; [|constructor; [|constructor]]; apply Hin; simpl; auto.
  - split; [exact Hw|exact U1].
  - exact U3.
  - intros q (color & Hc & Hq). exact (U2 q color Hc Hq).
Qed.

(** After the first pass every room's centerpoint is a member of a
    color, and the colors are linked along the corridors. *)
Lemma first_pass_spec (p : MarkII.params) (rooms : list rect) (lk : MarkII.links) (g g' : rng) :
  Forall (fun room => inside_map p (center_of room)) rooms ->
  for_each rooms MarkII.link_room (MarkII.Links (map center_of rooms) [] [], g)
  = Return (lk, g') ->
  colors_ok p (MarkII.list_of_room_connection_colors lk) (MarkII.list_of_new_corridors lk)
  /\ forall room, In room rooms ->
       in_some_color (MarkII.list_of_room_connection_colors lk) (center_of room).
Proof.
  intros Hin H. rewrite Forall_forall in Hin.
  pose (P := fun (done : list rect) (st : MarkII.links * rng) =>
               Forall (inside_map p) (MarkII.list_of_all_centerpoints (fst st))
               /\ colors_ok p (MarkII.list_of_room_connection_colors (fst st))
                    (MarkII.list_of_new_corridors (fst st))
               /\ forall room, In room done ->
                    in_some_color (MarkII.list_of_room_connection_colors (fst st))
                      (center_of room)).
  assert (G : P rooms (lk, g')).
  { apply (for_each_prefix P rooms MarkII.link_room
             (MarkII.Links (map center_of rooms) [] [], g) (lk, g')); [| |exact H].
    - unfold P; cbn [fst MarkII.list_of_all_centerpoints MarkII.list_of_room_connection_colors
                       MarkII.list_of_new_corridors].
      split; [|split].
      + apply Forall_forall. intros q Hq. apply in_map_iff in Hq as (room & <- & Hroom).
        apply Hin; exact Hroom.
      + split; constructor.
      + intros room [].
    - intros done room [lk1 g1] [lk2 g2] Hroom (A1 & A2 & A3) Hstep. unfold P; cbn [fst] in *.
      destruct (link_room_spec p room lk1 lk2 g1 g2 (Hin room Hroom) A1 A2 Hstep)
        as (B1 & B2 & B3 & B4).
      split; [exact B1|]. split; [exact B2|].
      intros r Hr. apply in_app_or in Hr as [Hr|[<-|[]]]; [apply B4, A3; exact Hr|exact B3]. }
  destruct G as (_ & G2 & G3). split; assumption.
Qed.

(** ** The merging loop *)

Lemma from_bound_inv {A : Type} (o : option A) (a : A) :
  MarkII.from_bound o = Return a -> o = Some a.
Proof. destruct o; simpl; intro H; inversion H; reflexivity. Qed.

Lemma length_del_nth {A : Type} (l : list A) (k : nat) :
  (k < length l)%nat -> length (del_nth l k) = (length l - 1)%nat.
Proof.
  revert k; induction l as [|a l IH]; intros [|k] H; simpl in *; try lia.
  rewrite IH by lia. lia.
Qed.

Lemma in_del_nth {A : Type} (l : list A) (k : nat) (x : A) :
  In x (del_nth l k) -> In x l.
Proof.
  revert k; induction l as [|a l IH]; intros [|k]; simpl; auto.
  intros [H|H]; [left; exact H|right; exact (IH k H)].
Qed.

Lemma in_del_nth_other {A : Type} (l : list A) (k : nat) (c x : A) :
  nth_error l k = Some c -> In x l -> x = c \/ In x (del_nth l k).
Proof.
  revert k; induction l as [|a l IH]; intros [|k] Hk Hx; simpl in *; try discriminate.
  - inversion Hk; subst. destruct Hx as [Hx|Hx]; [left; symmetry; exact Hx|right; exact Hx].
  - destruct Hx as [Hx|Hx]; [right; left; exact Hx|].
    destruct (IH k Hk Hx) as [H|H]; [left; exact H|right; right; exact H].
Qed.

Lemma in_combine_seq {A : Type} (l : list A) (s i : nat) (c : A) :
  In (i, c) (combine (seq s (length l)) l) -> (s <= i)%nat /\ nth_error l (i - s) = Some c.
Proof.
  revert s; induction l as [|a l IH]; intros s H; simpl in H; [contradiction|].
  destruct H as [H|H].
  - inversion H; subst. rewrite Nat.sub_diag. split; [lia|reflexivity].
  - apply IH in H as [H1 H2]. split; [lia|].
    replace (i - s)%nat with (S (i - S s)) by lia. exact H2.
Qed.

(** The scan for the nearest color answers with one of the other colors
    and with the index it has in the list. *)
Lemma closest_color_in (alpha_average : point) (rest : list (list point))
  (d : Z) (color : list point) (index : nat) (average : point) :
  for_each (combine (seq 1 (length rest)) rest) (MarkII.closest_color_step alpha_average) None
  = Return (Some (d, (color, index, average))) ->
  exists k, index = S k /\ nth_error rest k = Some color.
Proof.
  intro H.
  assert (G : forall r, Some (d, (color, index, average)) = Some r ->
                        In (snd (fst (snd r)), fst (fst (snd r)))
                           (combine (seq 1 (length rest)) rest)).
  { apply (for_each_invariant
             (fun best => forall r, best = Some r ->
                In (snd (fst (snd r)), fst (fst (snd r))) (combine (seq 1 (length rest)) rest))
             (combine (seq 1 (length rest)) rest)
             (MarkII.closest_color_step alpha_average) None); [| |exact H].
    - intros [i c] b1 b2 Hin Hb1 Hstep r Hr. unfold MarkII.closest_color_step in Hstep.
      apply bind_Return_inv in Hstep as (avg & _ & Hstep). injection Hstep as Hb2. subst b2.
      apply nearer_choice in Hr as [Hr|Hr]; [exact (Hb1 r Hr)|].
      rewrite Hr. cbn [fst snd]. exact Hin.
    - discriminate. }
  specialize (G _ eq_refl). cbn [fst snd] in G.
  apply in_combine_seq in G as [G1 G2].
  exists (index - 1)%nat. split; [lia|exact G2].
Qed.

(** One pass of the merging loop: the colors stay linked along the
    corridors, no member is lost, and two colors become one. *)
Lemma merge_step_spec (p : MarkII.params) (k : Z) (colors colors' : list (list point))
  (corridors corridors' : list rect) (g g' : rng) :
  colors_ok p colors corridors ->
  MarkII.merge_step k (colors, corridors, g) = Return (colors', corridors', g') ->
  colors_ok p colors' corridors'
  /\ (forall q, in_some_color colors q -> in_some_color colors' q)
  /\ (length colors' <= Nat.max 1 (length colors - 1))%nat.
Proof.
  intros Hok H. unfold MarkII.merge_step in H.
  destruct (1 <? len colors) eqn:E1.
  2:{ inversion H; subst. split; [exact Hok|]. split; [auto|].
      apply Z.ltb_ge in E1. unfold len in E1. lia. }
  apply Z.ltb_lt in E1. unfold len in E1.
  destruct colors as [|c0 rest]; [simpl in E1; lia|].
  cbn [hd tl] in H.
  replace (length (c0 :: rest) - 1)%nat with (length rest) in H by (simpl; lia).
  apply bind_Return_inv in H as (alpha_average & _ & H).
  apply bind_Return_inv in H as (best & Hbest & H).
  apply bind_Return_inv in H as ([d [[c index] beta_average]] & Hb & H).
  apply from_bound_inv in Hb. subst best.
  apply closest_color_in in Hbest as (i & -> & Hi).
  apply bind_Return_inv in H as (which_alpha & Ha & H).
  apply bind_Return_inv in H as (which_beta & Hb & H).
  apply from_bound_inv in Ha. apply nearest_to_in in Ha.
  apply from_bound_inv in Hb. apply nearest_to_in in Hb.
  apply bind_Return_inv in H as ([dir g1] & _ & H).
  assert (Hc : In c rest) by (eapply nth_error_In; exact Hi).
  assert (Ia : inside_map p which_alpha).
  { apply (color_member_inside p (c0 :: rest) corridors c0); [exact Hok|left; reflexivity|exact Ha]. }
  assert (Ib : inside_map p which_beta).
  { apply (color_member_inside p (c0 :: rest) corridors c); [exact Hok|right; exact Hc|exact Hb]. }
  pose proof (colors_ok_link p _ _ dir which_alpha which_beta Hok Ia Ib) as Hlink.
  cbv zeta in Hlink.
  destruct (link_corridors dir which_alpha which_beta) as [h v]. cbn [fst snd] in Hlink.
  destruct Hlink as (Hw & Hl & H4).
  inversion H; subst; clear H. cbn [del_nth].
  apply Forall_cons_iff in Hl as [Hl0 Hlrest].
  split; [split; [exact Hw|]|split].
  - constructor.
    + apply (linked_bridge _ c0 c which_alpha which_beta); try assumption.
      * rewrite Forall_forall in Hlrest. apply Hlrest; exact Hc.
      * apply H4; simpl; auto.
    + apply Forall_forall. intros x Hx. apply in_del_nth in Hx.
      rewrite Forall_forall in Hlrest. apply Hlrest; exact Hx.
  - intros q (color & [Hc0|Hcolor] & Hq).
    + subst color. exists (c0 ++ c). split; [left; reflexivity|apply in_or_app; left; exact Hq].
    + destruct (in_del_nth_other rest i c color Hi Hcolor) as [->|Hx].
      * exists (c0 ++ c). split; [left; reflexivity|apply in_or_app; right; exact Hq].
      * exists color. split; [right; exact Hx|exact Hq].
  - cbn [length]. rewrite length_del_nth by (apply nth_error_Some; rewrite Hi; discriminate).
    cbn [length] in E1. lia.
Qed.

(** After the merging loop at most one color is left; it is linked along
    the corridors and holds every member of the colors it started from. *)
Lemma merging_spec (p : MarkII.params) (colors colors' : list (list point))
  (corridors corridors' : list rect) (g g' : rng) :
  colors_ok p colors corridors ->
  for_each (py_range 0 (len colors)) MarkII.merge_step (colors, corridors, g)
  = Return (colors', corridors', g') ->
  colors_ok p colors' corridors'
  /\ (forall q, in_some_color colors q -> in_some_color colors' q)
  /\ (length colors' <= 1)%nat.
Proof.
  intros Hok H.
  pose (P := fun (n : nat) (st : list (list point) * list rect * rng) =>
               colors_ok p (fst (fst st)) (snd (fst st))
               /\ (forall q, in_some_color colors q -> in_some_color (fst (fst st)) q)
               /\ (length (fst (fst st)) <= Nat.max 1 (length colors - n))%nat).
  assert (G : P (length (py_range 0 (len colors))) (colors', corridors', g')).
  { apply (for_each_counted P (py_range 0 (len colors)) MarkII.merge_step
             (colors, corridors, g)); [| |exact H].
    - unfold P; cbn [fst snd]. split; [exact Hok|]. split; [auto|lia].
    - intros n a [[c1 r1] g1] [[c2 r2] g2] _ (A1 & A2 & A3) Hstep. unfold P; cbn [fst snd] in *.
      destruct (merge_step_spec p a c1 c2 r1 r2 g1 g2 A1 Hstep) as (B1 & B2 & B3).
      split; [exact B1|]. split; [intros q Hq; apply B2, A2; exact Hq|lia]. }
  destruct G as (G1 & G2 & G3). cbn [fst snd] in *.
  split; [exact G1|]. split; [exact G2|].
  rewrite length_py_range in G3. unfold len in G3.
  rewrite Z.sub_0_r, Nat2Z.id in G3. lia.
Qed.

(** ** The written map *)

Lemma in_targets (r : rect) (col row : Z) : in_rect r col row -> In (row, col) (targets r).
Proof.
  unfold in_rect, targets. intro H. apply in_flat_map.
  exists (row - ry r). split; [apply in_py_range; lia|].
  apply in_map_iff. exists (col - rx r). split; [f_equal; lia|apply in_py_range; lia].
Qed.

(** A guarded write at a cell of the grid leaves a 1 there and keeps
    every 1 of the map. *)
Lemma carve_excavates (t : Z * Z) (m m' : grid) :
  cells01 m -> 0 <= fst t -> 0 <= snd t -> visit_carve t m = Return m' ->
  cells01 m'
  /\ (forall r c, cell m r c = 1 -> cell m' r c = 1)
  /\ cell m' (Z.to_nat (fst t)) (Z.to_nat (snd t)) = 1.
Proof.
  intros H01 Hr Hc H. split; [exact (carve_keeps_cells01 t m m' H01 H)|].
  unfold visit_carve in H.
  apply carve_if_uncarved_inv in H as (kr & kc & Hkr & Hkc & Hcase).
  apply py_index_nonneg in Hkr; [|exact Hr]. apply py_index_nonneg in Hkc; [|exact Hc].
  subst kr kc. destruct Hcase as [[Hnz ->]|[_ Hset]].
  - split; [auto|]. destruct (H01 (Z.to_nat (fst t)) (Z.to_nat (snd t))); [contradiction|assumption].
  - split.
    + intros r c Hrc. rewrite Hset.
      destruct (Nat.eqb r (Z.to_nat (fst t)) && Nat.eqb c (Z.to_nat (snd t)))%bool;
        [reflexivity|exact Hrc].
    + rewrite Hset, !Nat.eqb_refl. reflexivity.
Qed.

Lemma carves_excavate (ts : list (Z * Z)) (m m' : grid) :
  cells01 m -> Forall (fun t => 0 <= fst t /\ 0 <= snd t) ts ->
  for_each ts visit_carve m = Return m' ->
  cells01 m'
  /\ (forall r c, cell m r c = 1 -> cell m' r c = 1)
  /\ (forall t, In t ts -> cell m' (Z.to_nat (fst t)) (Z.to_nat (snd t)) = 1).
Proof.
  revert m; induction ts as [|t ts IH]; intros m H01 Hnn H; cbn [for_each] in H.
  - inversion H; subst. split; [exact H01|]. split; [auto|intros t []].
  - apply bind_Return_inv in H as (m1 & H1 & H2).
    apply Forall_cons_iff in Hnn as [[Hr Hc] Hnn].
    destruct (carve_excavates t m m1 H01 Hr Hc H1) as (A1 & A2 & A3).
    destruct (IH m1 A1 Hnn H2) as (B1 & B2 & B3).
    split; [exact B1|]. split; [intros r c Hrc; apply B2, A2; exact Hrc|].
    intros t' [<-|Ht']; [apply B2; exact A3|apply B3; exact Ht'].
Qed.

(** Every cell of a room and every cell of a corridor is excavated in
    the returned map. *)
Lemma written_map_excavated (p : MarkII.params) (rooms corridors : list rect) (m1 m : grid) :
  placement p rooms -> Forall (within_map p) corridors ->
  for_each rooms MarkII.write_room (blank_map (MarkII.map_width p) (MarkII.map_height p))
  = Return m1 ->
  for_each corridors MarkII.write_corridor m1 = Return m ->
  forall q, covered (rooms ++ corridors) q -> excavated m q.
Proof.
  intros [Hwp Hap] Hw H1 H2.
  assert (H01 : cells01 m1).
  { intros r c. rewrite (written_rooms_cover p rooms m1 Hwp H1 r c).
    pose proof (cover_count_nonneg rooms (Z.of_nat c) (Z.of_nat r)).
    pose proof (cover_count_apart rooms (Z.of_nat c) (Z.of_nat r) Hap). lia. }
  rewrite write_corridors_targets in H2.
  assert (Hnn : Forall (fun t => 0 <= fst t /\ 0 <= snd t) (flat_map targets corridors)).
  { apply Forall_forall. intros t Ht. apply in_flat_map in Ht as (r & Hr & Ht).
    apply targets_in_rect in Ht. rewrite Forall_forall in Hw.
    specialize (Hw r Hr (snd t, fst t) Ht). unfold inside_map in Hw; cbn [fst snd] in Hw. lia. }
  destruct (carves_excavate _ m1 m H01 Hnn H2) as (_ & Hkeep & Hnew).
  intros [x y] (r & Hr & Hon). unfold on_rect in Hon; cbn [fst snd] in Hon.
  apply in_app_or in Hr as [Hr|Hr].
  - pose proof (proj1 (Forall_forall _ _) Hwp r Hr) as (Hx & Hy & _).
    assert (0 <= x /\ 0 <= y) as [Hx0 Hy0] by (unfold in_rect in Hon; lia).
    unfold excavated; cbn [fst snd]. split; [exact Hx0|]. split; [exact Hy0|].
    rewrite (Hkeep (Z.to_nat y) (Z.to_nat x)); [lia|].
    pose proof (written_rooms_cover p rooms m1 Hwp H1 (Z.to_nat y) (Z.to_nat x)) as Hc.
    rewrite !Z2Nat.id in Hc by assumption.
    pose proof (cover_count_positive rooms r x y Hr Hon).
    destruct (H01 (Z.to_nat y) (Z.to_nat x)); lia.
  - rewrite Forall_forall in Hw. pose proof (Hw r Hr (x, y) Hon) as Hin.
    unfold inside_map in Hin; cbn [fst snd] in Hin.
    unfold excavated; cbn [fst snd]. split; [lia|]. split; [lia|].
    assert (Ht : In (y, x) (flat_map targets corridors)).
    { apply in_flat_map. exists r. split; [exact Hr|apply in_targets; exact Hon]. }
    specialize (Hnew (y, x) Ht). cbn [fst snd] in Hnew. lia.
Qed.

(** C1 (as amended): with room extents that are not negative, every cell
    of every accepted room is reachable from every cell of every
    accepted room by steps between 4-adjacent excavated cells of the
    returned map. *)
Theorem markii_rooms_connected (fuel : nat) (p : MarkII.params) (g g1 : rng)
  (rooms : list rect) (m : grid) :
  0 <= MarkII.room_min_size p ->
  MarkII.place_rooms fuel p [] g = Return (rooms, g1) ->
  MarkII.generate_noise fuel p g = Return m ->
  forall room_a room_b a b,
    In room_a rooms -> In room_b rooms -> on_rect room_a a -> on_rect room_b b ->
    reachable (excavated m) a b.
Proof.
  intros Hmin Hplace H room_a room_b a b Hra Hrb Ha Hb.
  apply generate_noise_inv in H
    as (rooms' & g1' & lk & g2 & colors & corridors & g3 & m1 & H1 & H2 & H3 & H4 & H5).
  rewrite Hplace in H1. injection H1 as <- <-.
  apply place_rooms_placement in Hplace as [Hpl _]; [|apply placement_nil].
  assert (Hin : Forall (fun room => inside_map p (center_of room)) rooms).
  { eapply Forall_impl; [|exact (proj1 Hpl)]. intros room Hroom.
    apply room_center_inside; assumption. }
  destruct (first_pass_spec p rooms lk g1 g2 Hin H2) as [Hok Hcenters].
  destruct (merging_spec p _ colors _ corridors g2 g3 Hok H3) as (Hok' & Hkeep & Hone).
  pose proof (written_map_excavated p rooms corridors m1 m Hpl (proj1 Hok') H4 H5) as Hex.
  assert (Hroom : forall room q, In room rooms -> on_rect room q ->
                    reachable (excavated m) q (center_of room)).
  { intros room q Hr Hq. apply (rect_walk _ room); [|exact Hq|].
    - intros q' Hq'. apply Hex. exists room. split; [apply in_or_app; left; exact Hr|exact Hq'].
    - unfold on_rect, in_rect in Hq. apply center_on_rect; lia. }
  apply (reachable_trans _ a (center_of room_a) b); [apply Hroom; assumption|].
  apply (reachable_trans _ _ (center_of room_b) b);
    [|apply reachable_sym; apply Hroom; assumption].
  destruct (Hkeep _ (Hcenters room_a Hra)) as (ca & Hca & Hina).
  destruct (Hkeep _ (Hcenters room_b Hrb)) as (cb & Hcb & Hinb).
  assert (ca = cb).
  { destruct colors as [|c0 [|c1 rest]]; simpl in Hone; [contradiction| |lia].
    destruct Hca as [<-|[]], Hcb as [<-|[]]. reflexivity. }
  subst cb. destruct Hok' as [_ Hl]. rewrite Forall_forall in Hl.
  apply (reachable_mono (covered corridors)).
  - intros q Hq. apply Hex. destruct Hq as (r & Hr & Hq).
    exists r. split; [apply in_or_app; right; exact Hr|exact Hq].
  - apply (Hl ca Hca); assumption.
Qed.

Lemma markii_rooms_connected_witness :
  reachable
    (excavated
       [[0; 0; 0; 0; 0; 0; 0; 0; 0; 0; 0];
        [0; 1; 1; 0; 0; 0; 0; 0; 0; 0; 0];
        [0; 1; 1; 0; 0; 0; 0; 0; 0; 0; 0];
        [0; 0; 1; 0; 0; 0; 0; 0; 0; 0; 0];
        [0; 0; 1; 0; 0; 1; 1; 0; 0; 0; 0];
        [0; 0; 1; 1; 1; 1; 1; 0; 0; 0; 0];
        [0; 0; 0; 0; 0; 0; 0; 0; 0; 0; 0]])
    (1, 1) (6, 5).
Proof.
  apply (markii_rooms_connected 1 (MarkII.Params 12 8 2 2 2 2)
           [0; 0; 0; 0; 0; 0; 4; 3; 1; 0] [1; 0] [Rect 1 1 2 2; Rect 5 4 2 2] _
           ltac:(simpl; lia) ltac:(vm_compute; reflexivity) ltac:(vm_compute; reflexivity)
           (Rect 1 1 2 2) (Rect 5 4 2 2)).
  - left; reflexivity.
  - right; left; reflexivity.
  - unfold on_rect, in_rect; simpl; lia.
  - unfold on_rect, in_rect; simpl; lia.
Defined.

Lemma reachable_invariant (ok region : point -> Prop) (a b : point) :
  reachable ok a b -> region a ->
  (forall q r, region q -> adjacent q r -> ok r -> region r) -> region b.
Proof.
  intros H Ha Hstep. induction H as [a _|a b c _ IH Hadj Hc]; [exact Ha|].
  apply (Hstep b c); auto.
Qed.

(** C1 (as stated) fails when room extents may be negative: a room of
    width -3 at column 1 has its centerpoint at column -1, the corridors
    drawn to that centerpoint are written through the negative index
    into the last column of the map, and the rooms at (2, 3) and (2, 7),
    both linked to that centerpoint only, are left unconnected. *)
Lemma markii_negative_extent_counterexample :
  exists m,
    MarkII.generate_noise 1 (MarkII.Params 12 10 1 (-3) 3 3)
      [4; 4; 1; 2; 4; 4; 1; 6; 0; 4; 0; 4; 0; 0; 0] = Return m
    /\ MarkII.place_rooms 1 (MarkII.Params 12 10 1 (-3) 3 3) []
         [4; 4; 1; 2; 4; 4; 1; 6; 0; 4; 0; 4; 0; 0; 0]
       = Return ([Rect 2 3 1 1; Rect 2 7 1 1; Rect 1 5 (-3) 1], [0; 0; 0])
    /\ on_rect (Rect 2 3 1 1) (2, 3) /\ on_rect (Rect 2 7 1 1) (2, 7)
    /\ ~ reachable (excavated m) (2, 3) (2, 7).
Proof.
  eexists. split; [vm_compute; reflexivity|]. split; [vm_compute; reflexivity|].
  split; [unfold on_rect, in_rect; simpl; lia|]. split; [unfold on_rect, in_rect; simpl; lia|].
  intro H.
  apply (reachable_invariant _ (fun q => snd q = 3 /\ 0 <= fst q <= 2)) in H.
  - simpl in H. lia.
  - simpl. lia.
  - intros [qx qy] [rx' ry'] [Hy Hx] Hadj (H0x & H0y & Hc).
    unfold adjacent in Hadj. cbn [fst snd] in *. subst qy.
    assert (Hq : qx = 0 \/ qx = 1 \/ qx = 2) by lia.
    assert (Hr : (ry' = 3 /\ 0 <= rx' <= 2)
                 \/ (rx' = 3 /\ ry' = 3)
                 \/ (ry' = 2 /\ (rx' = 0 \/ rx' = 1 \/ rx' = 2))
                 \/ (ry' = 4 /\ (rx' = 0 \/ rx' = 1 \/ rx' = 2))) by lia.
    destruct Hr as [Hr|[[-> ->]|[[-> Hr]|[-> Hr]]]]; [exact Hr| | |].
    + exfalso. vm_compute in Hc. apply Hc; reflexivity.
    + exfalso. destruct Hr as [->|[->| ->]]; vm_compute in Hc; apply Hc; reflexivity.
    + exfalso. destruct Hr as [->|[->| ->]]; vm_compute in Hc; apply Hc; reflexivity.
Qed.



(** ** SimplexNoiseGenerator: the raw noise stays inside (0, 256) *)

Lemma inject_Z_max_l (p q : Z) : (inject_Z p <= inject_Z (Z.max p q))%Q.
Proof. rewrite <- Zle_Qle. apply Z.le_max_l. Qed.

Lemma inject_Z_max_r (p q : Z) : (inject_Z q <= inject_Z (Z.max p q))%Q.
Proof. rewrite <- Zle_Qle. apply Z.le_max_r. Qed.

(** The square of a number between [a] and [b] is at least the square
    of the distance from 0 to the interval. *)
Lemma square_lower (X : Q) (a b : Z) :
  (inject_Z a <= X <= inject_Z b
   \/ inject_Z a <= - X <= inject_Z b)%Q ->
  (inject_Z (Z.max 0 (Z.max a (- b)) * Z.max 0 (Z.max a (- b))) <= X * X)%Q.
Proof.
  intro H.
  assert (G : forall Y : Q, (inject_Z a <= Y <= inject_Z b)%Q ->
                (inject_Z (Z.max 0 (Z.max a (- b)) * Z.max 0 (Z.max a (- b))) <= Y * Y)%Q).
  { intros Y [Ha Hb]. rewrite inject_Z_mult.
    destruct (Z.max_spec 0 (Z.max a (- b))) as [[H0 ->]|[H0 ->]].
    - destruct (Z.max_spec a (- b)) as [[H1 E]|[H1 E]]; rewrite E in H0 |- *.
      + rewrite inject_Z_opp.
        assert (Hb0 : (inject_Z b < 0)%Q).
        { change 0%Q with (inject_Z 0). rewrite <- Zlt_Qlt. lia. }
        nra.
      + assert (Ha0 : (0 < inject_Z a)%Q).
        { change 0%Q with (inject_Z 0). rewrite <- Zlt_Qlt. lia. }
        nra.
    - change (inject_Z 0) with 0%Q. nra. }
  destruct H as [H|H]; [exact (G X H)|].
  setoid_replace (X * X)%Q with (- X * - X)%Q by ring. exact (G (- X)%Q H).
Qed.

(** Its absolute value is at most the larger end of the interval. *)
Lemma magnitude_upper (X : Q) (a b : Z) :
  (inject_Z a <= X <= inject_Z b
   \/ inject_Z a <= - X <= inject_Z b)%Q ->
  (- inject_Z (Z.max (- a) b) <= X <= inject_Z (Z.max (- a) b))%Q.
Proof.
  intro H.
  pose proof (inject_Z_max_l (- a) b) as H1. rewrite inject_Z_opp in H1.
  pose proof (inject_Z_max_r (- a) b) as H2.
  destruct H as [[Ha Hb]|[Ha Hb]]; split; lra.
Qed.

Lemma dot_bound (g : Z * Z * Z) (dx dy M : Q) :
  In g Simplex.grad3 ->
  (- M <= 65536 * (dx + dy) <= M)%Q -> (- M <= 65536 * (dx - dy) <= M)%Q ->
  (- M <= 65536 * Simplex.twodee_dot_product g dx dy <= M)%Q.
Proof.
  intros Hg HU HV. unfold Simplex.grad3 in Hg. cbn [In] in Hg.
  repeat (destruct Hg as [<-|Hg];
          [unfold Simplex.twodee_dot_product, inject_Z; split; lra|]).
  contradiction.
Qed.

Lemma kernel_bound_nonneg (a b c d : Z) :
  0 <= Z.max (Z.max (- a) b) (Z.max (- c) d) -> 0 <= kernel_bound a b c d.
Proof.
  intro H. unfold kernel_bound. cbv zeta.
  destruct (_ <=? 0) eqn:E; [lia|]. apply Z.leb_gt in E.
  apply Z.mul_nonneg_nonneg; [|exact H].
  apply Z.mul_nonneg_nonneg; nia.
Qed.

Lemma fourth_power_le (s T : Q) : (0 <= s <= T -> s * s * (s * s) <= T * T * (T * T))%Q.
Proof.
  intro H.
  assert (H2 : (0 <= s * s <= T * T)%Q) by nra.
  nra.
Qed.

(** The contribution of one corner, against its bound. *)
Lemma kernel_bound_sound (g : Z * Z * Z) (dx dy : Q) (a b c d : Z) :
  In g Simplex.grad3 ->
  (inject_Z a <= inject_Z grain * (dx + dy) <= inject_Z b)%Q ->
  (inject_Z c <= inject_Z grain * (dx - dy) <= inject_Z d
   \/ inject_Z c <= - (inject_Z grain * (dx - dy)) <= inject_Z d)%Q ->
  (- inject_Z (kernel_bound a b c d)
   <= inject_Z box_limit * Simplex.corner_contribution g dx dy
   <= inject_Z (kernel_bound a b c d))%Q.
Proof.
  intros Hg HU HV.
  change (inject_Z grain) with 65536%Q in *.
  set (U := (65536 * (dx + dy))%Q) in *.
  set (V := (65536 * (dx - dy))%Q) in *.
  pose proof (square_lower U a b (or_introl HU)) as HU2.
  pose proof (square_lower V c d HV) as HV2.
  pose proof (magnitude_upper U a b (or_introl HU)) as HUm.
  pose proof (magnitude_upper V c d HV) as HVm.
  set (mu := Z.max 0 (Z.max a (- b))) in *.
  set (mv := Z.max 0 (Z.max c (- d))) in *.
  set (Mu := Z.max (- a) b) in *.
  set (Mv := Z.max (- c) d) in *.
  pose proof (inject_Z_max_l Mu Mv) as HM1.
  pose proof (inject_Z_max_r Mu Mv) as HM2.
  assert (HM0 : 0 <= Z.max Mu Mv).
  { rewrite Zle_Qle. change (inject_Z 0) with 0%Q. lra. }
  pose proof (kernel_bound_nonneg a b c d HM0) as HK0.
  rewrite Zle_Qle in HK0. change (inject_Z 0) with 0%Q in HK0.
  assert (Hdot : (- inject_Z (Z.max Mu Mv)
                  <= 65536 * Simplex.twodee_dot_product g dx dy
                  <= inject_Z (Z.max Mu Mv))%Q).
  { apply dot_bound; [exact Hg| |]; fold U; fold V; lra. }
  unfold Simplex.corner_contribution. cbv zeta.
  set (t := ((1 # 2) - dx * dx - dy * dy)%Q).
  set (w := (65536 * Simplex.twodee_dot_product g dx dy)%Q) in *.
  destruct (Qlt_le_dec t 0) as [Ht|Ht].
  - setoid_replace (inject_Z box_limit * 0)%Q with 0%Q by ring. lra.
  - set (s := (65536 * 65536 * 2 * t)%Q).
    assert (Hs : (s == 65536 * 65536 - U * U - V * V)%Q).
    { unfold s, t, U, V. ring. }
    assert (HT : (s <= inject_Z (grain * grain - mu * mu - mv * mv))%Q).
    { unfold Z.sub. rewrite !inject_Z_plus, !inject_Z_opp.
      change (inject_Z (grain * grain)) with (65536 * 65536)%Q. lra. }
    assert (Hs0 : (0 <= s)%Q) by (unfold s; lra).
    assert (Hprod : (inject_Z box_limit * (t * t * (t * t) * Simplex.twodee_dot_product g dx dy)
                     == s * s * (s * s) * w)%Q).
    { unfold s, w, box_limit. ring. }
    rewrite Hprod.
    unfold kernel_bound. cbv zeta. fold mu mv Mu Mv.
    set (T := grain * grain - mu * mu - mv * mv) in *.
    destruct (T <=? 0) eqn:E.
    + apply Z.leb_le in E. rewrite Zle_Qle in E. change (inject_Z 0) with 0%Q in E.
      assert (Hz : (s == 0)%Q) by lra. rewrite Hz.
      setoid_replace (0 * 0 * (0 * 0) * w)%Q with 0%Q by ring.
      change (inject_Z 0) with 0%Q. lra.
    + rewrite !inject_Z_mult.
      pose proof (fourth_power_le s (inject_Z T) (conj Hs0 HT)) as H4.
      assert (H40 : (0 <= s * s * (s * s))%Q) by nra.
      nra.
Qed.

Ltac grains :=
  unfold Z.sub, corner_one_lo, corner_one_hi, corner_two_lo, corner_two_hi, Simplex.G2 in *;
  rewrite ?inject_Z_plus, ?inject_Z_opp in *;
  change (inject_Z grain) with 65536%Q in *;
  change (inject_Z 37837) with 37837%Q in *; change (inject_Z 37838) with 37838%Q in *;
  change (inject_Z 75674) with 75674%Q in *; change (inject_Z 75675) with 75675%Q in *;
  change (inject_Z 1) with 1%Q in *; change (inject_Z 0) with 0%Q in *.

(** The three corners of a box, against the bound of the box. *)
Lemma box_bound_sound (g0 g1 g2 : Z * Z * Z) (x y : Q) (ul vl hu hv : Z) :
  In g0 Simplex.grad3 -> In g1 Simplex.grad3 -> In g2 Simplex.grad3 ->
  in_box ul vl hu hv x y ->
  (- inject_Z (box_bound ul vl hu hv)
   <= inject_Z box_limit * corner_sum g0 g1 g2 x y
   <= inject_Z (box_bound ul vl hu hv))%Q.
Proof.
  intros H0 H1 H2 [Hu Hv]. unfold box_bound. rewrite !inject_Z_plus.
  unfold corner_sum.
  destruct (Qlt_le_dec y x) as [Hlt|Hle].
  - destruct Hv as [[_ Hv]|[Hge _]]; [|lra].
    assert (B0 := kernel_bound_sound g0 x y ul (ul + hu) vl (vl + hv) H0
                    ltac:(grains; lra) ltac:(left; grains; lra)).
    assert (B1 := kernel_bound_sound g1 (x - inject_Z 1 + Simplex.G2)
                    (y - inject_Z 0 + Simplex.G2)
                    (ul - corner_one_hi) (ul + hu - corner_one_lo)
                    (vl - grain) (vl + hv - grain) H1
                    ltac:(grains; lra) ltac:(left; grains; lra)).
    assert (B2 := kernel_bound_sound g2 (x - 1 + 2 * Simplex.G2) (y - 1 + 2 * Simplex.G2)
                    (ul - corner_two_hi) (ul + hu - corner_two_lo) vl (vl + hv) H2
                    ltac:(grains; lra) ltac:(left; grains; lra)).
    lra.
  - destruct Hv as [[Hgt _]|[_ Hv]]; [lra|].
    assert (B0 := kernel_bound_sound g0 x y ul (ul + hu) vl (vl + hv) H0
                    ltac:(grains; lra) ltac:(right; grains; lra)).
    assert (B1 := kernel_bound_sound g1 (x - inject_Z 0 + Simplex.G2)
                    (y - inject_Z 1 + Simplex.G2)
                    (ul - corner_one_hi) (ul + hu - corner_one_lo)
                    (vl - grain) (vl + hv - grain) H1
                    ltac:(grains; lra) ltac:(right; grains; lra)).
    assert (B2 := kernel_bound_sound g2 (x - 1 + 2 * Simplex.G2) (y - 1 + 2 * Simplex.G2)
                    (ul - corner_two_hi) (ul + hu - corner_two_lo) vl (vl + hv) H2
                    ltac:(grains; lra) ltac:(right; grains; lra)).
    lra.
Qed.

(** Boxes that pass hold no offsets at which the three contributions,
    times 70, reach 1 or -1. *)
Lemma boxes_pass_sound (fuel : nat) (g0 g1 g2 : Z * Z * Z) (x y : Q) (ul vl hu hv : Z) :
  In g0 Simplex.grad3 -> In g1 Simplex.grad3 -> In g2 Simplex.grad3 ->
  boxes_pass fuel ul vl hu hv = true -> in_box ul vl hu hv x y ->
  (-1 < 70 * corner_sum g0 g1 g2 x y < 1)%Q.
Proof.
  intros H0 H1 H2. revert ul vl hu hv.
  assert (Leaf : forall ul vl hu hv,
             (70 * box_bound ul vl hu hv <? box_limit) = true ->
             in_box ul vl hu hv x y -> (-1 < 70 * corner_sum g0 g1 g2 x y < 1)%Q).
  { intros ul vl hu hv E Hin. apply Z.ltb_lt in E. rewrite Zlt_Qlt in E.
    rewrite inject_Z_mult in E. change (inject_Z 70) with 70%Q in E.
    pose proof (box_bound_sound g0 g1 g2 x y ul vl hu hv H0 H1 H2 Hin) as B.
    unfold box_limit, inject_Z in *. lra. }
  induction fuel as [|fuel IH]; intros ul vl hu hv Hpass Hin; cbn [boxes_pass] in Hpass.
  - destruct (70 * box_bound ul vl hu hv <? box_limit) eqn:E; [|discriminate].
    exact (Leaf ul vl hu hv E Hin).
  - destruct (70 * box_bound ul vl hu hv <? box_limit) eqn:E;
      [exact (Leaf ul vl hu hv E Hin)|].
    destruct Hin as [Hu Hv].
    destruct (hv <=? 4 * hu).
    + apply andb_true_iff in Hpass as [Hpass Hr].
      apply andb_true_iff in Hpass as [Heven Hl].
      apply Z.even_spec in Heven. destruct Heven as [k Hk].
      assert (Ek : hu / 2 = k) by (subst hu; rewrite Z.mul_comm; apply Z.div_mul; lia).
      rewrite Ek in Hl, Hr.
      destruct (Qlt_le_dec (inject_Z grain * (x + y)) (inject_Z (ul + k))) as [Hlow|Hhigh].
      * apply (IH ul vl k hv Hl). split; [|exact Hv]. lra.
      * apply (IH (ul + k) vl k hv Hr). split; [|exact Hv].
        replace (ul + k + k) with (ul + hu) by lia. lra.
    + apply andb_true_iff in Hpass as [Hpass Hr].
      apply andb_true_iff in Hpass as [Heven Hl].
      apply Z.even_spec in Heven. destruct Heven as [k Hk].
      assert (Ek : hv / 2 = k) by (subst hv; rewrite Z.mul_comm; apply Z.div_mul; lia).
      rewrite Ek in Hl, Hr.
      destruct Hv as [[Hlt Hv]|[Hle Hv]].
      * destruct (Qlt_le_dec (inject_Z grain * (x - y)) (inject_Z (vl + k))) as [Hlow|Hhigh].
        -- apply (IH ul vl hu k Hl). split; [exact Hu|]. left. split; [exact Hlt|lra].
        -- apply (IH ul (vl + k) hu k Hr). split; [exact Hu|]. left. split; [exact Hlt|].
           replace (vl + k + k) with (vl + hv) by lia. lra.
      * destruct (Qlt_le_dec (inject_Z grain * (y - x)) (inject_Z (vl + k))) as [Hlow|Hhigh].
        -- apply (IH ul vl hu k Hl). split; [exact Hu|]. right. split; [exact Hle|lra].
        -- apply (IH ul (vl + k) hu k Hr). split; [exact Hu|]. right. split; [exact Hle|].
           replace (vl + k + k) with (vl + hv) by lia. lra.
Qed.

(** The boxes that cover every offset at which a corner contributes. *)
Lemma boxes_checked : boxes_pass 40 (- grain) 0 (4 * grain) (2 * grain) = true.
Proof. vm_compute. reflexivity. Qed.

Lemma square_nonneg (a : Q) : (0 <= a * a)%Q.
Proof. destruct (Qlt_le_dec a 0); nra. Qed.

Lemma square_above_one (a : Q) : (a < -1 \/ 1 < a)%Q -> (1 < a * a)%Q.
Proof. intros [H|H]; nra. Qed.

(** Beyond distance [sqrt (1/2)] a corner contributes nothing. *)
Lemma corner_contribution_far (g : Z * Z * Z) (dx dy : Q) :
  (dx + dy < -1 \/ 1 < dx + dy \/ dx - dy < -1 \/ 1 < dx - dy)%Q ->
  Simplex.corner_contribution g dx dy = 0%Q.
Proof.
  intro H. unfold Simplex.corner_contribution. cbv zeta.
  destruct (Qlt_le_dec _ 0) as [Ht|Ht]; [reflexivity|exfalso].
  assert (Hsum : (1 < (dx + dy) * (dx + dy) + (dx - dy) * (dx - dy))%Q).
  { pose proof (square_nonneg (dx + dy)) as A.
    pose proof (square_nonneg (dx - dy)) as B.
    destruct H as [H|[H|[H|H]]].
    - pose proof (square_above_one (dx + dy) (or_introl H)). lra.
    - pose proof (square_above_one (dx + dy) (or_intror H)). lra.
    - pose proof (square_above_one (dx - dy) (or_introl H)). lra.
    - pose proof (square_above_one (dx - dy) (or_intror H)). lra. }
  assert (E : ((dx + dy) * (dx + dy) + (dx - dy) * (dx - dy)
               == 2 * (dx * dx) + 2 * (dy * dy))%Q) by ring.
  rewrite E in Hsum. lra.
Qed.

(** The sum of the three contributions, times 70, lies strictly between
    -1 and 1, wherever the point lies and whatever gradients the three
    corners are given. *)
Lemma corner_sum_bounded (g0 g1 g2 : Z * Z * Z) (x y : Q) :
  In g0 Simplex.grad3 -> In g1 Simplex.grad3 -> In g2 Simplex.grad3 ->
  (-1 < 70 * corner_sum g0 g1 g2 x y < 1)%Q.
Proof.
  intros H0 H1 H2.
  assert (Far : (x + y < -1 \/ 3 < x + y \/ 2 < x - y \/ 2 < y - x)%Q ->
                (-1 < 70 * corner_sum g0 g1 g2 x y < 1)%Q).
  { intro H. unfold corner_sum.
    destruct (Qlt_le_dec y x) as [Hlt|Hle];
      rewrite (corner_contribution_far g0 x y),
        (corner_contribution_far g1), (corner_contribution_far g2);
      try (split; lra);
      unfold Simplex.G2; change (inject_Z 1) with 1%Q; change (inject_Z 0) with 0%Q;
      destruct H as [H|[H|[H|H]]]; lra. }
  destruct (Qlt_le_dec (x + y) (-1)) as [A|A]; [apply Far; lra|].
  destruct (Qlt_le_dec 3 (x + y)) as [B|B]; [apply Far; lra|].
  destruct (Qlt_le_dec 2 (x - y)) as [C|C]; [apply Far; lra|].
  destruct (Qlt_le_dec 2 (y - x)) as [D|D]; [apply Far; lra|].
  apply (boxes_pass_sound 40 g0 g1 g2 x y (- grain) 0 (4 * grain) (2 * grain) H0 H1 H2
           boxes_checked).
  unfold in_box.
  change (inject_Z grain) with 65536%Q.
  change (inject_Z (- grain)) with (-65536)%Q.
  change (inject_Z (- grain + 4 * grain)) with 196608%Q.
  change (inject_Z 0) with 0%Q.
  change (inject_Z (0 + 2 * grain)) with 131072%Q.
  split; [lra|].
  destruct (Qlt_le_dec y x) as [Hlt|Hle]; [left|right]; split; try assumption; lra.
Qed.

Lemma py_get_member {A : Type} (l : list A) (i : Z) (a : A) :
  py_get l i = Return a -> In a l.
Proof.
  unfold py_get. destruct (py_index l i) as [k|]; [|discriminate].
  destruct (nth_error l k) as [b|] eqn:E; [|discriminate].
  intro H. inversion H; subst. exact (nth_error_In l k E).
Qed.

(** The raw noise lies strictly between 0 and 256. *)
Lemma raw_noise_in_range (gen : Simplex.generator) (x y v : Q) :
  Simplex.generate_raw_unoctaved_noise gen x y = Return v -> (0 < v < 256)%Q.
Proof.
  unfold Simplex.generate_raw_unoctaved_noise. cbv zeta.
  set (x0 := (x - _)%Q). set (y0 := (y - _)%Q).
  intro H.
  assert (B : forall g0 g1 g2, In g0 Simplex.grad3 -> In g1 Simplex.grad3 ->
                In g2 Simplex.grad3 -> (-1 < 70 * corner_sum g0 g1 g2 x0 y0 < 1)%Q).
  { intros g0 g1 g2. apply corner_sum_bounded. }
  unfold corner_sum in B.
  destruct (Qlt_le_dec y0 x0) as [Hlt|Hle];
    (destruct (Simplex.hash_number gen) as [hash|]; [|discriminate]);
    apply bind_Return_inv in H as (k0 & _ & H);
    apply bind_Return_inv in H as (k1 & _ & H);
    apply bind_Return_inv in H as (k2 & _ & H);
    apply bind_Return_inv in H as (g0 & G0 & H);
    apply bind_Return_inv in H as (g1 & G1 & H);
    apply bind_Return_inv in H as (g2 & G2 & H);
    apply py_get_member in G0, G1, G2;
    specialize (B g0 g1 g2 G0 G1 G2);
    injection H as <-; lra.
Qed.

(** The octaves are averaged with positive weights, so the average
    stays where the raw values are. *)
Lemma octaved_noise_in_range (gen : Simplex.generator) (x y scale : Q) (octaves : Z)
  (persistence v : Q) :
  (0 < persistence)%Q ->
  Simplex.generate_octaved_noise gen x y scale octaves persistence = Return v ->
  (0 <= v /\ v < 256)%Q.
Proof.
  intros Hper H. unfold Simplex.generate_octaved_noise in H.
  apply bind_Return_inv in H as ([[[total frequency] amplitude] max_amplitude] & Hloop & H).
  assert (G : (0 < amplitude)%Q
              /\ ((max_amplitude == 0 /\ total == 0)%Q
                  \/ (0 < max_amplitude /\ 0 < total /\ total < 256 * max_amplitude)%Q)).
  { apply (for_each_invariant
             (fun acc : Q * Q * Q * Q =>
                let '(t, _, a, m) := acc in
                (0 < a)%Q /\ ((m == 0 /\ t == 0)%Q \/ (0 < m /\ 0 < t /\ t < 256 * m)%Q))
             (py_range 0 octaves) (Simplex.octave_step gen x y persistence)
             (0%Q, scale, 1%Q, 0%Q) (total, frequency, amplitude, max_amplitude));
      [| |exact Hloop].
    - intros k [[[t f] a] m] [[[t' f'] a'] m'] _ [Ha Hm] Hstep.
      unfold Simplex.octave_step in Hstep.
      apply bind_Return_inv in Hstep as (raw & Hraw & Hstep).
      apply raw_noise_in_range in Hraw.
      injection Hstep as <- _ <- <-.
      assert (Hra : (0 < raw * a /\ raw * a < 256 * a)%Q) by nra.
      split; [nra|]. right.
      destruct Hm as [[Hm Ht]|Hm]; lra.
    - split; [lra|left; split; reflexivity]. }
  destruct G as [_ G].
  destruct (Qeq_bool max_amplitude 0) eqn:E; [discriminate|].
  injection H as <-.
  destruct G as [[Hm _]|(Hm & Ht & Htm)].
  - apply Qeq_bool_neq in E. contradiction.
  - split.
    + apply Qle_shift_div_l; [exact Hm|lra].
    + apply Qlt_shift_div_r; [exact Hm|exact Htm].
Qed.

(** C6: every cell of a grid returned by
    SimplexNoiseGenerator.generate_noise lies in [0, 256), for every
    generator state, grid size, scale and sequence of random draws, once
    the persistence is positive.  A cell is an average, with positive
    weights, of raw values [(70 * (n0 + n1 + n2) + 1) * 128], and the
    sum of the three corner contributions, times 70, stays strictly
    between -1 and 1 everywhere on the plane and for every choice of
    gradients. *)
Theorem simplex_cells_in_range (gen : Simplex.generator) (supplied_x supplied_y : Z)
  (scale : Q) (octaves : Z) (persistence : Q) (g : rng)
  (m : list (list Q)) (gen' : Simplex.generator) :
  1 <= octaves -> (0 < persistence)%Q -> (persistence <= 1)%Q ->
  Simplex.generate_noise gen supplied_x supplied_y scale octaves persistence g
  = Return (m, gen') ->
  field_within 0 256 m.
Proof.
  intros _ Hper _ H. unfold Simplex.generate_noise in H.
  apply bind_Return_inv in H as ([gen1 g1] & _ & H).
  apply bind_Return_inv in H as (arr & Hrows & H). injection H as <- _.
  refine (for_each_invariant (field_within 0 256) _ _ _ _ _ _ Hrows); [|constructor].
  intros each_y rows rows' _ Hfield Hrow.
  apply bind_Return_inv in Hrow as (new_row & Hcells & Hrow). injection Hrow as <-.
  apply Forall_app. split; [exact Hfield|]. constructor; [|constructor].
  refine (for_each_invariant (Forall (fun v => 0 <= v /\ v < 256)%Q) _ _ _ _ _ _ Hcells);
    [|constructor].
  intros each_x row row' _ Hr Hcell.
  apply bind_Return_inv in Hcell as (z & Hz & Hcell). injection Hcell as <-.
  apply Forall_app. split; [exact Hr|]. constructor; [|constructor].
  exact (octaved_noise_in_range gen1 _ _ scale octaves persistence z Hper Hz).
Qed.

Lemma simplex_cells_in_range_witness :
  exists m gen',
    Simplex.generate_noise (Simplex.Generator Simplex.initial_noise_array_seed [] (Some 255) [])
      2 1 (1 # 3) 1 (1 # 2) [7; 7; 7]
    = Return (m, gen')
    /\ field_within 0 256 m.
Proof.
  destruct (Simplex.generate_noise
              (Simplex.Generator Simplex.initial_noise_array_seed [] (Some 255) [])
              2 1 (1 # 3) 1 (1 # 2) [7; 7; 7]) as [[m gen']| |] eqn:E.
  - exists m, gen'. split; [reflexivity|].
    apply (simplex_cells_in_range
             (Simplex.Generator Simplex.initial_noise_array_seed [] (Some 255) [])
             2 1 (1 # 3) 1 (1 # 2) [7; 7; 7] m gen'); [lia|reflexivity| |exact E].
    unfold Qle; simpl; lia.
  - vm_compute in E. discriminate.
  - vm_compute in E. discriminate.
Defined.

(** * Part III: further properties of the code *)

(** ** The rectangle test and the corridors *)

(** X1: [check_these_two_rectangles_for_intersection] misses no overlap:
    two rectangles that share a cell are reported as intersecting,
    whichever of them is passed first. *)
Theorem intersection_check_detects_shared_cell (a b : rect) (col row : Z) :
  in_rect a col row -> in_rect b col row ->
  check_these_two_rectangles_for_intersection a b = true
  /\ check_these_two_rectangles_for_intersection b a = true.
Proof.
  intros Ha Hb. split; apply (intersection_check_complete _ _ col row); assumption.
Qed.

Lemma intersection_check_detects_shared_cell_witness :
  check_these_two_rectangles_for_intersection (Rect 2 2 6 6) (Rect 4 4 2 2) = true
  /\ check_these_two_rectangles_for_intersection (Rect 4 4 2 2) (Rect 2 2 6 6) = true.
Proof.
  apply (intersection_check_detects_shared_cell (Rect 2 2 6 6) (Rect 4 4 2 2) 4 4);
    unfold in_rect; simpl; lia.
Defined.

(** X2: the test also reports rectangles that are far apart.  Its second
    condition compares [old_x] with itself, so it holds as soon as the
    second rectangle starts at or left of the first one's right edge and
    has its top edge within the first one's rows -- however far to the
    left the second rectangle lies.  The answer then depends on the order
    of the arguments. *)
Theorem intersection_check_reports_distant (a b : rect) :
  rx b <= rx a + rw a -> ry a <= ry b <= ry a + rh a ->
  check_these_two_rectangles_for_intersection a b = true.
Proof.
  unfold check_these_two_rectangles_for_intersection.
  destruct a as [ax ay aw ah], b as [bx by_ bw bh]; simpl.
  intros Hx Hy.
  rewrite !Z.geb_leb, !Z.gtb_ltb.
  rewrite !orb_true_iff, !andb_true_iff, !Z.leb_le, !Z.ltb_lt.
  lia.
Qed.

Lemma intersection_check_reports_distant_witness :
  check_these_two_rectangles_for_intersection (Rect 50 5 3 3) (Rect 1 6 2 2) = true
  /\ check_these_two_rectangles_for_intersection (Rect 1 6 2 2) (Rect 50 5 3 3) = false
  /\ apart (Rect 50 5 3 3) (Rect 1 6 2 2).
Proof.
  split; [|split].
  - apply (intersection_check_reports_distant (Rect 50 5 3 3) (Rect 1 6 2 2)); simpl; lia.
  - reflexivity.
  - intros col row. unfold in_rect; simpl. lia.
Defined.

(** X3: [define_corridor] answers with a strip one cell wide whose cells
    are exactly those between the two end coordinates, in either
    direction: along row [y] for a horizontal corridor, along column [x]
    for a vertical one.  The other coordinate of the far end is ignored. *)
Theorem define_corridor_cells (x y x2 y2 : Z) (q : point) :
  (on_rect (define_corridor horizontal x y x2 y2) q
   <-> snd q = y /\ Z.min x x2 <= fst q <= Z.max x x2)
  /\ (on_rect (define_corridor vertical x y x2 y2) q
      <-> fst q = x /\ Z.min y y2 <= snd q <= Z.max y y2).
Proof.
  split; [apply on_horizontal_corridor|apply on_vertical_corridor].
Qed.

(** X4: the two corridors of a link form a connected L: a walk inside
    the corridors leads from one centerpoint to the other, whichever
    direction was drawn first, and both corridors' own centerpoints lie
    on that connected shape. *)
Theorem link_corridors_connect (d : Z) (alpha beta : point) :
  let h := fst (link_corridors d alpha beta) in
  let v := snd (link_corridors d alpha beta) in
  reachable (covered [h; v]) alpha beta
  /\ reachable (covered [h; v]) alpha (center_of h)
  /\ reachable (covered [h; v]) alpha (center_of v).
Proof.
  intros h v. pose proof (link_corridors_linked d alpha beta) as H.
  fold h v in H. split; [|split]; apply H; simpl; auto.
Qed.

(** ** Room placement of MarkIIDungeonMapGenerator *)

Lemma room_attempt_sizes (p : MarkII.params) (k : Z) (rooms rooms' : list rect) (g g' : rng) :
  Forall (fun r => rw r <= MarkII.room_max_size p /\ rh r <= MarkII.room_max_size p) rooms ->
  MarkII.room_attempt p k (rooms, g) = Return (rooms', g') ->
  Forall (fun r => rw r <= MarkII.room_max_size p /\ rh r <= MarkII.room_max_size p) rooms'
  /\ (length rooms' <= S (length rooms))%nat.
Proof.
  intros Hs H. unfold MarkII.room_attempt in H.
  apply bind_Return_inv in H as ([w g1] & Hw & H).
  apply bind_Return_inv in H as ([h g2] & Hh & H).
  apply bind_Return_inv in H as ([x g3] & _ & H).
  apply bind_Return_inv in H as ([y g4] & _ & H).
  apply randint_range in Hw, Hh.
  destruct (passes_intersection_test (Rect x y w h) rooms);
    inversion H; subst; clear H.
  - split; [|rewrite length_app; simpl; lia].
    apply Forall_app; split; [exact Hs|]. constructor; [simpl; lia|constructor].
  - split; [exact Hs|lia].
Qed.

Lemma room_attempts_sizes (p : MarkII.params) (l : list Z) (rooms rooms' : list rect)
  (g g' : rng) :
  Forall (fun r => rw r <= MarkII.room_max_size p /\ rh r <= MarkII.room_max_size p) rooms ->
  for_each l (MarkII.room_attempt p) (rooms, g) = Return (rooms', g') ->
  Forall (fun r => rw r <= MarkII.room_max_size p /\ rh r <= MarkII.room_max_size p) rooms'
  /\ (length rooms' <= length l + length rooms)%nat.
Proof.
  intros Hs H.
  pose (P := fun (n : nat) (st : list rect * rng) =>
               Forall (fun r => rw r <= MarkII.room_max_size p /\ rh r <= MarkII.room_max_size p)
                 (fst st)
               /\ (length (fst st) <= n + length rooms)%nat).
  assert (G : P (length l) (rooms', g')).
  { apply (for_each_counted P l (MarkII.room_attempt p) (rooms, g)); [| |exact H].
    - split; [exact Hs|simpl; lia].
    - intros n a [r1 g1] [r2 g2] _ [A1 A2] Hstep. unfold P; cbn [fst] in *.
      destruct (room_attempt_sizes p a r1 r2 g1 g2 A1 Hstep) as [B1 B2].
      split; [exact B1|lia]. }
  exact G.
Qed.

Lemma place_rooms_sizes (fuel : nat) (p : MarkII.params) (rooms rooms' : list rect)
  (g g' : rng) :
  Forall (fun r => rw r <= MarkII.room_max_size p /\ rh r <= MarkII.room_max_size p) rooms ->
  (rooms = [] \/ MarkII.room_min_count p <= len rooms <= Z.max 0 (MarkII.room_max_count p)) ->
  MarkII.place_rooms fuel p rooms g = Return (rooms', g') ->
  Forall (fun r => rw r <= MarkII.room_max_size p /\ rh r <= MarkII.room_max_size p) rooms'
  /\ len rooms' <= Z.max 0 (MarkII.room_max_count p).
Proof.
  revert rooms g; induction fuel as [|fuel IH]; intros rooms g Hs Hc H; simpl in H.
  - destruct (len rooms <? MarkII.room_min_count p) eqn:E; [discriminate|].
    inversion H; subst. split; [exact Hs|].
    destruct Hc as [->|Hc]; [unfold len; simpl; lia|lia].
  - destruct (len rooms <? MarkII.room_min_count p) eqn:E.
    + apply Z.ltb_lt in E.
      destruct Hc as [->|Hc]; [|lia].
      apply bind_Return_inv in H as ([r1 g1] & H1 & H2).
      apply room_attempts_sizes in H1 as [S1 S2]; [|constructor].
      rewrite length_py_range in S2. simpl in S2.
      destruct (len r1 <? MarkII.room_min_count p) eqn:E1.
      * apply (IH [] g1); [constructor|left; reflexivity|exact H2].
      * apply (IH r1 g1); [exact S1| |exact H2].
        right. apply Z.ltb_ge in E1. unfold len in *. lia.
    + inversion H; subst. split; [exact Hs|].
      destruct Hc as [->|Hc]; [unfold len; simpl; lia|lia].
Qed.

(** X5: what the placement loop hands on.  The rooms it keeps share no
    cell, each starts at column and row 1 or beyond and ends before the
    last usable column and row, each extent was drawn between
    [room_min_size] and [room_max_size], and their number is at least
    [room_min_count] and at most [room_max_count] (or 0). *)
Theorem markii_placed_rooms (fuel : nat) (p : MarkII.params) (g g' : rng) (rooms : list rect) :
  MarkII.place_rooms fuel p [] g = Return (rooms, g') ->
  ForallOrdPairs apart rooms
  /\ Forall (fun r =>
               1 <= rx r /\ rx r + rw r <= MarkII.supplied_map_width p - 2
               /\ 1 <= ry r /\ ry r + rh r <= MarkII.supplied_map_height p - 2
               /\ MarkII.room_min_size p <= rw r <= MarkII.room_max_size p
               /\ MarkII.room_min_size p <= rh r <= MarkII.room_max_size p) rooms
  /\ MarkII.room_min_count p <= len rooms <= Z.max 0 (MarkII.room_max_count p).
Proof.
  intro H.
  destruct (place_rooms_placement fuel p [] rooms g g' (placement_nil p) H) as [[Hwp Hap] Hmin].
  destruct (place_rooms_sizes fuel p [] rooms g g' (Forall_nil _) (or_introl eq_refl) H)
    as [Hs Hmax].
  split; [exact Hap|]. split; [|lia].
  rewrite Forall_forall in *. intros r Hr.
  specialize (Hwp r Hr). specialize (Hs r Hr).
  unfold well_placed, MarkII.map_width, MarkII.map_height in Hwp. lia.
Qed.

Lemma markii_placed_rooms_witness :
  ForallOrdPairs apart [Rect 1 1 2 2; Rect 5 4 2 2]
  /\ Forall (fun r =>
               1 <= rx r /\ rx r + rw r <= 12 - 2
               /\ 1 <= ry r /\ ry r + rh r <= 8 - 2
               /\ 2 <= rw r <= 2 /\ 2 <= rh r <= 2) [Rect 1 1 2 2; Rect 5 4 2 2]
  /\ 2 <= len [Rect 1 1 2 2; Rect 5 4 2 2] <= Z.max 0 2.
Proof.
  apply (markii_placed_rooms 1 (MarkII.Params 12 8 2 2 2 2) [0; 0; 0; 0; 0; 0; 4; 3; 1; 0] [1; 0]).
  vm_compute. reflexivity.
Defined.

(** ** The map written by MarkIIDungeonMapGenerator *)

Lemma cover_count_covered (rooms : list rect) (col row : Z) :
  cover_count rooms col row <> 0 -> exists room, In room rooms /\ in_rect room col row.
Proof.
  induction rooms as [|a l IH]; simpl; [intro H; contradiction H; reflexivity|].
  destruct (in_rectb a col row) eqn:E.
  - intros _. exists a. split; [left; reflexivity|apply in_rectb_iff; exact E].
  - intro H. destruct IH as (room & Hr & Hin); [lia|].
    exists room. split; [right; exact Hr|exact Hin].
Qed.

(** A guarded write excavates the visited cell at most. *)
Lemma carves_only_targets (ts : list (Z * Z)) (m m' : grid) :
  Forall (fun t => 0 <= fst t /\ 0 <= snd t) ts ->
  for_each ts visit_carve m = Return m' ->
  forall r c, cell m' r c <> 0 -> cell m r c <> 0 \/ In (Z.of_nat r, Z.of_nat c) ts.
Proof.
  revert m; induction ts as [|t ts IH]; intros m Hnn H r c Hrc; cbn [for_each] in H.
  - inversion H; subst. left; exact Hrc.
  - apply bind_Return_inv in H as (m1 & H1 & H2).
    apply Forall_cons_iff in Hnn as [[Hr Hc] Hnn].
    destruct (IH m1 Hnn H2 r c Hrc) as [Hm1|Hin]; [|right; right; exact Hin].
    unfold visit_carve in H1.
    apply carve_if_uncarved_inv in H1 as (kr & kc & Hkr & Hkc & Hcase).
    apply py_index_nonneg in Hkr; [|exact Hr]. apply py_index_nonneg in Hkc; [|exact Hc].
    destruct Hcase as [[_ ->]|[_ Hset]]; [left; exact Hm1|].
    rewrite Hset in Hm1.
    destruct (Nat.eqb r kr && Nat.eqb c kc)%bool eqn:E; [|left; exact Hm1].
    apply andb_true_iff in E as [E1 E2]. apply Nat.eqb_eq in E1, E2. subst.
    right; left. destruct t as [tr tc]; cbn [fst snd] in *. f_equal; lia.
Qed.

(** Every excavated cell of the returned map is a cell of a room or of
    a corridor. *)
Lemma written_map_covered (p : MarkII.params) (rooms corridors : list rect) (m1 m : grid) :
  Forall (well_placed p) rooms -> Forall (within_map p) corridors ->
  for_each rooms MarkII.write_room (blank_map (MarkII.map_width p) (MarkII.map_height p))
  = Return m1 ->
  for_each corridors MarkII.write_corridor m1 = Return m ->
  forall r c, cell m r c <> 0 -> covered (rooms ++ corridors) (Z.of_nat c, Z.of_nat r).
Proof.
  intros Hwp Hw H1 H2 r c Hrc.
  rewrite write_corridors_targets in H2.
  assert (Hnn : Forall (fun t => 0 <= fst t /\ 0 <= snd t) (flat_map targets corridors)).
  { apply Forall_forall. intros t Ht. apply in_flat_map in Ht as (k & Hk & Ht).
    apply targets_in_rect in Ht. rewrite Forall_forall in Hw.
    specialize (Hw k Hk (snd t, fst t) Ht). unfold inside_map in Hw; cbn [fst snd] in Hw. lia. }
  destruct (carves_only_targets _ m1 m Hnn H2 r c Hrc) as [Hm1|Hin].
  - rewrite (written_rooms_cover p rooms m1 Hwp H1 r c) in Hm1.
    apply cover_count_covered in Hm1 as (room & Hroom & Hin).
    exists room. split; [apply in_or_app; left; exact Hroom|exact Hin].
  - apply in_flat_map in Hin as (k & Hk & Ht). apply targets_in_rect in Ht.
    exists k. split; [apply in_or_app; right; exact Hk|exact Ht].
Qed.

(** The corridors of a returned map lie between the centerpoints, which
    lie inside [inside_map p'] whenever the rooms' centerpoints do. *)
Lemma corridors_within (p p' : MarkII.params) (rooms : list rect) (g : rng)
  (lk : MarkII.links) (g2 g3 : rng) (colors : list (list point)) (corridors : list rect) :
  Forall (fun room => inside_map p' (center_of room)) rooms ->
  for_each rooms MarkII.link_room (MarkII.Links (map center_of rooms) [] [], g)
  = Return (lk, g2) ->
  for_each (py_range 0 (len (MarkII.list_of_room_connection_colors lk))) MarkII.merge_step
    (MarkII.list_of_room_connection_colors lk, MarkII.list_of_new_corridors lk, g2)
  = Return (colors, corridors, g3) ->
  Forall (within_map p') corridors.
Proof.
  intros Hin H2 H3.
  destruct (first_pass_spec p' rooms lk g g2 Hin H2) as [Hok _].
  destruct (merging_spec p' _ colors _ corridors g2 g3 Hok H3) as ([Hw _] & _).
  exact Hw.
Qed.

(** X6: with rooms of at least one cell in each direction, the outermost
    rows and columns of the returned map are never excavated: every
    non-zero cell lies in rows 1 .. height - 3 and columns 1 .. width - 3
    of the supplied sizes (the returned map has height - 1 rows and
    width - 1 columns). *)
Theorem markii_border_is_wall (fuel : nat) (p : MarkII.params) (g : rng) (m : grid)
  (r c : nat) :
  1 <= MarkII.room_min_size p ->
  MarkII.generate_noise fuel p g = Return m ->
  cell m r c <> 0 ->
  1 <= Z.of_nat r <= MarkII.supplied_map_height p - 3
  /\ 1 <= Z.of_nat c <= MarkII.supplied_map_width p - 3.
Proof.
  intros Hmin H Hrc.
  apply generate_noise_inv in H
    as (rooms & g1 & lk & g2 & colors & corridors & g3 & m1 & H1 & H2 & H3 & H4 & H5).
  apply place_rooms_placement in H1 as [[Hwp _] _]; [|apply placement_nil].
  assert (Hin : Forall (fun room => inside_map (narrowed p) (center_of room)) rooms).
  { eapply Forall_impl; [|exact Hwp]. intros room (Hx & Hy & Hw & Hh & Hx2 & Hy2).
    unfold inside_map, narrowed, MarkII.map_width, MarkII.map_height in *.
    unfold center_of, return_the_center_of_this_rectangle; cbn [fst snd MarkII.supplied_map_width
      MarkII.supplied_map_height].
    pose proof (half_inside (rw room) ltac:(lia)). pose proof (half_inside (rh room) ltac:(lia)).
    lia. }
  pose proof (corridors_within p (narrowed p) rooms g1 lk g2 g3 colors corridors Hin H2 H3) as Hn.
  assert (Hw : Forall (within_map p) corridors).
  { eapply Forall_impl; [|exact Hn]. intros k Hk q Hq. specialize (Hk q Hq).
    unfold inside_map, narrowed, MarkII.map_width, MarkII.map_height in *.
    cbn [MarkII.supplied_map_width MarkII.supplied_map_height] in Hk. lia. }
  destruct (written_map_covered p rooms corridors m1 m Hwp Hw H4 H5 r c Hrc) as (k & Hk & Hon).
  unfold on_rect, in_rect in Hon; cbn [fst snd] in Hon.
  apply in_app_or in Hk as [Hk|Hk].
  - rewrite Forall_forall in Hwp. destruct (Hwp k Hk) as (Hx & Hy & _ & _ & Hx2 & Hy2).
    unfold MarkII.map_width, MarkII.map_height in *. lia.
  - rewrite Forall_forall in Hn. specialize (Hn k Hk (Z.of_nat c, Z.of_nat r) Hon).
    unfold inside_map, narrowed, MarkII.map_width, MarkII.map_height in Hn.
    cbn [fst snd MarkII.supplied_map_width MarkII.supplied_map_height] in Hn. lia.
Qed.

Lemma markii_border_is_wall_witness :
  1 <= Z.of_nat 5 <= 8 - 3 /\ 1 <= Z.of_nat 6 <= 12 - 3.
Proof.
  apply (markii_border_is_wall 1 (MarkII.Params 12 8 2 2 2 2) [0; 0; 0; 0; 0; 0; 4; 3; 1; 0]
           [[0; 0; 0; 0; 0; 0; 0; 0; 0; 0; 0];
            [0; 1; 1; 0; 0; 0; 0; 0; 0; 0; 0];
            [0; 1; 1; 0; 0; 0; 0; 0; 0; 0; 0];
            [0; 0; 1; 0; 0; 0; 0; 0; 0; 0; 0];
            [0; 0; 1; 0; 0; 1; 1; 0; 0; 0; 0];
            [0; 0; 1; 1; 1; 1; 1; 0; 0; 0; 0];
            [0; 0; 0; 0; 0; 0; 0; 0; 0; 0; 0]] 5 6).
  - simpl; lia.
  - vm_compute; reflexivity.
  - vm_compute; discriminate.
Defined.

(** ** With two rooms or more, linking, merging and writing never raise *)

Lemma nearer_some {A : Type} (d : Z) (a : A) (best : option (Z * A)) :
  nearer d a best <> None.
Proof.
  unfold nearer. destruct best as [[s b]|]; [destruct (d <? s)|]; discriminate.
Qed.

Lemma scan_some {A : Type} (step : option (Z * A) -> A -> option (Z * A)) (l : list A)
  (best : option (Z * A)) :
  (forall b c, b <> None -> step b c <> None) ->
  best <> None -> fold_left step l best <> None.
Proof.
  intro Hstep. revert best; induction l as [|c l IH]; intros best Hb; cbn [fold_left]; auto.
Qed.

(** The first-pass scan finds a centerpoint as soon as the list holds
    one that differs from the room's own. *)
Lemma closest_centerpoint_some (alpha : point) (l : list point) :
  (exists b, In b l /\ b <> alpha) ->
  exists beta, MarkII.closest_centerpoint alpha l = Some beta.
Proof.
  intros (b & Hb & Hne). unfold MarkII.closest_centerpoint.
  set (step := fun (best : option (Z * point)) (each_centerpoint : point) =>
                 if point_eqb alpha each_centerpoint then best
                 else nearer (hypotenuse2 alpha each_centerpoint) each_centerpoint best).
  assert (Hstep : forall b0 c, b0 <> None -> step b0 c <> None).
  { intros b0 c Hb0. unfold step. destruct (point_eqb alpha c); [exact Hb0|apply nearer_some]. }
  assert (G : forall best, fold_left step l best <> None).
  { induction l as [|c l IH]; intros best; [contradiction|]. cbn [fold_left].
    destruct Hb as [->|Hb].
    - apply scan_some; [exact Hstep|]. unfold step.
      destruct (point_eqb alpha b) eqn:E; [|apply nearer_some].
      apply point_eqb_eq in E. congruence.
    - apply IH; exact Hb. }
  specialize (G None). destruct (fold_left step l None) as [r|]; [|contradiction].
  exists (snd r). reflexivity.
Qed.

Lemma nearest_to_some (target : point) (l : list point) :
  l <> [] -> exists x, nearest_to target l = Some x.
Proof.
  intro Hl. unfold nearest_to. destruct l as [|c l]; [contradiction|]. cbn [fold_left].
  pose proof (scan_some (fun best c0 => nearer (hypotenuse2 c0 target) c0 best) l
                (nearer (hypotenuse2 c target) c None)
                (fun b c0 _ => nearer_some _ c0 b) (nearer_some _ c None)) as G.
  destruct (fold_left _ l _) as [r|]; [|contradiction].
  exists (snd r). reflexivity.
Qed.

Lemma ForallOrdPairs_middle {A : Type} (R : A -> A -> Prop) (l1 l2 : list A) (a : A) :
  ForallOrdPairs R (l1 ++ a :: l2) ->
  (forall b, In b l1 -> R b a) /\ (forall b, In b l2 -> R a b).
Proof.
  induction l1 as [|x l1 IH]; cbn [app]; intro H; inversion H as [|y l Hy Hl]; subst.
  - split; [intros b []|]. intros b Hb. rewrite Forall_forall in Hy. apply Hy; exact Hb.
  - destruct (IH Hl) as [IH1 IH2]. split; [|exact IH2].
    intros b [<-|Hb]; [|apply IH1; exact Hb].
    rewrite Forall_forall in Hy. apply Hy. apply in_or_app; right; left; reflexivity.
Qed.

(** Rooms that share no cell and have at least one cell each have
    pairwise different centerpoints. *)
Lemma other_center (p : MarkII.params) (rooms : list rect) (room : rect) :
  1 <= MarkII.room_min_size p -> placement p rooms -> 2 <= len rooms -> In room rooms ->
  exists other, In other rooms /\ center_of other <> center_of room.
Proof.
  intros Hmin [Hwp Hap] Hlen Hroom.
  apply in_split in Hroom as (l1 & l2 & ->).
  destruct (ForallOrdPairs_middle apart l1 l2 room Hap) as [H1 H2].
  assert (Hcenter : forall r, In r (l1 ++ room :: l2) -> on_rect r (center_of r)).
  { intros r Hr. rewrite Forall_forall in Hwp. destruct (Hwp r Hr) as (_ & _ & Hw & Hh & _).
    apply center_on_rect; lia. }
  assert (Hother : exists other, In other l1 \/ In other l2).
  { unfold len in Hlen. rewrite length_app in Hlen. cbn [length] in Hlen.
    destruct l1 as [|x l1]; [destruct l2 as [|x l2]; [simpl in Hlen; lia|]|].
    - exists x. right; left; reflexivity.
    - exists x. left; left; reflexivity. }
  destruct Hother as (other & Ho).
  assert (Hin : In other (l1 ++ room :: l2))
    by (apply in_or_app; destruct Ho; [left|right; right]; assumption).
  exists other. split; [exact Hin|]. intro E.
  pose proof (Hcenter other Hin) as C1. pose proof (Hcenter room ltac:(apply in_or_app; right; left; reflexivity)) as C2.
  rewrite E in C1. unfold on_rect in C1, C2.
  destruct Ho as [Ho|Ho]; [exact (H1 other Ho _ _ C1 C2)|exact (H2 other Ho _ _ C2 C1)].
Qed.

Lemma grow_color_nonempty (a b h v : point) (color : list point) :
  color <> [] -> MarkII.grow_color a b h v color <> [].
Proof.
  intros Hc E. destruct color as [|c color]; [contradiction|].
  pose proof (grow_color_incl a b h v (c :: color) c (or_introl eq_refl)) as H.
  rewrite E in H. exact H.
Qed.

Lemma update_colors_nonempty (a b h v : point) (colors : list (list point)) :
  Forall (fun color => color <> []) colors ->
  Forall (fun color => color <> []) (MarkII.update_colors a b h v colors).
Proof.
  intro H. unfold MarkII.update_colors.
  assert (G : Forall (fun color => color <> []) (map (MarkII.grow_color a b h v) colors)).
  { apply Forall_forall. intros c' Hc'. apply in_map_iff in Hc' as (c & <- & Hc).
    apply grow_color_nonempty. rewrite Forall_forall in H. apply H; exact Hc. }
  destruct (len colors =? 0); [constructor; [discriminate|constructor]|].
  destruct (existsb _ colors); [exact G|].
  apply Forall_app; split; [exact G|constructor; [discriminate|constructor]].
Qed.

(** The first pass returns when every room has another room with a
    different centerpoint. *)
Lemma first_pass_total (rooms : list rect) (g : rng) :
  (forall room, In room rooms ->
     exists other, In other rooms /\ center_of other <> center_of room) ->
  exists lk g',
    for_each rooms MarkII.link_room (MarkII.Links (map center_of rooms) [] [], g)
    = Return (lk, g')
    /\ Forall (fun color => color <> []) (MarkII.list_of_room_connection_colors lk).
Proof.
  intro Hother.
  pose (P := fun (_ : nat) (st : MarkII.links * rng) =>
               incl (map center_of rooms) (MarkII.list_of_all_centerpoints (fst st))
               /\ Forall (fun color => color <> [])
                    (MarkII.list_of_room_connection_colors (fst st))).
  destruct (for_each_total P rooms MarkII.link_room
              (MarkII.Links (map center_of rooms) [] [], g)) as ([lk g'] & H & _ & Hne).
  - split; [apply incl_refl|constructor].
  - intros k room [lk g1] Hroom [Hincl Hne]. cbn [fst] in *.
    unfold MarkII.link_room.
    destruct (randint_0_1 g1) as (d & g2 & -> & _). cbn [bind].
    destruct (Hother room Hroom) as (other & Hin & Hdiff).
    destruct (closest_centerpoint_some (center_of room) (MarkII.list_of_all_centerpoints lk))
      as (beta & ->).
    { exists (center_of other). split; [apply Hincl, in_map; exact Hin|exact Hdiff]. }
    destruct (link_corridors d (center_of room) beta) as [h v].
    eexists. split; [reflexivity|].
    unfold P; cbn [fst MarkII.list_of_all_centerpoints MarkII.list_of_room_connection_colors].
    split; [apply incl_appl; exact Hincl|apply update_colors_nonempty; exact Hne].
  - exists lk, g'. split; [exact H|exact Hne].
Qed.

Lemma average_centerpoint_total (color : list point) :
  color <> [] -> exists average, MarkII.average_centerpoint color = Return average.
Proof.
  intro H. unfold MarkII.average_centerpoint.
  destruct (len color =? 0) eqn:E; [|eexists; reflexivity].
  apply Z.eqb_eq in E. destruct color; [contradiction|]. unfold len in E. simpl in E. lia.
Qed.

(** One pass of the merging loop over non-empty colors returns. *)
Lemma merge_step_total (k : Z) (colors : list (list point)) (corridors : list rect) (g : rng) :
  Forall (fun color => color <> []) colors ->
  exists colors' corridors' g',
    MarkII.merge_step k (colors, corridors, g) = Return (colors', corridors', g')
    /\ Forall (fun color => color <> []) colors'.
Proof.
  intro Hne. unfold MarkII.merge_step.
  destruct (1 <? len colors) eqn:E1; [|exists colors, corridors, g; split; [reflexivity|exact Hne]].
  apply Z.ltb_lt in E1. unfold len in E1.
  destruct colors as [|c0 rest]; [simpl in E1; lia|].
  apply Forall_cons_iff in Hne as [Hc0 Hrest].
  cbn [hd tl].
  replace (length (c0 :: rest) - 1)%nat with (length rest) by (simpl; lia).
  destruct (average_centerpoint_total c0 Hc0) as (alpha_average & ->). cbn [bind].
  destruct (for_each_total (fun n best => (0 < n)%nat -> best <> None)
              (combine (seq 1 (length rest)) rest)
              (MarkII.closest_color_step alpha_average) None) as (best & Hbest & Hsome).
  { intro H; lia. }
  { intros n [i c] b Hin _. unfold MarkII.closest_color_step.
    apply in_combine_r in Hin. rewrite Forall_forall in Hrest.
    destruct (average_centerpoint_total c (Hrest c Hin)) as (avg & ->). cbn [bind].
    eexists. split; [reflexivity|]. intros _. apply nearer_some. }
  rewrite Hbest. cbn [bind].
  destruct best as [[d [[c index] beta_average]]|].
  2:{ exfalso. apply Hsome; [|reflexivity].
      rewrite length_combine, length_seq, Nat.min_id. simpl in E1. lia. }
  cbn [MarkII.from_bound bind].
  destruct (closest_color_in alpha_average rest d c index beta_average Hbest) as (i & -> & Hi).
  assert (Hc : c <> []).
  { rewrite Forall_forall in Hrest. apply Hrest. eapply nth_error_In; exact Hi. }
  destruct (nearest_to_some beta_average c0 Hc0) as (which_alpha & ->).
  destruct (nearest_to_some alpha_average c Hc) as (which_beta & ->).
  cbn [MarkII.from_bound bind].
  destruct (randint_0_1 g) as (dir & g1 & -> & _). cbn [bind].
  destruct (link_corridors dir which_alpha which_beta) as [h v].
  eexists _, _, _. split; [reflexivity|]. cbn [del_nth].
  constructor.
  - destruct c0; [contradiction|discriminate].
  - apply Forall_forall. intros x Hx. apply in_del_nth in Hx.
    rewrite Forall_forall in Hrest. apply Hrest; exact Hx.
Qed.

Lemma merging_total (l : list Z) (colors : list (list point)) (corridors : list rect) (g : rng) :
  Forall (fun color => color <> []) colors ->
  exists colors' corridors' g',
    for_each l MarkII.merge_step (colors, corridors, g) = Return (colors', corridors', g').
Proof.
  intro Hne.
  destruct (for_each_total
              (fun (_ : nat) (st : list (list point) * list rect * rng) =>
                 Forall (fun color => color <> []) (fst (fst st)))
              l MarkII.merge_step (colors, corridors, g)) as ([[c' r'] g'] & H & _).
  - exact Hne.
  - intros n k [[c1 r1] g1] _ H1. cbn [fst] in H1.
    destruct (merge_step_total k c1 r1 g1 H1) as (c2 & r2 & g2 & H2 & Hne2).
    exists (c2, r2, g2). split; [exact H2|exact Hne2].
  - exists c', r', g'. exact H.
Qed.

(** A write at a cell of the grid succeeds. *)
Lemma grid_get_total (m : grid) (w h R C : Z) :
  has_dimensions m w h -> 0 <= R < h -> 0 <= C < w -> exists v, grid_get m R C = Return v.
Proof.
  intros [Hh Hw] HR HC. unfold grid_get.
  rewrite (py_get_nth m R []) by lia. cbn [bind].
  assert (Hrow : len (nth (Z.to_nat R) m []) = w).
  { rewrite Forall_forall in Hw. apply Hw. apply nth_In. unfold len in Hh. lia. }
  rewrite (py_get_nth _ C 0) by lia. eexists; reflexivity.
Qed.

Lemma grid_set_total (m : grid) (w h R C v : Z) :
  has_dimensions m w h -> 0 <= R < h -> 0 <= C < w -> exists m', grid_set m R C v = Return m'.
Proof.
  intros [Hh Hw] HR HC. unfold grid_set.
  rewrite (py_get_nth m R []) by lia. cbn [bind].
  assert (Hrow : len (nth (Z.to_nat R) m []) = w).
  { rewrite Forall_forall in Hw. apply Hw. apply nth_In. unfold len in Hh. lia. }
  rewrite py_set_nth by lia. cbn [bind]. rewrite py_set_nth by lia. eexists; reflexivity.
Qed.

Lemma visits_total (body : Z * Z -> grid -> outcome grid) (ts : list (Z * Z)) (m : grid)
  (w h : Z) :
  (forall t m1, 0 <= fst t < h -> 0 <= snd t < w -> has_dimensions m1 w h ->
     exists m2, body t m1 = Return m2 /\ has_dimensions m2 w h) ->
  has_dimensions m w h ->
  Forall (fun t => 0 <= fst t < h /\ 0 <= snd t < w) ts ->
  exists m', for_each ts body m = Return m' /\ has_dimensions m' w h.
Proof.
  intros Hbody Hd Hts. rewrite Forall_forall in Hts.
  destruct (for_each_total (fun (_ : nat) m1 => has_dimensions m1 w h) ts body m Hd)
    as (m' & H & Hd').
  - intros k t m1 Ht Hm1. destruct (Hts t Ht) as [Hr Hc]. exact (Hbody t m1 Hr Hc Hm1).
  - exists m'. split; assumption.
Qed.

Lemma visit_increment_total (t : Z * Z) (m : grid) (w h : Z) :
  0 <= fst t < h -> 0 <= snd t < w -> has_dimensions m w h ->
  exists m', visit_increment t m = Return m' /\ has_dimensions m' w h.
Proof.
  intros Hr Hc Hd. unfold visit_increment.
  assert (G : exists m', increment_cell m (fst t) (snd t) = Return m').
  { unfold increment_cell.
    destruct (grid_get_total m w h _ _ Hd Hr Hc) as (v & ->). cbn [bind].
    exact (grid_set_total m w h _ _ (v + 1) Hd Hr Hc). }
  destruct G as (m' & H). exists m'. split; [exact H|].
  exact (increment_keeps_dimensions m m' _ _ w h Hd H).
Qed.

Lemma visit_carve_total (t : Z * Z) (m : grid) (w h : Z) :
  0 <= fst t < h -> 0 <= snd t < w -> has_dimensions m w h ->
  exists m', visit_carve t m = Return m' /\ has_dimensions m' w h.
Proof.
  intros Hr Hc Hd. unfold visit_carve, carve_if_uncarved.
  destruct (grid_get_total m w h _ _ Hd Hr Hc) as (v & ->). cbn [bind].
  destruct (v =? 0); [|exists m; split; [reflexivity|exact Hd]].
  exact (visit_increment_total t m w h Hr Hc Hd).
Qed.

(** X7: the single room is the only case in which linking fails.  When
    the placement loop keeps two rooms or more, each of at least one
    cell in each direction, the call returns a map: every room finds
    another centerpoint, no color is empty when its average is taken,
    and every write lands on a cell of the grid. *)
Theorem markii_two_rooms_return (fuel : nat) (p : MarkII.params) (g g1 : rng)
  (rooms : list rect) :
  1 <= MarkII.room_min_size p ->
  MarkII.place_rooms fuel p [] g = Return (rooms, g1) ->
  2 <= len rooms ->
  exists m, MarkII.generate_noise fuel p g = Return m.
Proof.
  intros Hmin Hplace Hlen.
  destruct (place_rooms_placement fuel p [] rooms g g1 (placement_nil p) Hplace) as [Hpl _].
  unfold MarkII.generate_noise. rewrite Hplace. cbn [bind].
  unfold MarkII.connect_and_write.
  destruct (first_pass_total rooms g1) as (lk & g2 & H2 & Hne).
  { intros room Hroom. exact (other_center p rooms room Hmin Hpl Hlen Hroom). }
  rewrite H2. cbn [bind].
  destruct (merging_total (py_range 0 (len (MarkII.list_of_room_connection_colors lk)))
              (MarkII.list_of_room_connection_colors lk) (MarkII.list_of_new_corridors lk) g2 Hne)
    as (colors & corridors & g3 & H3).
  rewrite H3. cbn [bind].
  assert (Hin : Forall (fun room => inside_map p (center_of room)) rooms).
  { eapply Forall_impl; [|exact (proj1 Hpl)]. intros room Hroom.
    apply room_center_inside; [lia|exact Hroom]. }
  pose proof (corridors_within p p rooms g1 lk g2 g3 colors corridors Hin H2 H3) as Hw.
  destruct Hpl as [Hwp _].
  (* the map has room for a room *)
  assert (Hsize : 3 <= MarkII.map_width p /\ 3 <= MarkII.map_height p).
  { destruct rooms as [|room rest]; [unfold len in Hlen; simpl in Hlen; lia|].
    apply Forall_cons_iff in Hwp as [(Hx & Hy & Hrw & Hrh & Hx2 & Hy2) _]. lia. }
  destruct (visits_total visit_increment (flat_map targets rooms)
              (blank_map (MarkII.map_width p) (MarkII.map_height p))
              (MarkII.map_width p) (MarkII.map_height p)) as (m1 & H4 & Hd1).
  { intros t m0 Hr Hc Hd. exact (visit_increment_total t m0 _ _ Hr Hc Hd). }
  { apply blank_rows_dimensions; lia. }
  { apply Forall_forall. intros t Ht. apply in_flat_map in Ht as (room & Hroom & Ht).
    apply targets_in_rect in Ht. rewrite Forall_forall in Hwp.
    destruct (Hwp room Hroom) as (Hx & Hy & _ & _ & Hx2 & Hy2). unfold in_rect in Ht. lia. }
  rewrite write_rooms_targets, H4. cbn [bind].
  destruct (visits_total visit_carve (flat_map targets corridors) m1
              (MarkII.map_width p) (MarkII.map_height p)) as (m & H5 & _).
  { intros t m0 Hr Hc Hd. exact (visit_carve_total t m0 _ _ Hr Hc Hd). }
  { exact Hd1. }
  { apply Forall_forall. intros t Ht. apply in_flat_map in Ht as (k & Hk & Ht).
    apply targets_in_rect in Ht. rewrite Forall_forall in Hw.
    specialize (Hw k Hk (snd t, fst t) Ht). unfold inside_map in Hw; cbn [fst snd] in Hw. lia. }
  rewrite write_corridors_targets, H5. exists m. reflexivity.
Qed.

Lemma markii_two_rooms_return_witness :
  exists m,
    MarkII.generate_noise 1 (MarkII.Params 12 8 2 2 2 2) [0; 0; 0; 0; 0; 0; 4; 3; 1; 0] = Return m.
Proof.
  apply (markii_two_rooms_return 1 (MarkII.Params 12 8 2 2 2 2)
           [0; 0; 0; 0; 0; 0; 4; 3; 1; 0] [1; 0] [Rect 1 1 2 2; Rect 5 4 2 2]).
  - simpl; lia.
  - vm_compute; reflexivity.
  - vm_compute; discriminate.
Defined.

(** ** DungeonMapGenerator *)

(** X8: DungeonMapGenerator [generate_noise] returns a map in one case
    only: no room is required ([room_min_count <= 0]) and none is kept,
    and then the map is the blank map of [height - 1] rows of
    [width - 1] zeros.  Whatever the random draws and however long the
    placement loop runs, no call returns a map with a room on it. *)
Theorem dungeon_returns_blank_map_only (fuel : nat) (p : Dungeon.params) (g : rng) (m : grid) :
  Dungeon.generate_noise fuel p g = Return m ->
  Dungeon.room_min_count p <= 0
  /\ m = blank_map (Dungeon.supplied_map_width p - 1) (Dungeon.supplied_map_height p - 1)
  /\ exists g', Dungeon.place_rooms fuel p g = Return ([], g').
Proof.
  intro H. destruct (dungeon_returns_only_blank fuel p g m H) as [Hmin Hm].
  split; [exact Hmin|]. split; [exact Hm|].
  unfold Dungeon.generate_noise in H.
  apply bind_Return_inv in H as ([rooms g1] & Hp & H).
  apply bind_Return_inv in H as ([m1 g2] & Hc & _).
  destruct rooms as [|room rest]; [exists g1; exact Hp|].
  cbn [for_each] in Hc. apply bind_Return_inv in Hc as (st' & Hc & _).
  exfalso. exact (carve_and_connect_never_returns room _ _ Hc).
Qed.

Lemma dungeon_returns_blank_map_only_witness :
  0 <= 0
  /\ [[0; 0]] = blank_map (3 - 1) (2 - 1)
  /\ exists g', Dungeon.place_rooms 1 (Dungeon.Params 3 2 1 1 0 0) [] = Return ([], g').
Proof.
  apply (dungeon_returns_blank_map_only 1 (Dungeon.Params 3 2 1 1 0 0) [] [[0; 0]]).
  vm_compute; reflexivity.
Defined.

(** The rooms kept by the placement loop lie on the map. *)
Lemma dungeon_room_attempt_on_map (p : Dungeon.params) (k : Z) (rooms rooms' : list rect)
  (g g' : rng) :
  Forall (fun r => 1 <= rx r /\ rx r + rw r <= Dungeon.map_width p
                   /\ 1 <= ry r /\ ry r + rh r <= Dungeon.map_height p) rooms ->
  Dungeon.room_attempt p k (rooms, g) = Return (rooms', g') ->
  Forall (fun r => 1 <= rx r /\ rx r + rw r <= Dungeon.map_width p
                   /\ 1 <= ry r /\ ry r + rh r <= Dungeon.map_height p) rooms'.
Proof.
  intros Hs H. unfold Dungeon.room_attempt in H.
  apply bind_Return_inv in H as ([w g1] & _ & H).
  apply bind_Return_inv in H as ([h g2] & _ & H).
  apply bind_Return_inv in H as ([x g3] & Hx & H).
  apply bind_Return_inv in H as ([y g4] & Hy & H).
  apply randint_range in Hx, Hy.
  destruct (passes_intersection_test (Rect x y w h) rooms);
    inversion H; subst; clear H; [|exact Hs].
  apply Forall_app; split; [exact Hs|]. constructor; [simpl; lia|constructor].
Qed.

Lemma dungeon_place_rooms_on_map (fuel : nat) (p : Dungeon.params) (g g' : rng)
  (rooms : list rect) :
  Dungeon.place_rooms fuel p g = Return (rooms, g') ->
  Forall (fun r => 1 <= rx r /\ rx r + rw r <= Dungeon.map_width p
                   /\ 1 <= ry r /\ ry r + rh r <= Dungeon.map_height p) rooms.
Proof.
  revert g; induction fuel as [|fuel IH]; intros g H; simpl in H; [discriminate|].
  apply bind_Return_inv in H as ([r1 g1] & H1 & H).
  destruct (len r1 >=? Dungeon.room_min_count p).
  - inversion H; subst.
    change (Forall (fun r => 1 <= rx r /\ rx r + rw r <= Dungeon.map_width p
                             /\ 1 <= ry r /\ ry r + rh r <= Dungeon.map_height p)
              (fst (rooms, g'))).
    apply (for_each_invariant
             (fun st => Forall (fun r => 1 <= rx r /\ rx r + rw r <= Dungeon.map_width p
                                         /\ 1 <= ry r /\ ry r + rh r <= Dungeon.map_height p)
                          (fst st))
             (py_range 0 (Dungeon.room_max_count p)) (Dungeon.room_attempt p)
             ([], g) (rooms, g')); [|constructor|exact H1].
    intros a [ra ga] [rb gb] _ Ha Hstep. cbn [fst] in *.
    exact (dungeon_room_attempt_on_map p a ra rb ga gb Ha Hstep).
  - exact (IH g1 H).
Qed.

(** Carving a room that lies on the map succeeds. *)
Lemma carve_room_total (room : rect) (m : grid) (w h : Z) :
  has_dimensions m w h ->
  0 <= rx room -> rx room + rw room <= w -> 0 <= ry room -> ry room + rh room <= h ->
  exists m', Dungeon.carve_room room m = Return m'.
Proof.
  intros Hd Hx Hx2 Hy Hy2. unfold Dungeon.carve_room.
  destruct (for_each_total (fun (_ : nat) m1 => has_dimensions m1 w h)
              (py_range (rx room) (rx room + rw room))
              (fun each_x_coordinate m1 =>
                 for_each (py_range (ry room) (ry room + rh room))
                   (fun each_y_coordinate m2 =>
                      carve_if_uncarved m2 each_y_coordinate each_x_coordinate) m1)
              m Hd) as (m' & H & _).
  - intros k x m1 Hxin Hm1. apply in_py_range in Hxin.
    destruct (for_each_total (fun (_ : nat) m2 => has_dimensions m2 w h)
                (py_range (ry room) (ry room + rh room))
                (fun each_y_coordinate m2 => carve_if_uncarved m2 each_y_coordinate x)
                m1 Hm1) as (m2 & H2 & Hd2).
    + intros j y m2 Hyin Hm2. apply in_py_range in Hyin.
      exact (visit_carve_total (y, x) m2 w h ltac:(simpl; lia) ltac:(simpl; lia) Hm2).
    + exists m2. split; assumption.
  - exists m'. exact H.
Qed.

Lemma py_range_empty (a b : Z) : b <= a -> py_range a b = [].
Proof. intro H. unfold py_range. replace (Z.to_nat (b - a)) with O by lia. reflexivity. Qed.

Lemma for_each_skip {A St : Type} (l : list A) (body : A -> St -> outcome St) (s : St) :
  (forall a s1, body a s1 = Return s1) -> for_each l body s = Return s.
Proof.
  intro H. induction l as [|a l IH]; cbn [for_each]; [reflexivity|].
  rewrite H. cbn [bind]. exact IH.
Qed.

Lemma carve_room_empty (room : rect) (m : grid) :
  rw room <= 0 \/ rh room <= 0 -> Dungeon.carve_room room m = Return m.
Proof.
  intros [H|H]; unfold Dungeon.carve_room.
  - rewrite (py_range_empty (rx room)) by lia. reflexivity.
  - rewrite (py_range_empty (ry room)) by lia. apply for_each_skip. reflexivity.
Qed.

(** X9: as soon as the placement loop of DungeonMapGenerator keeps a
    room, the call ends in [TypeError]: the first room is carved (all its
    cells are cells of the map), the direction is drawn, and the call of
    [return_the_center_of_this_rectangle] without arguments raises. *)
Theorem dungeon_rooms_raise_type_error (fuel : nat) (p : Dungeon.params) (g g1 : rng)
  (room : rect) (rest : list rect) :
  Dungeon.place_rooms fuel p g = Return (room :: rest, g1) ->
  Dungeon.generate_noise fuel p g = Raise TypeError.
Proof.
  intro H. pose proof (dungeon_place_rooms_on_map fuel p g g1 _ H) as Hon.
  apply Forall_cons_iff in Hon as [(Hx & Hx2 & Hy & Hy2) _].
  unfold Dungeon.generate_noise. rewrite H. cbn [bind for_each].
  unfold Dungeon.carve_and_connect at 1.
  assert (Hcarve : exists m', Dungeon.carve_room room
                     (blank_map (Dungeon.map_width p) (Dungeon.map_height p)) = Return m').
  { destruct (Z_le_gt_dec (rw room) 0) as [Hw|Hw];
      [eexists; apply carve_room_empty; left; exact Hw|].
    destruct (Z_le_gt_dec (rh room) 0) as [Hh|Hh];
      [eexists; apply carve_room_empty; right; exact Hh|].
    apply (carve_room_total room _ (Dungeon.map_width p) (Dungeon.map_height p)); try lia.
    apply blank_rows_dimensions; lia. }
  destruct Hcarve as (m' & ->). cbn [bind].
  destruct (randint_0_1 g1) as (d & g2 & -> & _). reflexivity.
Qed.

Lemma dungeon_rooms_raise_type_error_witness :
  Dungeon.generate_noise 1 (Dungeon.Params 12 8 2 2 1 1) [0; 0; 3; 2; 1] = Raise TypeError.
Proof.
  apply (dungeon_rooms_raise_type_error 1 (Dungeon.Params 12 8 2 2 1 1) [0; 0; 3; 2; 1] [1]
           (Rect 4 3 2 2) []).
  vm_compute; reflexivity.
Defined.

(** ** PerlinNoiseGenerator: the [octaves] argument below 1 *)

Lemma for_each_append_const {A B : Type} (l : list A) (body : A -> list B -> outcome (list B))
  (c : B) (s : list B) :
  (forall a s1, In a l -> body a s1 = Return (s1 ++ [c])) ->
  for_each l body s = Return (s ++ map (fun _ => c) l).
Proof.
  revert s; induction l as [|a l IH]; intros s H; cbn [for_each map].
  - rewrite app_nil_r. reflexivity.
  - rewrite (H a s (or_introl eq_refl)). cbn [bind].
    rewrite IH by (intros b s1 Hb; apply H; right; exact Hb).
    rewrite <- app_assoc. reflexivity.
Qed.

Lemma turbulence_below_one (fuel : nat) (noise_array : list (list Q)) (w h : Z)
  (x y size : Q) :
  (size < 1)%Q ->
  Perlin.turbulence_loop fuel noise_array w h x y size 0%Q = Return 0%Q.
Proof.
  intro H. destruct fuel; cbn [Perlin.turbulence_loop];
    (destruct (Qle_bool 1 size) eqn:E; [apply Qle_bool_iff in E; lra|reflexivity]).
Qed.

(** X10: [octaves] is the starting size of the turbulence loop, not a
    number of passes: below 1 (and other than 0) the loop body never
    runs, and the call returns a map of zeros whatever the frequency and
    the random field are. *)
Theorem perlin_octaves_below_one (fuel : nat) (width height : Z) (frequency octaves : Q)
  (g : rng) :
  (octaves < 1)%Q -> ~ (octaves == 0)%Q ->
  Perlin.generate_noise fuel width height frequency octaves g = Return (blank_map width height).
Proof.
  intros Hlt Hnz. unfold Perlin.generate_noise.
  destruct (fill_noise_array_unit width height g) as (na & g' & -> & _). cbn [bind].
  unfold blank_map.
  rewrite (for_each_append_const (py_range 0 height) _ (map (fun _ => 0) (py_range 0 width)) []);
    [reflexivity|].
  intros each_y m _. unfold Perlin.turbulate_row.
  rewrite (for_each_append_const (py_range 0 width) _ 0 []); [reflexivity|].
  intros each_x row _. unfold Perlin.turbulate_cell, Perlin.totally_justified_turbulence_function.
  rewrite turbulence_below_one by exact Hlt. cbn [bind].
  destruct (Qeq_bool octaves 0) eqn:E; [apply Qeq_bool_iff in E; contradiction|].
  cbn [bind]. reflexivity.
Qed.

Lemma perlin_octaves_below_one_witness :
  Perlin.generate_noise 0 3 2 (7 # 3) (1 # 2) [5; 900; 33; 1000; 0; 12]
  = Return (blank_map 3 2).
Proof.
  apply (perlin_octaves_below_one 0 3 2 (7 # 3) (1 # 2) [5; 900; 33; 1000; 0; 12]).
  - unfold Qlt; simpl; lia.
  - intro H. unfold Qeq in H; simpl in H. lia.
Defined.

Lemma py_range_first (n : Z) : 1 <= n -> py_range 0 n = 0 :: py_range 1 n.
Proof.
  intro H. unfold py_range.
  replace (Z.to_nat (n - 0)) with (S (Z.to_nat (n - 1))) by lia.
  cbn [seq map]. f_equal. rewrite <- seq_shift, map_map.
  apply map_ext. intro k. lia.
Qed.

(** X11: with [octaves] equal to 0 and a map of at least one cell the
    call raises [ZeroDivisionError]: the turbulence of the first cell is
    divided by the initial size. *)
Theorem perlin_zero_octaves_raises (fuel : nat) (width height : Z) (frequency octaves : Q)
  (g : rng) :
  (octaves == 0)%Q -> 1 <= width -> 1 <= height ->
  Perlin.generate_noise fuel width height frequency octaves g = Raise ZeroDivisionError.
Proof.
  intros Hz Hw Hh. unfold Perlin.generate_noise.
  destruct (fill_noise_array_unit width height g) as (na & g' & -> & _). cbn [bind].
  rewrite (py_range_first height Hh). cbn [for_each].
  unfold Perlin.turbulate_row at 1.
  rewrite (py_range_first width Hw). cbn [for_each].
  unfold Perlin.turbulate_cell at 1. unfold Perlin.totally_justified_turbulence_function.
  rewrite turbulence_below_one by lra. cbn [bind].
  destruct (Qeq_bool octaves 0) eqn:E; [reflexivity|].
  exfalso. apply Qeq_bool_neq in E. contradiction.
Qed.

Lemma perlin_zero_octaves_raises_witness :
  Perlin.generate_noise 3 2 2 (1 # 3) 0 [4; 8; 15; 16] = Raise ZeroDivisionError.
Proof.
  apply (perlin_zero_octaves_raises 3 2 2 (1 # 3) 0 [4; 8; 15; 16]).
  - reflexivity.
  - lia.
  - lia.
Defined.

(** ** PlasmaFractalGenerator: a separation distance that is not positive *)

Lemma bind_not_Return {A B : Type} (m : outcome A) (k : A -> outcome B) :
  (forall a, m <> Return a) -> forall b, bind m k <> Return b.
Proof.
  intros H b Hb. apply bind_Return_inv in Hb as (a & Ha & _). exact (H a Ha).
Qed.

Lemma plasma_recursion_never_ends (fuel : nat) (gen : Plasma.generator)
  (x y w h ul ur ll lr : Q) (st st' : list Plasma.emitted * rng) :
  (Plasma.minimum_separation_distance gen <= 0)%Q -> (0 < w)%Q ->
  Plasma.plasma_recursion fuel gen x y w h ul ur ll lr st <> Return st'.
Proof.
  intros Hmsd. revert x y w h ul ur ll lr st st'.
  induction fuel as [|fuel IH]; intros x y w h ul ur ll lr st st' Hw;
    cbn [Plasma.plasma_recursion].
  - replace (Qle_bool w (Plasma.minimum_separation_distance gen)) with false
      by (symmetry; apply not_true_is_false; intro E; apply Qle_bool_iff in E; lra).
    cbn [negb orb]. discriminate.
  - replace (Qle_bool w (Plasma.minimum_separation_distance gen)) with false
      by (symmetry; apply not_true_is_false; intro E; apply Qle_bool_iff in E; lra).
    cbn [negb orb]. destruct st as [saved g].
    intro H. apply bind_Return_inv in H as ([d g1] & _ & H).
    apply bind_Return_inv in H as (st1 & H1 & _).
    revert H1. apply IH. pose proof (half_eq w). lra.
Qed.

(** X12: with a minimum separation distance of 0 or less the recursion
    never reaches a leaf: a rectangle of positive width is halved again
    and again, so [generate_noise] returns no grid at any recursion
    depth (the interpreter ends the call at its recursion limit). *)
Theorem plasma_nonpositive_separation_never_returns (fuel : nat) (gen : Plasma.generator)
  (x y : Q) (supplied_width supplied_height : Z) (ul ur ll lr : Q) (g : rng)
  (m : list (list Q)) :
  (Plasma.minimum_separation_distance gen <= 0)%Q -> 1 <= supplied_width ->
  Plasma.generate_noise fuel gen x y supplied_width supplied_height ul ur ll lr g <> Return m.
Proof.
  intros Hmsd Hw. unfold Plasma.generate_noise.
  apply bind_not_Return. intros st'.
  apply plasma_recursion_never_ends; [exact Hmsd|].
  change 0%Q with (inject_Z 0). rewrite <- Zlt_Qlt. lia.
Qed.

Lemma plasma_nonpositive_separation_never_returns_witness :
  Plasma.generate_noise 6 (Plasma.Generator (-35) 35 0) 0 0 2 2 10 20 30 40 [1; 2; 3; 4; 5; 6]
  <> Return [[10; 20]; [30; 40]]%Q.
Proof.
  apply (plasma_nonpositive_separation_never_returns 6 (Plasma.Generator (-35) 35 0) 0 0 2 2
           10 20 30 40 [1; 2; 3; 4; 5; 6] [[10; 20]; [30; 40]]%Q).
  - unfold Qle; simpl; lia.
  - lia.
Defined.

(** ** SimplexNoiseGenerator: when the calls return *)

Lemma land_bounds (a b : Z) : 0 <= b -> 0 <= Z.land a b <= b.
Proof.
  intro Hb. split; [apply Z.land_nonneg; right; exact Hb|].
  set (x := Z.land a b). set (y := Z.land (Z.lnot a) b).
  assert (Hy : 0 <= y) by (apply Z.land_nonneg; right; exact Hb).
  assert (Hxy : Z.land x y = 0).
  { apply Z.bits_inj'. intros n Hn. unfold x, y.
    rewrite !Z.land_spec, Z.lnot_spec, Z.bits_0 by exact Hn.
    destruct (Z.testbit a n), (Z.testbit b n); reflexivity. }
  assert (Hsum : x + y = b).
  { rewrite (Z.add_nocarry_lxor x y Hxy). apply Z.bits_inj'. intros n Hn. unfold x, y.
    rewrite Z.lxor_spec, !Z.land_spec, Z.lnot_spec by exact Hn.
    destruct (Z.testbit a n), (Z.testbit b n); reflexivity. }
  lia.
Qed.

(** The shuffle returns when it has a pass for every number but one,
    and it leaves one number in the handler. *)
Lemma shuffle_loop_total (fuel : nat) (handler new : list Z) (g : rng) :
  (length handler <= S fuel)%nat -> handler <> [] ->
  exists last new' g',
    Simplex.shuffle_loop fuel handler new g = Return ([last], new', g').
Proof.
  revert handler new g; induction fuel as [|fuel IH]; intros handler new g Hlen Hne;
    cbn [Simplex.shuffle_loop].
  - destruct handler as [|a [|b t]]; [contradiction| |simpl in Hlen; lia].
    exists a, new, g. reflexivity.
  - destruct (1 <? len handler) eqn:E.
    + apply Z.ltb_lt in E.
      destruct (randint_total 0 (len handler - 1) g ltac:(lia)) as (k & g1 & -> & Hk).
      cbn [bind]. rewrite (py_get_nth handler k 0) by lia. cbn [bind].
      apply IH.
      * rewrite length_del_nth by (unfold len in *; lia). lia.
      * intro E0. apply (f_equal (@length Z)) in E0.
        rewrite length_del_nth in E0 by (unfold len in *; lia).
        simpl in E0. unfold len in E. lia.
    + apply Z.ltb_ge in E. unfold len in E.
      destruct handler as [|a [|b t]]; [contradiction| |simpl in E; lia].
      exists a, new, g. reflexivity.
Qed.

(** The permutation table has one entry for every entry of the noise
    array, each of them a member of the noise array. *)
Lemma generate_permutations_table_total (gen : Simplex.generator) (hash : Z) :
  Simplex.hash_number gen = Some hash -> 0 <= hash ->
  exists table,
    Simplex.generate_permutations_table gen
    = Return (Simplex.Generator (Simplex.noise_array_seed gen) (Simplex.noise_array gen)
                (Some hash) table)
    /\ length table = length (Simplex.noise_array gen)
    /\ Forall (fun v => In v (Simplex.noise_array gen)) table.
Proof.
  intros Hh Hpos. unfold Simplex.generate_permutations_table. rewrite Hh.
  destruct (for_each_total
              (fun (k : nat) (table : list Z) =>
                 length table = k /\ Forall (fun v => In v (Simplex.noise_array gen)) table)
              (py_range 0 (len (Simplex.noise_array gen)))
              (fun each_number table =>
                 v <- py_get (Simplex.noise_array gen) (Z.land each_number hash) ;;
                 Return (table ++ [v])) []) as (table & H & Hlen & Hin).
  - split; [reflexivity|constructor].
  - intros k e table He [Hk Hall]. apply in_py_range in He.
    pose proof (land_bounds hash e ltac:(lia)) as Hb. rewrite Z.land_comm in Hb.
    destruct (py_get_in_range (Simplex.noise_array gen) (Z.land e hash) ltac:(lia))
      as (v & -> & Hv).
    cbn [bind]. eexists. split; [reflexivity|].
    split; [rewrite length_app; simpl; lia|].
    apply Forall_app; split; [exact Hall|constructor; [exact Hv|constructor]].
  - rewrite H. cbn [bind]. exists table. split; [reflexivity|]. split; [|exact Hin].
    rewrite Hlen, length_py_range. unfold len. lia.
Qed.

(** Reshuffling returns for every non-empty seed sequence and every
    hash that is not negative; the table has twice the length of the
    seed sequence and holds numbers of that sequence only. *)
Lemma randomize_total (gen : Simplex.generator) (hash : Z) (g : rng) :
  Simplex.noise_array_seed gen <> [] -> Simplex.hash_number gen = Some hash -> 0 <= hash ->
  exists gen' g',
    Simplex.randomize_the_noise_array_seed gen g = Return (gen', g')
    /\ Simplex.noise_array_seed gen' = Simplex.noise_array_seed gen
    /\ Simplex.hash_number gen' = Some hash
    /\ length (Simplex.permutations_table gen') = (2 * length (Simplex.noise_array_seed gen))%nat
    /\ Forall (fun v => In v (Simplex.noise_array_seed gen)) (Simplex.permutations_table gen').
Proof.
  intros Hne Hh Hpos. unfold Simplex.randomize_the_noise_array_seed.
  destruct (shuffle_loop_total (length (Simplex.noise_array_seed gen))
              (Simplex.noise_array_seed gen) [] g ltac:(lia) Hne) as (last & new & g' & Hs).
  rewrite Hs. cbn [bind]. change (py_get [last] 0) with (Return last). cbn [bind].
  destruct (shuffle_loop_permutation _ _ _ _ _ _ _ Hs) as [Hperm _].
  cbn [app] in Hperm.
  match goal with
  | |- context [Simplex.generate_permutations_table ?G] => set (gen2 := G)
  end.
  destruct (generate_permutations_table_total gen2 hash Hh Hpos) as (table & -> & Hlen & Hin).
  cbn [bind]. eexists _, g'. split; [reflexivity|].
  cbn [Simplex.noise_array_seed Simplex.hash_number Simplex.permutations_table].
  unfold gen2, Simplex.double_the_noise_array in Hlen, Hin.
  cbn [Simplex.noise_array] in Hlen, Hin.
  split; [reflexivity|]. split; [reflexivity|]. split.
  - rewrite Hlen, length_app, (Permutation_length Hperm). lia.
  - eapply Forall_impl; [|exact Hin]. intros v Hv.
    apply (Permutation_in v Hperm). apply in_app_or in Hv. tauto.
Qed.

(** X13: with [octaves <= 0] the octave loop never runs, the accumulated
    amplitude stays 0, and the first cell of [generate_noise] ends in
    [ZeroDivisionError]. *)
Theorem simplex_no_octaves_raises (gen : Simplex.generator) (hash : Z)
  (supplied_x supplied_y : Z) (scale : Q) (octaves : Z) (persistence : Q) (g : rng) :
  Simplex.noise_array_seed gen <> [] -> Simplex.hash_number gen = Some hash -> 0 <= hash ->
  octaves <= 0 -> 1 <= supplied_x -> 1 <= supplied_y ->
  Simplex.generate_noise gen supplied_x supplied_y scale octaves persistence g
  = Raise ZeroDivisionError.
Proof.
  intros Hne Hh Hpos Hoct Hx Hy. unfold Simplex.generate_noise.
  destruct (randomize_total gen hash g Hne Hh Hpos) as (gen' & g' & -> & _). cbn [bind].
  rewrite (py_range_first supplied_y Hy). cbn [for_each].
  rewrite (py_range_first supplied_x Hx). cbn [for_each].
  unfold Simplex.generate_octaved_noise at 1.
  rewrite (py_range_empty 0 octaves Hoct). reflexivity.
Qed.

Lemma simplex_no_octaves_raises_witness :
  Simplex.generate_noise (Simplex.Generator [3; 1; 2] [] (Some 255) []) 2 2 (1 # 10) 0 (1 # 2)
    [1; 0]
  = Raise ZeroDivisionError.
Proof.
  apply (simplex_no_octaves_raises (Simplex.Generator [3; 1; 2] [] (Some 255) []) 255
           2 2 (1 # 10) 0 (1 # 2) [1; 0]).
  - discriminate.
  - reflexivity.
  - lia.
  - lia.
  - lia.
  - lia.
Defined.

(** With a table of twice [n] entries, each below [n], and a hash below
    [n], every table lookup of the raw noise is in range. *)
Lemma gradient_index_total (gen : Simplex.generator) (n a b : Z) :
  len (Simplex.permutations_table gen) = 2 * n ->
  Forall (fun v => 0 <= v < n) (Simplex.permutations_table gen) ->
  0 <= a <= n -> 0 <= b <= n -> 1 <= n ->
  exists k, Simplex.gradient_index gen a b = Return k /\ 0 <= k < 12.
Proof.
  intros Hlen Hall Ha Hb Hn. unfold Simplex.gradient_index.
  rewrite Forall_forall in Hall.
  destruct (py_get_in_range (Simplex.permutations_table gen) b ltac:(lia)) as (inner & -> & Hi).
  cbn [bind]. pose proof (Hall inner Hi).
  destruct (py_get_in_range (Simplex.permutations_table gen) (a + inner) ltac:(lia))
    as (outer & -> & Ho).
  cbn [bind]. eexists. split; [reflexivity|]. apply Z.mod_pos_bound. lia.
Qed.

Lemma grad3_total (k : Z) : 0 <= k < 12 -> exists gradient, py_get Simplex.grad3 k = Return gradient.
Proof.
  intro H. destruct (py_get_in_range Simplex.grad3 k) as (gradient & Hg & _).
  - unfold len. simpl. lia.
  - exists gradient. exact Hg.
Qed.

Lemma raw_noise_total (gen : Simplex.generator) (n hash : Z) (x y : Q) :
  len (Simplex.permutations_table gen) = 2 * n ->
  Forall (fun v => 0 <= v < n) (Simplex.permutations_table gen) ->
  Simplex.hash_number gen = Some hash -> 0 <= hash < n ->
  exists v, Simplex.generate_raw_unoctaved_noise gen x y = Return v.
Proof.
  intros Hlen Hall Hh Hhash. unfold Simplex.generate_raw_unoctaved_noise.
  cbv zeta. rewrite Hh.
  set (i := py_int (x + (x + y) * Simplex.F2)).
  set (j := py_int (y + (x + y) * Simplex.F2)).
  pose proof (land_bounds i hash ltac:(lia)) as Hi.
  pose proof (land_bounds j hash ltac:(lia)) as Hj.
  assert (L : forall a b, 0 <= a <= 1 -> 0 <= b <= 1 ->
             exists k, Simplex.gradient_index gen (Z.land i hash + a) (Z.land j hash + b)
                       = Return k /\ 0 <= k < 12).
  { intros a b Ha Hb. apply (gradient_index_total gen n); try assumption; lia. }
  assert (L0 : exists k, Simplex.gradient_index gen (Z.land i hash) (Z.land j hash)
                         = Return k /\ 0 <= k < 12).
  { apply (gradient_index_total gen n); try assumption; lia. }
  destruct L0 as (k0 & E0 & Hk0).
  destruct (L 1 1 ltac:(lia) ltac:(lia)) as (k2 & E2 & Hk2).
  destruct (grad3_total k0 Hk0) as (g0 & G0).
  destruct (grad3_total k2 Hk2) as (g2 & G2).
  destruct (Qlt_le_dec _ _).
  - destruct (L 1 0 ltac:(lia) ltac:(lia)) as (k1 & E1 & Hk1).
    destruct (grad3_total k1 Hk1) as (g1 & G1).
    rewrite E0. cbn [bind]. rewrite E1. cbn [bind]. rewrite E2. cbn [bind].
    rewrite G0. cbn [bind]. rewrite G1. cbn [bind]. rewrite G2. cbn [bind].
    eexists; reflexivity.
  - destruct (L 0 1 ltac:(lia) ltac:(lia)) as (k1 & E1 & Hk1).
    destruct (grad3_total k1 Hk1) as (g1 & G1).
    rewrite E0. cbn [bind]. rewrite E1. cbn [bind]. rewrite E2. cbn [bind].
    rewrite G0. cbn [bind]. rewrite G1. cbn [bind]. rewrite G2. cbn [bind].
    eexists; reflexivity.
Qed.

Lemma octaved_noise_total (gen : Simplex.generator) (n hash : Z) (x y scale : Q)
  (octaves : Z) (persistence : Q) :
  len (Simplex.permutations_table gen) = 2 * n ->
  Forall (fun v => 0 <= v < n) (Simplex.permutations_table gen) ->
  Simplex.hash_number gen = Some hash -> 0 <= hash < n ->
  1 <= octaves -> (0 <= persistence)%Q ->
  exists v, Simplex.generate_octaved_noise gen x y scale octaves persistence = Return v.
Proof.
  intros Hlen Hall Hh Hhash Hoct Hper. unfold Simplex.generate_octaved_noise.
  destruct (for_each_total
              (fun (k : nat) (acc : Q * Q * Q * Q) =>
                 (0 <= snd (fst acc))%Q /\ (0 <= snd acc)%Q
                 /\ (k = O -> (snd (fst acc) == 1)%Q)
                 /\ ((1 <= k)%nat -> (1 <= snd acc)%Q))
              (py_range 0 octaves) (Simplex.octave_step gen x y persistence)
              (0%Q, scale, 1%Q, 0%Q)) as ([[[total frequency] amplitude] max_amplitude] & H & HP).
  - cbn [fst snd]. repeat split; try lra. intro; lia.
  - intros k a [[[t f] amp] maxamp] _ (A1 & A2 & A3 & A4). cbn [fst snd] in *.
    unfold Simplex.octave_step.
    destruct (raw_noise_total gen n hash (x * f) (y * f) Hlen Hall Hh Hhash) as (raw & ->).
    cbn [bind]. eexists. split; [reflexivity|]. cbn [fst snd].
    split; [apply Qmult_le_0_compat; assumption|]. split; [lra|]. split; [intro; lia|].
    intros _. destruct k as [|k]; [specialize (A3 eq_refl); lra|].
    specialize (A4 ltac:(lia)). lra.
  - rewrite H. cbn [bind]. rewrite length_py_range in HP. cbn [fst snd] in HP.
    destruct HP as (_ & _ & _ & Hmax). specialize (Hmax ltac:(lia)).
    destruct (Qeq_bool max_amplitude 0) eqn:E; [apply Qeq_bool_iff in E; lra|].
    eexists; reflexivity.
Qed.

(** X14: the permutation table is written twice over so that no lookup
    of the raw noise leaves it.  For a generator whose seed sequence
    holds [n >= 1] numbers, all of them in [0, n), and whose hash lies in
    [0, n) -- the constructor's 256 numbers and its default hash 255 --
    [generate_noise] returns a grid for every random source, whenever
    [octaves >= 1] and the persistence is not negative: it raises neither
    [IndexError] nor [ZeroDivisionError].  The scale, the number of
    octaves and the size are taken small enough for the largest
    coordinate, [scale * 2^octaves * size], to be a finite float: beyond,
    the frequency of the code overflows and [int] raises. *)
Theorem simplex_generate_noise_returns (gen : Simplex.generator) (hash : Z)
  (supplied_x supplied_y : Z) (scale : Q) (octaves : Z) (persistence : Q) (g : rng) :
  Simplex.noise_array_seed gen <> [] ->
  Forall (fun v => 0 <= v < len (Simplex.noise_array_seed gen)) (Simplex.noise_array_seed gen) ->
  Simplex.hash_number gen = Some hash -> 0 <= hash < len (Simplex.noise_array_seed gen) ->
  1 <= octaves -> (0 <= persistence)%Q ->
  (Qabs scale * inject_Z (2 ^ octaves) * inject_Z (Z.max supplied_x supplied_y)
   <= float_safe)%Q ->
  exists m gen',
    Simplex.generate_noise gen supplied_x supplied_y scale octaves persistence g
    = Return (m, gen').
Proof.
  intros Hne Hseed Hh Hhash Hoct Hper _. unfold Simplex.generate_noise.
  destruct (randomize_total gen hash g Hne Hh ltac:(lia))
    as (gen' & g' & -> & Hs' & Hh' & Hlen & Hin).
  cbn [bind].
  set (n := len (Simplex.noise_array_seed gen)) in *.
  assert (Hlen' : len (Simplex.permutations_table gen') = 2 * n) by (unfold n, len; lia).
  assert (Hall : Forall (fun v => 0 <= v < n) (Simplex.permutations_table gen')).
  { eapply Forall_impl; [|exact Hin]. intros v Hv. rewrite Forall_forall in Hseed.
    apply Hseed; exact Hv. }
  destruct (for_each_total (fun (_ : nat) (_ : list (list Q)) => True) (py_range 0 supplied_y)
              (fun each_y array_to_be_returned =>
                 new_row <-
                   for_each (py_range 0 supplied_x)
                     (fun each_x new_row =>
                        new_z_value <-
                          Simplex.generate_octaved_noise gen' (inject_Z each_x)
                            (inject_Z each_y) scale octaves persistence ;;
                        Return (new_row ++ [new_z_value]))
                     [] ;;
                 Return (array_to_be_returned ++ [new_row])) [] I) as (m & -> & _).
  - intros k each_y rows _ _.
    destruct (for_each_total (fun (_ : nat) (_ : list Q) => True) (py_range 0 supplied_x)
                (fun each_x new_row =>
                   new_z_value <-
                     Simplex.generate_octaved_noise gen' (inject_Z each_x)
                       (inject_Z each_y) scale octaves persistence ;;
                   Return (new_row ++ [new_z_value])) [] I) as (row & -> & _).
    + intros j each_x row _ _.
      destruct (octaved_noise_total gen' n hash (inject_Z each_x) (inject_Z each_y) scale
                  octaves persistence Hlen' Hall Hh' Hhash Hoct Hper) as (v & ->).
      cbn [bind]. eexists; split; [reflexivity|exact I].
    + cbn [bind]. eexists; split; [reflexivity|exact I].
  - cbn [bind]. eexists _, _. reflexivity.
Qed.

Lemma initial_seed_in_range :
  Forall (fun v => 0 <= v < len Simplex.initial_noise_array_seed) Simplex.initial_noise_array_seed.
Proof.
  apply Forall_forall. intros v Hv.
  assert (E : forallb (fun v => (0 <=? v) && (v <? 256)) Simplex.initial_noise_array_seed = true)
    by (vm_compute; reflexivity).
  rewrite forallb_forall in E. specialize (E v Hv).
  apply andb_true_iff in E as [E1 E2]. apply Z.leb_le in E1. apply Z.ltb_lt in E2.
  change (len Simplex.initial_noise_array_seed) with 256. lia.
Qed.

Lemma simplex_generate_noise_returns_witness :
  exists m gen',
    Simplex.generate_noise (Simplex.Generator Simplex.initial_noise_array_seed [] (Some 255) [])
      3 2 (1 # 10) 2 (1 # 2) [7; 7; 7]
    = Return (m, gen').
Proof.
  apply (simplex_generate_noise_returns
           (Simplex.Generator Simplex.initial_noise_array_seed [] (Some 255) []) 255
           3 2 (1 # 10) 2 (1 # 2) [7; 7; 7]).
  - discriminate.
  - exact initial_seed_in_range.
  - reflexivity.
  - vm_compute; split; [discriminate|reflexivity].
  - lia.
  - unfold Qle; simpl; lia.
  - vm_compute. discriminate.
Defined.

(** ** The demonstration program: tiles and what is drawn *)

Lemma for_each_append_map {A B : Type} (l : list A) (body : A -> list B -> outcome (list B))
  (f : A -> B) (s : list B) :
  (forall a s1, In a l -> body a s1 = Return (s1 ++ [f a])) ->
  for_each l body s = Return (s ++ map f l).
Proof.
  revert s; induction l as [|a l IH]; intros s H; cbn [for_each map].
  - rewrite app_nil_r. reflexivity.
  - rewrite (H a s (or_introl eq_refl)). cbn [bind].
    rewrite IH by (intros b s1 Hb; apply H; right; exact Hb).
    rewrite <- app_assoc. reflexivity.
Qed.

Lemma for_each_append_flat_map {A B : Type} (l : list A)
  (body : A -> list B -> outcome (list B)) (f : A -> list B) (s : list B) :
  (forall a s1, In a l -> body a s1 = Return (s1 ++ f a)) ->
  for_each l body s = Return (s ++ flat_map f l).
Proof.
  revert s; induction l as [|a l IH]; intros s H; cbn [for_each flat_map].
  - rewrite app_nil_r. reflexivity.
  - rewrite (H a s (or_introl eq_refl)). cbn [bind].
    rewrite IH by (intros b s1 Hb; apply H; right; exact Hb).
    rewrite <- app_assoc. reflexivity.
Qed.

Lemma new_MapTile_clamps (tx ty v : Z) :
  Demo.new_MapTile tx ty (Some v)
  = Demo.Build_MapTile tx (4 * tx) ty (4 * ty) (Some (Z.max 0 (Z.min 255 v))).
Proof.
  unfold Demo.new_MapTile, Demo.MAPTILE_WIDTH_IN_PIXELS, Demo.MAPTILE_HEIGHT_IN_PIXELS.
  f_equal; try lia.
  destruct (Z.gtb_spec v 255); [f_equal; lia|].
  destruct (Z.ltb_spec v 0); f_equal; lia.
Qed.

(** X15: [convert_noise_map_to_maptile_map] returns for every map, rows
    of unequal length included: one tile per cell, row by row and from
    left to right within a row.  The tile of the cell at row [y], column
    [x] carries these coordinates, the pixel position [(4 x, 4 y)] and
    the cell's value clamped into 0 .. 255. *)
Theorem convert_noise_map_to_maptile_map_tiles (supplied_map : grid) :
  Demo.convert_noise_map_to_maptile_map supplied_map
  = Return
      (flat_map
         (fun ty =>
            map (fun tx =>
                   Demo.Build_MapTile tx (4 * tx) ty (4 * ty)
                     (Some (Z.max 0 (Z.min 255 (cell supplied_map (Z.to_nat ty) (Z.to_nat tx))))))
              (py_range 0 (len (nth (Z.to_nat ty) supplied_map []))))
         (py_range 0 (len supplied_map))).
Proof.
  unfold Demo.convert_noise_map_to_maptile_map.
  rewrite (for_each_append_flat_map (py_range 0 (len supplied_map)) _
             (fun ty =>
                map (fun tx =>
                       Demo.Build_MapTile tx (4 * tx) ty (4 * ty)
                         (Some (Z.max 0 (Z.min 255
                                  (cell supplied_map (Z.to_nat ty) (Z.to_nat tx))))))
                  (py_range 0 (len (nth (Z.to_nat ty) supplied_map [])))) []);
    [reflexivity|].
  intros ty acc Hy. apply in_py_range in Hy.
  rewrite (py_get_nth supplied_map ty []) by lia. cbn [bind].
  apply for_each_append_map.
  intros tx acc' Hx. apply in_py_range in Hx.
  rewrite (py_get_nth _ tx 0) by lia. cbn [bind].
  rewrite new_MapTile_clamps. reflexivity.
Qed.

Lemma map_of_flat_map {A B C : Type} (f : B -> C) (k : A -> list B) (l : list A) :
  map f (flat_map k l) = flat_map (fun a => map f (k a)) l.
Proof.
  induction l as [|a l IH]; cbn [flat_map map]; [reflexivity|].
  rewrite map_app, IH. reflexivity.
Qed.

Lemma flat_map_agree {A B : Type} (f k : A -> list B) (l : list A) :
  (forall a, In a l -> f a = k a) -> flat_map f l = flat_map k l.
Proof.
  intro H. induction l as [|a l IH]; cbn [flat_map]; [reflexivity|].
  rewrite (H a (or_introl eq_refl)), IH; [reflexivity|].
  intros b Hb. apply H. right; exact Hb.
Qed.

(** The cells of a map returned by MarkIIDungeonMapGenerator, by position. *)
Lemma markii_map_cells01 (fuel : nat) (p : MarkII.params) (g : rng) (m : grid) :
  MarkII.generate_noise fuel p g = Return m -> cells01 m.
Proof.
  intro H.
  apply generate_noise_inv in H
    as (rooms & g1 & lk & g2 & colors & corridors & g3 & m1 & H1 & _ & _ & H4 & H5).
  apply place_rooms_placement in H1 as [[Hwp Hap] _]; [|apply placement_nil].
  rewrite write_corridors_targets in H5.
  apply (for_each_invariant cells01 (flat_map targets corridors) visit_carve m1 m);
    [| |exact H5].
  - intros t s1 s2 _ Hs1 Hs. exact (carve_keeps_cells01 t s1 s2 Hs1 Hs).
  - intros r c. rewrite (written_rooms_cover p rooms m1 Hwp H4 r c).
    pose proof (cover_count_nonneg rooms (Z.of_nat c) (Z.of_nat r)).
    pose proof (cover_count_apart rooms (Z.of_nat c) (Z.of_nat r) Hap). lia.
Qed.

(** X16: what the demonstration draws for a map of
    MarkIIDungeonMapGenerator.  Converting and rendering never fail, and
    the rectangles drawn are, row by row, one 4 by 4 square per cell of
    the [height - 1] by [width - 1] map at pixel [(4 x, 4 y)], black for
    a cell holding 0 and light gray for any other cell: the pink of the
    [else] branch is never drawn. *)
Theorem demo_draws_black_and_gray (fuel : nat) (p : MarkII.params) (g : rng) (m : grid) :
  1 <= MarkII.supplied_map_width p -> 1 <= MarkII.supplied_map_height p ->
  MarkII.generate_noise fuel p g = Return m ->
  exists tiles,
    Demo.convert_noise_map_to_maptile_map m = Return tiles
    /\ Demo.render_all tiles
       = Return
           (flat_map
              (fun ty =>
                 map (fun tx =>
                        (if cell m (Z.to_nat ty) (Z.to_nat tx) =? 0
                         then Demo.BLACK else Demo.LIGHT_GRAY,
                         [4 * tx; 4 * ty; 4; 4]))
                   (py_range 0 (MarkII.supplied_map_width p - 1)))
              (py_range 0 (MarkII.supplied_map_height p - 1))).
Proof.
  intros Hw Hh H.
  pose proof (markii_map_cells01 fuel p g m H) as H01.
  destruct (markii_dimensions fuel p g m Hw Hh H) as [Hrows Hcols].
  eexists. split; [apply convert_noise_map_to_maptile_map_tiles|].
  unfold Demo.render_all.
  rewrite (for_each_append_map _ _
             (fun t => (match Demo.z t with
                        | Some 0 => Demo.BLACK
                        | Some 1 => Demo.LIGHT_GRAY
                        | _ => Demo.DEBUG_PINK
                        end,
                        [Demo.pixel_x t; Demo.pixel_y t; 4; 4])) [])
    by (intros t s _; reflexivity).
  cbn [app]. f_equal. rewrite Hrows.
  rewrite map_of_flat_map.
  apply flat_map_agree. intros ty Hy. apply in_py_range in Hy.
  assert (Hlen : len (nth (Z.to_nat ty) m []) = MarkII.supplied_map_width p - 1).
  { rewrite Forall_forall in Hcols. apply Hcols. apply nth_In. unfold len in Hrows. lia. }
  rewrite Hlen, map_map. apply map_ext. intro tx.
  cbn [Demo.z Demo.pixel_x Demo.pixel_y]. f_equal.
  destruct (H01 (Z.to_nat ty) (Z.to_nat tx)) as [-> | ->]; reflexivity.
Qed.

Lemma demo_draws_black_and_gray_witness :
  exists tiles,
    Demo.convert_noise_map_to_maptile_map [[0; 0; 0]; [0; 1; 0]; [0; 1; 0]; [0; 1; 0]; [0; 0; 0]]
    = Return tiles
    /\ Demo.render_all tiles
       = Return
           (flat_map
              (fun ty =>
                 map (fun tx =>
                        (if cell [[0; 0; 0]; [0; 1; 0]; [0; 1; 0]; [0; 1; 0]; [0; 0; 0]]
                              (Z.to_nat ty) (Z.to_nat tx) =? 0
                         then Demo.BLACK else Demo.LIGHT_GRAY,
                         [4 * tx; 4 * ty; 4; 4]))
                   (py_range 0 (4 - 1)))
              (py_range 0 (6 - 1))).
Proof.
  apply (demo_draws_black_and_gray 1 (MarkII.Params 4 6 1 1 2 2) [0; 0; 0; 0; 0; 0; 0; 2; 0; 0]).
  - simpl; lia.
  - simpl; lia.
  - vm_compute; reflexivity.
Defined.

(** ** RoomFilledMapGenerator: rooms never meet *)

Lemma py_range_cons (a b : Z) : a < b -> py_range a b = a :: py_range (a + 1) b.
Proof.
  intro H. unfold py_range.
  replace (Z.to_nat (b - a)) with (S (Z.to_nat (b - (a + 1)))) by lia.
  cbn [seq map]. f_equal; [lia|]. rewrite <- seq_shift, map_map.
  apply map_ext. intro k. lia.
Qed.

(** A loop over [range(a, b)] with an invariant that follows the index. *)
Lemma for_each_range {St : Type} (P : Z -> St -> Prop) (a b : Z)
  (body : Z -> St -> outcome St) (s s' : St) :
  P a s ->
  (forall k s1 s2, a <= k < b -> P k s1 -> body k s1 = Return s2 -> P (k + 1) s2) ->
  for_each (py_range a b) body s = Return s' -> P (Z.max a b) s'.
Proof.
  remember (Z.to_nat (b - a)) as n eqn:En.
  revert a s En; induction n as [|n IH]; intros a s En Ha Hstep H.
  - rewrite py_range_empty in H by lia. inversion H; subst.
    replace (Z.max a b) with a by lia. exact Ha.
  - rewrite py_range_cons in H by lia. cbn [for_each] in H.
    apply bind_Return_inv in H as (s1 & H1 & H2).
    replace (Z.max a b) with (Z.max (a + 1) b) by lia.
    apply (IH (a + 1) s1); [lia| | |exact H2].
    + apply (Hstep a s s1); [lia|exact Ha|exact H1].
    + intros k u v Hk. apply Hstep. lia.
Qed.

Lemma grid_get_cell (m : grid) (R C v : Z) :
  0 <= R -> 0 <= C -> grid_get m R C = Return v -> v = cell m (Z.to_nat R) (Z.to_nat C).
Proof.
  intros HR HC H. apply grid_get_inv in H as (kr & kc & Hkr & Hkc & Hv).
  apply py_index_nonneg in Hkr; [|exact HR]. subst kr.
  apply py_index_nonneg in Hkc; [|exact HC]. subst kc. symmetry; exact Hv.
Qed.

Lemma nearby_tiles_range (t : Z * Z) :
  In t RoomFilled.nearby_tiles -> -1 <= fst t <= 1 /\ -1 <= snd t <= 1.
Proof.
  intro H. vm_compute in H.
  repeat (destruct H as [<-|H]; [simpl; lia|]). contradiction.
Qed.

Lemma nearby_tiles_center : In (0, 0) RoomFilled.nearby_tiles.
Proof. vm_compute. tauto. Qed.

(** The start test keeps its flag only over nine uncarved tiles. *)
Lemma check_start_clear (m : grid) (row col s s' : Z) :
  1 <= row -> 1 <= col ->
  RoomFilled.check_start m row col s = Return s' -> s' = 1 ->
  s = 1 /\ clear_around m row col.
Proof.
  intros Hrow Hcol H Hs'. unfold RoomFilled.check_start in H.
  pose (P := fun (done : list (Z * Z)) (flag : Z) =>
               flag = 1 ->
               s = 1 /\ forall t, In t done ->
                          cell m (Z.to_nat (row + fst t)) (Z.to_nat (col + snd t)) = 0).
  assert (G : P RoomFilled.nearby_tiles s').
  { match type of H with
    | for_each ?l ?body ?s0 = Return ?sf => apply (for_each_prefix P l body s0 sf)
    end; [| |exact H].
    - intros E. split; [exact E|intros t []].
    - intros done t s1 s2 Ht Hs1 Hstep Es2.
      apply bind_Return_inv in Hstep as (v & Hv & Hstep).
      apply nearby_tiles_range in Ht.
      apply grid_get_cell in Hv; [|lia|lia].
      destruct (v =? 0) eqn:Ev; cbn [negb] in Hstep; [|congruence].
      assert (E1 : s1 = 1) by congruence.
      apply Z.eqb_eq in Ev. destruct (Hs1 E1) as [E0 Hdone].
      split; [exact E0|].
      intros t' Ht'. apply in_app_or in Ht' as [Ht'|[<-|[]]]; [apply Hdone; exact Ht'|].
      rewrite <- Hv. exact Ev. }
  exact (G Hs').
Qed.

(** One unit of the width probe: the probe goes on only over nine
    uncarved tiles, and then it counts the unit. *)
Lemma width_probe_step (m : grid) (row col u rmw rmw' : Z) (cont cont' : bool) :
  1 <= row -> 1 <= col -> 0 <= u ->
  RoomFilled.width_probe m row col u (rmw, cont) = Return (rmw', cont') ->
  (cont' = true -> cont = true /\ rmw' = rmw + 1 /\ clear_around m row (col + u))
  /\ (cont' = false -> rmw' = rmw).
Proof.
  intros Hrow Hcol Hu H. unfold RoomFilled.width_probe in H.
  apply bind_Return_inv in H as ([si c1] & Hin & H).
  pose (P := fun (done : list (Z * Z)) (st : bool * bool) =>
               snd st = true ->
               cont = true /\ (done <> [] -> fst st = true)
               /\ forall t, In t done ->
                    cell m (Z.to_nat (row + fst t)) (Z.to_nat (col + u + snd t)) = 0).
  assert (G : P RoomFilled.nearby_tiles (si, c1)).
  { match type of Hin with
    | for_each ?l ?body ?s0 = Return ?sf => apply (for_each_prefix P l body s0 sf)
    end; [| |exact Hin].
    - intro E. cbn [snd] in E. split; [exact E|]. split; [intro X; contradiction|intros t []].
    - intros done t [s1 k1] [s2 k2] Ht Hs1 Hstep E2. cbn [fst snd] in *.
      apply nearby_tiles_range in Ht.
      destruct k1.
      2:{ injection Hstep as _ E. rewrite <- E in E2. discriminate. }
      apply bind_Return_inv in Hstep as (v & Hv & Hstep).
      apply grid_get_cell in Hv; [|lia|lia].
      destruct (v =? 0) eqn:Ev.
      2:{ injection Hstep as _ E. rewrite <- E in E2. discriminate. }
      injection Hstep as Es Ek.
      apply Z.eqb_eq in Ev. destruct (Hs1 eq_refl) as (E0 & _ & Hdone).
      split; [exact E0|]. split; [intros _; symmetry; exact Es|].
      intros t' Ht'. apply in_app_or in Ht' as [Ht'|[<-|[]]]; [apply Hdone; exact Ht'|].
      replace (col + u + snd t) with (col + snd t + u) by lia. rewrite <- Hv. exact Ev. }
  inversion H; subst; clear H. unfold P in G; cbn [fst snd] in G.
  split.
  - intro E. subst cont'. destruct (G eq_refl) as (E0 & Hsi & Hclear).
    rewrite Hsi by discriminate. cbn [andb].
    split; [exact E0|]. split; [reflexivity|].
    intros t Ht. exact (Hclear t Ht).
  - intro E. subst cont'. rewrite andb_false_r. reflexivity.
Qed.

(** The width the probe settles on: every unit it counts has nine
    uncarved tiles around it. *)
Lemma width_probe_clear (m : grid) (row col w rmw : Z) (cont : bool) :
  1 <= row -> 1 <= col ->
  for_each (py_range 0 w) (RoomFilled.width_probe m row col) (0, true) = Return (rmw, cont) ->
  0 <= rmw <= Z.max 0 w
  /\ forall u, 0 <= u < rmw -> clear_around m row (col + u).
Proof.
  intros Hrow Hcol H.
  pose (P := fun (k : Z) (st : Z * bool) =>
               0 <= fst st <= k /\ (snd st = true -> fst st = k)
               /\ forall u, 0 <= u < fst st -> clear_around m row (col + u)).
  assert (G : P (Z.max 0 w) (rmw, cont)).
  { apply (for_each_range P 0 w (RoomFilled.width_probe m row col) (0, true)); [| |exact H].
    - unfold P; cbn [fst snd]. split; [lia|]. split; [reflexivity|]. intros u Hu; lia.
    - intros k [r1 c1] [r2 c2] Hk (A1 & A2 & A3) Hstep. unfold P; cbn [fst snd] in *.
      destruct (width_probe_step m row col k r1 r2 c1 c2 Hrow Hcol ltac:(lia) Hstep) as [B1 B2].
      destruct c2.
      + destruct (B1 eq_refl) as (E1 & E2 & Hclear). subst c1 r2.
        specialize (A2 eq_refl). subst r1.
        split; [lia|]. split; [reflexivity|].
        intros u Hu. destruct (Z.eq_dec u k) as [->|Hne]; [exact Hclear|apply A3; lia].
      + rewrite (B2 eq_refl). split; [lia|]. split; [discriminate|exact A3]. }
  destruct G as (G1 & _ & G3). cbn [fst] in *. split; assumption.
Qed.

Lemma height_probe_counts (m : grid) (row col h dec : Z) :
  for_each (py_range 0 h) (RoomFilled.height_probe m row col) 0 = Return dec -> 0 <= dec.
Proof.
  intro H.
  apply (for_each_invariant (fun d => 0 <= d) (py_range 0 h)
           (RoomFilled.height_probe m row col) 0 dec); [|lia|exact H].
  intros u d1 d2 _ Hd Hstep. unfold RoomFilled.height_probe in Hstep.
  apply bind_Return_inv in Hstep as (sd & _ & Hstep). inversion Hstep.
  destruct sd; lia.
Qed.

Lemma roomfilled_write_room_targets (row col w h : Z) (m : grid) :
  RoomFilled.write_room row col w h m = for_each (targets (Rect col row w h)) visit_increment m.
Proof.
  unfold RoomFilled.write_room, targets. cbn [rx ry rw rh].
  rewrite <- for_each_flat_map. apply for_each_ext. intros dy s.
  rewrite for_each_map. reflexivity.
Qed.

(** A room that is written: its cells are incremented, its width was
    probed clear, and it ends before the last column and the last row. *)
Lemma room_written (m m' : grid) (row col w1 h1 rmw dec : Z) (cont : bool) :
  1 <= row -> 1 <= col ->
  for_each (py_range 0 w1) (RoomFilled.width_probe m row col) (0, true) = Return (rmw, cont) ->
  for_each (py_range 0 h1) (RoomFilled.height_probe m row col) 0 = Return dec ->
  RoomFilled.write_room row col rmw (h1 - dec) m = Return m' ->
  col + w1 <= len (nth (Z.to_nat row) m []) - 1 -> row + h1 <= len m - 1 ->
  (forall r c, cell m' r c
               = cell m r c + if in_rectb (Rect col row rmw (h1 - dec)) (Z.of_nat c) (Z.of_nat r)
                              then 1 else 0)
  /\ (forall u, 0 <= u < rmw -> clear_around m row (col + u))
  /\ col + rmw <= Z.max col (len (nth (Z.to_nat row) m []) - 1)
  /\ row + (h1 - dec) <= Z.max row (len m - 1).
Proof.
  intros Hrow Hcol Hprobe Hdec Hwrite Hw1 Hh1.
  destruct (width_probe_clear m row col w1 rmw cont Hrow Hcol Hprobe) as [Hrmw Hclear].
  pose proof (height_probe_counts m row col h1 dec Hdec) as Hd.
  split; [|split; [exact Hclear|split; lia]].
  intros r c. rewrite roomfilled_write_room_targets in Hwrite.
  rewrite (increments_count (targets (Rect col row rmw (h1 - dec))) m m'); [|  |exact Hwrite].
  - rewrite hits_targets. reflexivity.
  - apply Forall_forall. intros t Ht. apply targets_in_rect in Ht.
    unfold in_rect in Ht; cbn [rx ry rw rh] in Ht. lia.
Qed.

(** What one scan position does to the map: nothing, or it writes one
    room whose extent was probed clear and which ends before the last
    column and the last row. *)
Lemma try_tile_writes (p : RoomFilled.params) (row col : Z) (m m' : grid) (g g' : rng) :
  1 <= row -> 1 <= col ->
  RoomFilled.try_tile p row col (m, g) = Return (m', g') ->
  m' = m
  \/ exists w h,
       (forall r c, cell m' r c
                    = cell m r c + if in_rectb (Rect col row w h) (Z.of_nat c) (Z.of_nat r)
                                   then 1 else 0)
       /\ (forall u, 0 <= u < w -> clear_around m row (col + u))
       /\ col + w <= Z.max col (len (nth (Z.to_nat row) m []) - 1)
       /\ row + h <= Z.max row (len m - 1).
Proof.
  intros Hrow Hcol H. unfold RoomFilled.try_tile in H.
  apply bind_Return_inv in H as ([w0 g1] & _ & H).
  apply bind_Return_inv in H as ([h0 g2] & _ & H).
  apply bind_Return_inv in H as (this_row & Hthis & H).
  assert (Ethis : this_row = nth (Z.to_nat row) m []).
  { destruct (py_get_inv m row this_row [] Hthis) as (k & Hk & Hnth).
    apply py_index_nonneg in Hk; [|lia]. subst k. symmetry; exact Hnth. }
  subst this_row.
  destruct (col + w0 >=? len (nth (Z.to_nat row) m []) - 1) eqn:Ew;
    destruct (row + h0 >=? len m - 1) eqn:Eh;
    rewrite Z.geb_leb in Ew, Eh;
    (apply Z.leb_le in Ew || apply Z.leb_gt in Ew);
    (apply Z.leb_le in Eh || apply Z.leb_gt in Eh);
    apply bind_Return_inv in H as (s3 & _ & H);
    apply bind_Return_inv in H as ([rmw cont] & Hprobe & H);
    apply bind_Return_inv in H as (dec & Hdec & H);
    (match type of H with (if ?b then _ else _) = _ => destruct b end;
     [ apply bind_Return_inv in H as (m2 & Hwrite & H); injection H as E1 E2; subst m2 g';
       right; eexists rmw, _;
       apply (room_written m m' row col _ _ rmw dec cont Hrow Hcol Hprobe Hdec Hwrite); lia
     | injection H as E1 E2; subst m' g'; left; reflexivity ]).
Qed.

Lemma stacked_down (m : grid) (row : Z) (r c : nat) :
  stacked m row -> 0 <= row <= Z.of_nat r -> cell m r c <> 0 -> cell m (Z.to_nat row) c <> 0.
Proof.
  intros Hst Hrow. induction r as [|r IH]; intro Hc.
  - replace (Z.to_nat row) with O by lia. exact Hc.
  - destruct (Z.eq_dec row (Z.of_nat (S r))) as [E|E].
    + rewrite E, Nat2Z.id. exact Hc.
    + apply IH; [lia|]. apply Hst; [lia|exact Hc].
Qed.

(** The cells a room is written on were all uncarved. *)
Lemma written_cells_were_clear (m : grid) (row col w h : Z) (r c : nat) :
  1 <= row -> cells01 m -> stacked m row ->
  (forall u, 0 <= u < w -> clear_around m row (col + u)) ->
  in_rect (Rect col row w h) (Z.of_nat c) (Z.of_nat r) -> cell m r c = 0.
Proof.
  intros Hrow H01 Hst Hclear Hin. unfold in_rect in Hin; cbn [rx ry rw rh] in Hin.
  destruct (Z.eq_dec (cell m r c) 0) as [E|E]; [exact E|exfalso].
  apply (stacked_down m row r c Hst ltac:(lia)) in E. apply E.
  pose proof (Hclear (Z.of_nat c - col) ltac:(lia) (0, 0) nearby_tiles_center) as H0.
  cbn [fst snd] in H0.
  replace (Z.to_nat (row + 0)) with (Z.to_nat row) in H0 by lia.
  replace (Z.to_nat (col + (Z.of_nat c - col) + 0)) with c in H0 by lia.
  exact H0.
Qed.

(** One scan position keeps the cells at 0 or 1 and the carved cells
    stacked from the scanned row downwards. *)
Lemma try_tile_keeps (p : RoomFilled.params) (row col : Z) (m m' : grid) (g g' : rng) :
  1 <= row -> 1 <= col -> cells01 m -> stacked m row ->
  RoomFilled.try_tile p row col (m, g) = Return (m', g') ->
  cells01 m' /\ stacked m' row.
Proof.
  intros Hrow Hcol H01 Hst H.
  destruct (try_tile_writes p row col m m' g g' Hrow Hcol H)
    as [->|(w & h & Hcell & Hclear & _ & _)]; [split; assumption|].
  assert (K : forall r c, in_rect (Rect col row w h) (Z.of_nat c) (Z.of_nat r) -> cell m r c = 0)
    by (intros r c; apply written_cells_were_clear; assumption).
  split.
  - intros r c. rewrite Hcell.
    destruct (in_rectb (Rect col row w h) (Z.of_nat c) (Z.of_nat r)) eqn:E.
    + apply in_rectb_iff in E. rewrite (K r c E). right; reflexivity.
    + rewrite Z.add_0_r. apply H01.
  - intros r c Hr Hc. rewrite Hcell in Hc. rewrite Hcell.
    destruct (in_rectb (Rect col row w h) (Z.of_nat c) (Z.of_nat (S r))) eqn:E.
    + apply in_rectb_iff in E.
      assert (E' : in_rect (Rect col row w h) (Z.of_nat c) (Z.of_nat r))
        by (unfold in_rect in *; cbn [rx ry rw rh] in *; lia).
      apply in_rectb_iff in E'. rewrite E'. destruct (H01 r c) as [-> | ->]; lia.
    + rewrite Z.add_0_r in Hc. apply (Hst r c Hr) in Hc.
      destruct (H01 r c) as [E0|E1]; [contradiction|].
      rewrite E1.
      destruct (in_rectb (Rect col row w h) (Z.of_nat c) (Z.of_nat r)); lia.
Qed.

Lemma scan_row_keeps (p : RoomFilled.params) (row : Z) (m m' : grid) (g g' : rng) :
  1 <= row -> cells01 m -> stacked m row ->
  RoomFilled.scan_row p row (m, g) = Return (m', g') ->
  cells01 m' /\ stacked m' row.
Proof.
  intros Hrow H01 Hst H. unfold RoomFilled.scan_row in H.
  apply bind_Return_inv in H as (this_row & _ & H). cbn [fst] in H.
  change (cells01 (fst (m', g')) /\ stacked (fst (m', g')) row).
  apply (for_each_invariant (fun st : grid * rng => cells01 (fst st) /\ stacked (fst st) row)
           (py_range 1 (len this_row - 1)) (RoomFilled.try_tile p row) (m, g) (m', g'));
    [|split; assumption|exact H].
  intros col [m1 g1] [m2 g2] Hcol [A1 A2] Hstep. cbn [fst] in *.
  apply in_py_range in Hcol.
  exact (try_tile_keeps p row col m1 m2 g1 g2 Hrow ltac:(lia) A1 A2 Hstep).
Qed.

Lemma cells01_blank_map (w h : Z) : cells01 (blank_map w h).
Proof. intros r c. left. apply cell_blank_map. Qed.

(** X17: the rooms of RoomFilledMapGenerator never overlap.  Room cells
    are written with [+= 1], yet every cell of a returned map is 0 or 1:
    the width probe clears each column of a new room in the scanned row,
    and a carved cell further down always has carved cells above it up
    to that row. *)
Theorem roomfilled_rooms_never_overlap (p : RoomFilled.params) (g : rng) (m : grid) :
  RoomFilled.generate_noise p g = Return m -> binary_grid m.
Proof.
  intro H. unfold RoomFilled.generate_noise in H.
  apply bind_Return_inv in H as ([m1 g1] & H & E). injection E as ->.
  apply cells01_binary_grid.
  set (m0 := blank_map (RoomFilled.supplied_map_width p) (RoomFilled.supplied_map_height p)) in *.
  assert (G : cells01 (fst (m, g1)) /\ stacked (fst (m, g1)) (Z.max 1 (len m0 - 1))).
  { apply (for_each_range (fun k (st : grid * rng) => cells01 (fst st) /\ stacked (fst st) k)
             1 (len m0 - 1) (RoomFilled.scan_row p) (m0, g)); [| |exact H].
    - cbn [fst]. split; [apply cells01_blank_map|].
      intros r c _ Hc. contradiction Hc. apply cell_blank_map.
    - intros row [ma ga] [mb gb] Hrow [A1 A2] Hstep. cbn [fst] in *.
      destruct (scan_row_keeps p row ma mb ga gb ltac:(lia) A1 A2 Hstep) as [B1 B2].
      split; [exact B1|]. intros r c Hr. apply B2. lia. }
  exact (proj1 G).
Qed.

Lemma roomfilled_rooms_never_overlap_witness :
  binary_grid
    [[0; 0; 0; 0; 0; 0; 0; 0];
     [0; 1; 1; 0; 1; 1; 0; 0];
     [0; 1; 1; 0; 1; 1; 0; 0];
     [0; 1; 1; 0; 0; 0; 0; 0];
     [0; 0; 0; 0; 0; 0; 0; 0];
     [0; 0; 0; 0; 0; 0; 0; 0]].
Proof.
  apply (roomfilled_rooms_never_overlap (RoomFilled.Params 8 6 3 2) [0; 1; 0; 0; 0; 0; 0; 0]).
  vm_compute. reflexivity.
Defined.

Lemma nearby_tiles_mem (a b : Z) :
  -1 <= a <= 1 -> -1 <= b <= 1 -> In (a, b) RoomFilled.nearby_tiles.
Proof.
  intros Ha Hb.
  assert (A : a = -1 \/ a = 0 \/ a = 1) by lia.
  assert (B : b = -1 \/ b = 0 \/ b = 1) by lia.
  destruct A as [->|[->| ->]], B as [->|[->| ->]]; vm_compute; tauto.
Qed.

(** No carved cell touches a room that is about to be written, not
    even at a corner. *)
Lemma new_room_is_apart (m : grid) (row col w h : Z) (r c r' c' : nat) :
  1 <= row -> 1 <= col -> stacked m row ->
  (forall u, 0 <= u < w -> clear_around m row (col + u)) ->
  in_rect (Rect col row w h) (Z.of_nat c) (Z.of_nat r) ->
  Z.of_nat r - 1 <= Z.of_nat r' <= Z.of_nat r + 1 ->
  Z.of_nat c - 1 <= Z.of_nat c' <= Z.of_nat c + 1 ->
  cell m r' c' = 0.
Proof.
  intros Hrow Hcol Hst Hclear Hin Hr Hc. unfold in_rect in Hin; cbn [rx ry rw rh] in Hin.
  set (u := Z.max 0 (Z.min (w - 1) (Z.of_nat c' - col))).
  assert (Hu : 0 <= u < w) by (unfold u; lia).
  assert (Hdx : -1 <= Z.of_nat c' - col - u <= 1) by (unfold u; lia).
  destruct (Z.eq_dec (cell m r' c') 0) as [E|E]; [exact E|exfalso].
  destruct (Z_lt_le_dec (Z.of_nat r') row) as [Hup|Hdown].
  - (* the row above the room *)
    pose proof (Hclear u Hu (-1, Z.of_nat c' - col - u)
                  (nearby_tiles_mem (-1) _ ltac:(lia) Hdx)) as H0.
    cbn [fst snd] in H0.
    replace (Z.to_nat (row + -1)) with r' in H0 by lia.
    replace (Z.to_nat (col + u + (Z.of_nat c' - col - u))) with c' in H0 by lia.
    contradiction.
  - apply (stacked_down m row r' c' Hst ltac:(lia)) in E. apply E.
    pose proof (Hclear u Hu (0, Z.of_nat c' - col - u)
                  (nearby_tiles_mem 0 _ ltac:(lia) Hdx)) as H0.
    cbn [fst snd] in H0.
    replace (Z.to_nat (row + 0)) with (Z.to_nat row) in H0 by lia.
    replace (Z.to_nat (col + u + (Z.of_nat c' - col - u))) with c' in H0 by lia.
    exact H0.
Qed.

(** One scan position keeps the walls between the rooms. *)
Lemma try_tile_keeps_walls (p : RoomFilled.params) (row col : Z) (m m' : grid) (g g' : rng) :
  1 <= row -> 1 <= col -> cells01 m -> stacked m row -> walled m ->
  RoomFilled.try_tile p row col (m, g) = Return (m', g') ->
  walled m'.
Proof.
  intros Hrow Hcol H01 Hst Hwall H.
  destruct (try_tile_writes p row col m m' g g' Hrow Hcol H)
    as [->|(w & h & Hcell & Hclear & _ & _)]; [exact Hwall|].
  set (room := Rect col row w h) in *.
  assert (Hsplit : forall r c, cell m' r c <> 0 ->
                     in_rect room (Z.of_nat c) (Z.of_nat r) \/ cell m r c <> 0).
  { intros r c Hc. rewrite Hcell in Hc.
    destruct (in_rectb room (Z.of_nat c) (Z.of_nat r)) eqn:E;
      [left; apply in_rectb_iff; exact E|right; lia]. }
  assert (Hnew : forall r c, in_rect room (Z.of_nat c) (Z.of_nat r) -> cell m' r c <> 0).
  { intros r c Hin. rewrite Hcell. apply in_rectb_iff in Hin. rewrite Hin.
    destruct (H01 r c) as [-> | ->]; lia. }
  assert (Hold : forall r c, cell m r c <> 0 -> cell m' r c <> 0).
  { intros r c Hc. rewrite Hcell.
    destruct (H01 r c) as [E|E]; [contradiction|rewrite E].
    destruct (in_rectb room (Z.of_nat c) (Z.of_nat r)); lia. }
  assert (Hapart : forall r c r' c',
             in_rect room (Z.of_nat c) (Z.of_nat r) ->
             Z.of_nat r - 1 <= Z.of_nat r' <= Z.of_nat r + 1 ->
             Z.of_nat c - 1 <= Z.of_nat c' <= Z.of_nat c + 1 ->
             cell m r' c' <> 0 -> False).
  { intros r c r' c' Hin Hr Hc Hne. apply Hne.
    exact (new_room_is_apart m row col w h r c r' c' Hrow Hcol Hst Hclear Hin Hr Hc). }
  assert (Hpair : forall r1 c1 r2 c2,
             Z.of_nat r1 - 1 <= Z.of_nat r2 <= Z.of_nat r1 + 1 ->
             Z.of_nat c1 - 1 <= Z.of_nat c2 <= Z.of_nat c1 + 1 ->
             cell m' r1 c1 <> 0 -> cell m' r2 c2 <> 0 ->
             (in_rect room (Z.of_nat c1) (Z.of_nat r1) /\ in_rect room (Z.of_nat c2) (Z.of_nat r2))
             \/ (cell m r1 c1 <> 0 /\ cell m r2 c2 <> 0)).
  { intros r1 c1 r2 c2 Hr Hc H1 H2.
    destruct (Hsplit r1 c1 H1) as [N1|O1], (Hsplit r2 c2 H2) as [N2|O2].
    - left; split; assumption.
    - exfalso. exact (Hapart r1 c1 r2 c2 N1 Hr Hc O2).
    - exfalso. apply (Hapart r2 c2 r1 c1 N2); [lia|lia|exact O1].
    - right; split; assumption. }
  intros r c Hdiag.
  assert (Hcases :
            (in_rect room (Z.of_nat c) (Z.of_nat r)
             /\ in_rect room (Z.of_nat (S c)) (Z.of_nat (S r)))
            \/ (in_rect room (Z.of_nat (S c)) (Z.of_nat r)
                /\ in_rect room (Z.of_nat c) (Z.of_nat (S r)))
            \/ (cell m r c <> 0 /\ cell m (S r) (S c) <> 0)
            \/ (cell m r (S c) <> 0 /\ cell m (S r) c <> 0)).
  { destruct Hdiag as [[A D]|[B C]].
    - destruct (Hpair r c (S r) (S c) ltac:(lia) ltac:(lia) A D) as [X|X]; tauto.
    - destruct (Hpair r (S c) (S r) c ltac:(lia) ltac:(lia) B C) as [X|X]; tauto. }
  destruct Hcases as [[X Y]|[[X Y]|[X|X]]].
  - repeat split; apply Hnew; unfold room, in_rect in *; cbn [rx ry rw rh] in *; lia.
  - repeat split; apply Hnew; unfold room, in_rect in *; cbn [rx ry rw rh] in *; lia.
  - destruct (Hwall r c (or_introl X)) as (A & B & C & D). repeat split; apply Hold; assumption.
  - destruct (Hwall r c (or_intror X)) as (A & B & C & D). repeat split; apply Hold; assumption.
Qed.

(** One scan position keeps the outermost rows and columns uncarved. *)
Lemma try_tile_keeps_border (p : RoomFilled.params) (row col : Z) (m m' : grid) (g g' : rng)
  (w h : Z) :
  1 <= row < h -> 1 <= col -> has_dimensions m w h -> bordered m w h ->
  RoomFilled.try_tile p row col (m, g) = Return (m', g') ->
  bordered m' w h.
Proof.
  intros Hrow Hcol Hd Hb H.
  destruct (try_tile_writes p row col m m' g g' ltac:(lia) Hcol H)
    as [->|(rw' & rh' & Hcell & _ & Hw & Hh)]; [exact Hb|].
  destruct Hd as [Hlen Hrows].
  assert (Hrowlen : len (nth (Z.to_nat row) m []) = w).
  { rewrite Forall_forall in Hrows. apply Hrows. apply nth_In. unfold len in Hlen. lia. }
  rewrite Hrowlen in Hw. rewrite Hlen in Hh.
  intros r c Hc. rewrite Hcell in Hc.
  destruct (in_rectb (Rect col row rw' rh') (Z.of_nat c) (Z.of_nat r)) eqn:E.
  - apply in_rectb_iff in E. unfold in_rect in E; cbn [rx ry rw rh] in E. lia.
  - apply Hb. lia.
Qed.

(** The scan as a whole. *)
Lemma roomfilled_scan (p : RoomFilled.params) (g : rng) (m : grid) :
  0 <= RoomFilled.supplied_map_width p -> 0 <= RoomFilled.supplied_map_height p ->
  RoomFilled.generate_noise p g = Return m ->
  walled m /\ bordered m (RoomFilled.supplied_map_width p) (RoomFilled.supplied_map_height p).
Proof.
  intros Hw Hh H. unfold RoomFilled.generate_noise in H.
  apply bind_Return_inv in H as ([m1 g1] & H & E). injection E as ->.
  set (w := RoomFilled.supplied_map_width p) in *.
  set (h := RoomFilled.supplied_map_height p) in *.
  set (m0 := blank_map w h) in *.
  assert (Hd0 : has_dimensions m0 w h) by (apply (blank_rows_dimensions 0); assumption).
  pose (Inv := fun (k : Z) (st : grid * rng) =>
                 has_dimensions (fst st) w h /\ cells01 (fst st) /\ stacked (fst st) k
                 /\ walled (fst st) /\ bordered (fst st) w h).
  assert (G : Inv (Z.max 1 (len m0 - 1)) (m, g1)).
  { apply (for_each_range Inv 1 (len m0 - 1) (RoomFilled.scan_row p) (m0, g)); [| |exact H].
    - unfold Inv; cbn [fst]. split; [exact Hd0|]. split; [apply cells01_blank_map|].
      split; [intros r c _ Hc; contradiction Hc; apply cell_blank_map|].
      split.
      + intros r c [[A _]|[A _]]; contradiction A; apply cell_blank_map.
      + intros r c Hc. contradiction Hc. apply cell_blank_map.
    - intros row [ma ga] [mb gb] Hrow (A0 & A1 & A2 & A3 & A4) Hstep.
      unfold Inv; cbn [fst] in *.
      assert (Hrow' : 1 <= row < h) by (destruct Hd0 as [E0 _]; lia).
      unfold RoomFilled.scan_row in Hstep.
      apply bind_Return_inv in Hstep as (this_row & _ & Hstep). cbn [fst] in Hstep.
      assert (G : has_dimensions (fst (mb, gb)) w h /\ cells01 (fst (mb, gb))
                  /\ stacked (fst (mb, gb)) row /\ walled (fst (mb, gb))
                  /\ bordered (fst (mb, gb)) w h).
      { apply (for_each_invariant
                 (fun st : grid * rng =>
                    has_dimensions (fst st) w h /\ cells01 (fst st) /\ stacked (fst st) row
                    /\ walled (fst st) /\ bordered (fst st) w h)
                 (py_range 1 (len this_row - 1)) (RoomFilled.try_tile p row) (ma, ga) (mb, gb));
          [|tauto|exact Hstep].
        intros col [m2 g2] [m3 g3] Hcol (B0 & B1 & B2 & B3 & B4) Htile. cbn [fst] in *.
        apply in_py_range in Hcol.
        destruct (try_tile_keeps p row col m2 m3 g2 g3 ltac:(lia) ltac:(lia) B1 B2 Htile)
          as [C1 C2].
        split; [exact (try_tile_dimensions p row col m2 m3 g2 g3 w h B0 Htile)|].
        split; [exact C1|]. split; [exact C2|]. split.
        - exact (try_tile_keeps_walls p row col m2 m3 g2 g3 ltac:(lia) ltac:(lia) B1 B2 B3 Htile).
        - exact (try_tile_keeps_border p row col m2 m3 g2 g3 w h Hrow' ltac:(lia) B0 B4 Htile). }
      cbn [fst] in G. destruct G as (G0 & G1 & G2 & G3 & G4).
      split; [exact G0|]. split; [exact G1|]. split; [|split; assumption].
      intros r c Hr. apply G2. lia. }
  destruct G as (_ & _ & _ & G3 & G4). split; assumption.
Qed.

(** In the returned map, wherever two cells that meet at a corner are
    both carved, the two cells between them are carved too: the carved
    cells form rectangles. *)
Lemma roomfilled_rooms_are_walled (p : RoomFilled.params) (g : rng) (m : grid) (r c : nat) :
  0 <= RoomFilled.supplied_map_width p -> 0 <= RoomFilled.supplied_map_height p ->
  RoomFilled.generate_noise p g = Return m ->
  (cell m r c <> 0 /\ cell m (S r) (S c) <> 0) \/ (cell m r (S c) <> 0 /\ cell m (S r) c <> 0) ->
  cell m r c <> 0 /\ cell m r (S c) <> 0 /\ cell m (S r) c <> 0 /\ cell m (S r) (S c) <> 0.
Proof.
  intros Hw Hh H. exact (proj1 (roomfilled_scan p g m Hw Hh H) r c).
Qed.

(** X19: the outermost rows and columns of a map of
    RoomFilledMapGenerator stay uncarved: a room starts at row and
    column 1 or beyond, its size is cut back to end before the last
    column and the last row, and the probes only shrink it. *)
Theorem roomfilled_border_is_wall (p : RoomFilled.params) (g : rng) (m : grid) (r c : nat) :
  0 <= RoomFilled.supplied_map_width p -> 0 <= RoomFilled.supplied_map_height p ->
  RoomFilled.generate_noise p g = Return m ->
  cell m r c <> 0 ->
  1 <= Z.of_nat r <= RoomFilled.supplied_map_height p - 2
  /\ 1 <= Z.of_nat c <= RoomFilled.supplied_map_width p - 2.
Proof.
  intros Hw Hh H. exact (proj2 (roomfilled_scan p g m Hw Hh H) r c).
Qed.

Lemma roomfilled_border_is_wall_witness :
  1 <= Z.of_nat 3 <= 6 - 2 /\ 1 <= Z.of_nat 2 <= 8 - 2.
Proof.
  apply (roomfilled_border_is_wall (RoomFilled.Params 8 6 3 2) [0; 1; 0; 0; 0; 0; 0; 0]
           [[0; 0; 0; 0; 0; 0; 0; 0];
            [0; 1; 1; 0; 1; 1; 0; 0];
            [0; 1; 1; 0; 1; 1; 0; 0];
            [0; 1; 1; 0; 0; 0; 0; 0];
            [0; 0; 0; 0; 0; 0; 0; 0];
            [0; 0; 0; 0; 0; 0; 0; 0]] 3 2).
  - simpl; lia.
  - simpl; lia.
  - vm_compute; reflexivity.
  - vm_compute; discriminate.
Defined.

(** ** RoomFilledMapGenerator: what each scan position writes *)

Lemma py_range_split (a k b : Z) :
  a <= k <= b -> py_range a b = py_range a k ++ py_range k b.
Proof.
  remember (Z.to_nat (k - a)) as n eqn:En.
  revert a En; induction n as [|n IH]; intros a En H.
  - assert (k = a) by lia. subst k. rewrite (py_range_empty a a) by lia. reflexivity.
  - rewrite (py_range_cons a b) by lia. rewrite (py_range_cons a k) by lia.
    cbn [app]. f_equal. apply IH; lia.
Qed.

(** The state in which the scan arrives at a row: the map has its size,
    its cells are 0 or 1, and carved cells from that row down stand on
    carved cells. *)
Lemma roomfilled_rows_scanned (p : RoomFilled.params) (g : rng) (row : Z) (st : grid * rng) :
  0 <= RoomFilled.supplied_map_width p -> 0 <= RoomFilled.supplied_map_height p ->
  1 <= row ->
  for_each (py_range 1 row) (RoomFilled.scan_row p)
    (blank_map (RoomFilled.supplied_map_width p) (RoomFilled.supplied_map_height p), g)
  = Return st ->
  has_dimensions (fst st) (RoomFilled.supplied_map_width p) (RoomFilled.supplied_map_height p)
  /\ cells01 (fst st) /\ stacked (fst st) row.
Proof.
  intros Hw Hh Hrow H.
  set (w := RoomFilled.supplied_map_width p) in *.
  set (h := RoomFilled.supplied_map_height p) in *.
  pose (Inv := fun (k : Z) (s : grid * rng) =>
                 has_dimensions (fst s) w h /\ cells01 (fst s) /\ stacked (fst s) k).
  assert (G : Inv (Z.max 1 row) st).
  { apply (for_each_range Inv 1 row (RoomFilled.scan_row p) (blank_map w h, g)); [| |exact H].
    - unfold Inv; cbn [fst]. split; [apply (blank_rows_dimensions 0); assumption|].
      split; [apply cells01_blank_map|].
      intros r c _ Hc. contradiction Hc. apply cell_blank_map.
    - intros k [ma ga] [mb gb] Hk (A0 & A1 & A2) Hstep. unfold Inv; cbn [fst] in *.
      destruct (scan_row_keeps p k ma mb ga gb ltac:(lia) A1 A2 Hstep) as [B1 B2].
      split.
      + unfold RoomFilled.scan_row in Hstep.
        apply bind_Return_inv in Hstep as (this_row & _ & Hstep). cbn [fst] in Hstep.
        change (has_dimensions (fst (mb, gb)) w h).
        apply (for_each_invariant (fun s : grid * rng => has_dimensions (fst s) w h)
                 (py_range 1 (len this_row - 1)) (RoomFilled.try_tile p k) (ma, ga) (mb, gb));
          [|exact A0|exact Hstep].
        intros col [m2 g2] [m3 g3] _ Hd Htile. cbn [fst] in *.
        exact (try_tile_dimensions p k col m2 m3 g2 g3 w h Hd Htile).
      + split; [exact B1|]. intros r c Hr. apply B2. lia. }
  replace (Z.max 1 row) with row in G by lia. exact G.
Qed.

(** X18: the rooms of RoomFilledMapGenerator never touch, not even at a
    corner.  In a run that returns, the scan reaches every position
    [(row, col)] of the inner rows and columns; what it does there to the
    map is to add one rectangle of cells with its upper left corner at
    the position (an empty one when no room is started), and every cell
    of that rectangle, and each of the eight cells around such a cell,
    was uncarved in the map as the scan found it.  The maps before and
    after the position are those of the two loops of [generate_noise],
    run up to the position. *)
Theorem roomfilled_rooms_never_touch (p : RoomFilled.params) (g : rng) (final : grid)
  (row col : Z) :
  0 <= RoomFilled.supplied_map_width p -> 0 <= RoomFilled.supplied_map_height p ->
  RoomFilled.generate_noise p g = Return final ->
  1 <= row < RoomFilled.supplied_map_height p - 1 ->
  1 <= col < RoomFilled.supplied_map_width p - 1 ->
  exists (st : grid * rng) (m m' : grid) (g1 g2 : rng) (room_width room_height : Z),
    for_each (py_range 1 row) (RoomFilled.scan_row p)
      (blank_map (RoomFilled.supplied_map_width p) (RoomFilled.supplied_map_height p), g)
    = Return st
    /\ for_each (py_range 1 col) (RoomFilled.try_tile p row) st = Return (m, g1)
    /\ RoomFilled.try_tile p row col (m, g1) = Return (m', g2)
    /\ (forall r c,
          cell m' r c
          = cell m r c
            + if in_rectb (Rect col row room_width room_height) (Z.of_nat c) (Z.of_nat r)
              then 1 else 0)
    /\ (forall r c r' c' : nat,
          in_rect (Rect col row room_width room_height) (Z.of_nat c) (Z.of_nat r) ->
          Z.of_nat r - 1 <= Z.of_nat r' <= Z.of_nat r + 1 ->
          Z.of_nat c - 1 <= Z.of_nat c' <= Z.of_nat c + 1 ->
          cell m r' c' = 0).
Proof.
  intros Hw Hh H Hrow Hcol. unfold RoomFilled.generate_noise in H.
  apply bind_Return_inv in H as ([mend gend] & H & E). injection E as ->.
  set (w := RoomFilled.supplied_map_width p) in *.
  set (h := RoomFilled.supplied_map_height p) in *.
  assert (Hlen : len (blank_map w h) = h).
  { destruct (blank_rows_dimensions 0 w h Hw Hh) as [E _]. exact E. }
  rewrite Hlen in H.
  (* the rows before [row], then [row], then the rest *)
  rewrite (py_range_split 1 row (h - 1)) in H by lia.
  rewrite for_each_app in H. apply bind_Return_inv in H as (st & Hrows & H).
  rewrite (py_range_cons row (h - 1)) in H by lia. cbn [for_each] in H.
  apply bind_Return_inv in H as (st2 & Hscan & _).
  destruct (roomfilled_rows_scanned p g row st Hw Hh ltac:(lia) Hrows) as (D0 & D1 & D2).
  fold w h in D0.
  (* the columns before [col], then [col] *)
  unfold RoomFilled.scan_row in Hscan.
  assert (Hst_len : len (fst st) = h) by (destruct D0; assumption).
  rewrite (py_get_nth (fst st) row []) in Hscan by lia. cbn [bind] in Hscan.
  assert (Hrowlen : len (nth (Z.to_nat row) (fst st) []) = w).
  { destruct D0 as [Hl Hrs]. rewrite Forall_forall in Hrs. apply Hrs. apply nth_In.
    unfold len in Hl. lia. }
  rewrite Hrowlen in Hscan.
  rewrite (py_range_split 1 col (w - 1)) in Hscan by lia.
  rewrite for_each_app in Hscan. apply bind_Return_inv in Hscan as ([m g1] & Hcols & Hscan).
  rewrite (py_range_cons col (w - 1)) in Hscan by lia. cbn [for_each] in Hscan.
  apply bind_Return_inv in Hscan as ([m' g2] & Htile & _).
  assert (G : cells01 (fst (m, g1)) /\ stacked (fst (m, g1)) row).
  { apply (for_each_invariant (fun s : grid * rng => cells01 (fst s) /\ stacked (fst s) row)
             (py_range 1 col) (RoomFilled.try_tile p row) st (m, g1)); [|tauto|exact Hcols].
    intros k [m2 g3] [m3 g4] Hk [B1 B2] Hstep. cbn [fst] in *.
    apply in_py_range in Hk.
    exact (try_tile_keeps p row k m2 m3 g3 g4 ltac:(lia) ltac:(lia) B1 B2 Hstep). }
  cbn [fst] in G. destruct G as [G1 G2].
  destruct (try_tile_writes p row col m m' g1 g2 ltac:(lia) ltac:(lia) Htile)
    as [->|(rw' & rh' & Hcell & Hclear & _ & _)].
  - exists st, m, m, g1, g2, 0, 0.
    split; [exact Hrows|]. split; [exact Hcols|]. split; [exact Htile|].
    assert (Hempty : forall r c, in_rectb (Rect col row 0 0) (Z.of_nat c) (Z.of_nat r) = false).
    { intros r c. destruct (in_rectb _ _ _) eqn:E; [|reflexivity].
      apply in_rectb_iff in E. unfold in_rect in E; cbn [rx ry rw rh] in E. lia. }
    split.
    + intros r c. rewrite Hempty. lia.
    + intros r c r' c' Hin. unfold in_rect in Hin; cbn [rx ry rw rh] in Hin. lia.
  - exists st, m, m', g1, g2, rw', rh'.
    split; [exact Hrows|]. split; [exact Hcols|]. split; [exact Htile|].
    split; [exact Hcell|].
    intros r c r' c' Hin Hr Hc.
    exact (new_room_is_apart m row col rw' rh' r c r' c' ltac:(lia) ltac:(lia) G2 Hclear
             Hin Hr Hc).
Qed.

Lemma roomfilled_rooms_never_touch_witness :
  exists (st : grid * rng) (m m' : grid) (g1 g2 : rng) (room_width room_height : Z),
    for_each (py_range 1 1) (RoomFilled.scan_row (RoomFilled.Params 8 6 3 2))
      (blank_map 8 6, [0; 1; 0; 0; 0; 0; 0; 0])
    = Return st
    /\ for_each (py_range 1 4) (RoomFilled.try_tile (RoomFilled.Params 8 6 3 2) 1) st
       = Return (m, g1)
    /\ RoomFilled.try_tile (RoomFilled.Params 8 6 3 2) 1 4 (m, g1) = Return (m', g2)
    /\ (forall r c,
          cell m' r c
          = cell m r c
            + if in_rectb (Rect 4 1 room_width room_height) (Z.of_nat c) (Z.of_nat r)
              then 1 else 0)
    /\ (forall r c r' c' : nat,
          in_rect (Rect 4 1 room_width room_height) (Z.of_nat c) (Z.of_nat r) ->
          Z.of_nat r - 1 <= Z.of_nat r' <= Z.of_nat r + 1 ->
          Z.of_nat c - 1 <= Z.of_nat c' <= Z.of_nat c + 1 ->
          cell m r' c' = 0).
Proof.
  apply (roomfilled_rooms_never_touch (RoomFilled.Params 8 6 3 2) [0; 1; 0; 0; 0; 0; 0; 0]
           [[0; 0; 0; 0; 0; 0; 0; 0];
            [0; 1; 1; 0; 1; 1; 0; 0];
            [0; 1; 1; 0; 1; 1; 0; 0];
            [0; 1; 1; 0; 0; 0; 0; 0];
            [0; 0; 0; 0; 0; 0; 0; 0];
            [0; 0; 0; 0; 0; 0; 0; 0]] 1 4).
  - simpl; lia.
  - simpl; lia.
  - vm_compute; reflexivity.
  - simpl; lia.
  - simpl; lia.
Defined.

(** ** RoomFilledMapGenerator: the probes stay on the map *)

Lemma blank_map_dimensions (w h : Z) :
  has_dimensions (blank_map w h) (Z.max 0 w) (Z.max 0 h).
Proof.
  unfold blank_map. split.
  - unfold len. rewrite length_map, length_py_range. lia.
  - apply Forall_forall. intros row Hrow. apply in_map_iff in Hrow as (k & <- & _).
    unfold len. rewrite length_map, length_py_range. lia.
Qed.

Lemma check_start_total (m : grid) (w h row col s : Z) :
  has_dimensions m w h -> 1 <= row <= h - 2 -> 1 <= col <= w - 2 ->
  exists s', RoomFilled.check_start m row col s = Return s'.
Proof.
  intros Hd Hrow Hcol. unfold RoomFilled.check_start.
  match goal with
  | |- exists s', for_each ?l ?body ?s0 = Return s' =>
      destruct (for_each_total (fun _ _ => True) l body s0 I) as (s' & H & _)
  end.
  - intros k t s1 Ht _. apply nearby_tiles_range in Ht.
    destruct (grid_get_total m w h (row + fst t) (col + snd t) Hd ltac:(lia) ltac:(lia))
      as (v & ->).
    cbn [bind]. eexists; split; [reflexivity|exact I].
  - exists s'. exact H.
Qed.

Lemma width_probe_total (m : grid) (w h row col u : Z) (st : Z * bool) :
  has_dimensions m w h -> 1 <= row <= h - 2 -> 1 <= col + u <= w - 2 ->
  exists st', RoomFilled.width_probe m row col u st = Return st'.
Proof.
  intros Hd Hrow Hcol. destruct st as [rmw cont]. unfold RoomFilled.width_probe.
  match goal with
  | |- context [for_each ?l ?body ?s0] =>
      destruct (for_each_total (fun _ _ => True) l body s0 I) as ([si c1] & H & _)
  end.
  - intros k t [s1 k1] Ht _. apply nearby_tiles_range in Ht.
    destruct k1; [|eexists; split; [reflexivity|exact I]].
    destruct (grid_get_total m w h (row + fst t) (col + snd t + u) Hd ltac:(lia) ltac:(lia))
      as (v & ->).
    cbn [bind]. destruct (v =? 0); eexists; split; try reflexivity; exact I.
  - rewrite H. cbn [bind]. eexists; reflexivity.
Qed.

Lemma height_probe_total (m : grid) (w h row col u dec : Z) :
  has_dimensions m w h -> 1 <= row + u <= h - 2 -> 1 <= col <= w - 2 ->
  exists dec', RoomFilled.height_probe m row col u dec = Return dec'.
Proof.
  intros Hd Hrow Hcol. unfold RoomFilled.height_probe.
  match goal with
  | |- context [for_each ?l ?body ?s0] =>
      destruct (for_each_total (fun _ _ => True) l body s0 I) as (sd & H & _)
  end.
  - intros k t s1 Ht _. apply nearby_tiles_range in Ht.
    destruct (grid_get_total m w h (row + fst t + u) (col + snd t) Hd ltac:(lia) ltac:(lia))
      as (v & ->).
    cbn [bind]. eexists; split; [reflexivity|exact I].
  - rewrite H. cbn [bind]. eexists; reflexivity.
Qed.

Lemma roomfilled_write_room_total (m : grid) (w h row col rmw rmh : Z) :
  has_dimensions m w h -> 0 <= row -> 0 <= col ->
  col + rmw <= Z.max col w -> row + rmh <= Z.max row h ->
  exists m', RoomFilled.write_room row col rmw rmh m = Return m' /\ has_dimensions m' w h.
Proof.
  intros Hd Hrow Hcol Hw Hh. rewrite roomfilled_write_room_targets.
  apply (visits_total visit_increment (targets (Rect col row rmw rmh)) m w h).
  - intros t m1. apply visit_increment_total.
  - exact Hd.
  - apply Forall_forall. intros t Ht. apply targets_in_rect in Ht.
    unfold in_rect in Ht; cbn [rx ry rw rh] in Ht. lia.
Qed.

(** One scan position never reads or writes outside the map. *)
Lemma try_tile_total (p : RoomFilled.params) (row col w h : Z) (m : grid) (g : rng) :
  RoomFilled.room_min_size p <= RoomFilled.room_max_size p ->
  has_dimensions m w h -> 1 <= row <= h - 2 -> 1 <= col <= w - 2 ->
  exists m' g', RoomFilled.try_tile p row col (m, g) = Return (m', g')
                /\ has_dimensions m' w h.
Proof.
  intros Hsize Hd Hrow Hcol. unfold RoomFilled.try_tile.
  destruct (randint_total _ _ g Hsize) as (w0 & g1 & -> & _). cbn [bind].
  destruct (randint_total _ _ g1 Hsize) as (h0 & g2 & -> & _). cbn [bind].
  assert (Hlen : len m = h) by (destruct Hd; assumption).
  rewrite (py_get_nth m row []) by lia. cbn [bind].
  assert (Hrowlen : len (nth (Z.to_nat row) m []) = w).
  { destruct Hd as [Hh Hw]. rewrite Forall_forall in Hw. apply Hw. apply nth_In.
    unfold len in Hh. lia. }
  rewrite Hrowlen, Hlen.
  assert (Hprobes : forall w1 h1 s1 (keep : Z -> Z -> Z -> Z),
             col + w1 <= w - 1 -> row + h1 <= h - 1 ->
             exists m' g',
               (s3 <- RoomFilled.check_start m row col s1 ;;
                '(room_max_width, _) <-
                   for_each (py_range 0 w1) (RoomFilled.width_probe m row col) (0, true) ;;
                room_height_decrementor <-
                  for_each (py_range 0 h1) (RoomFilled.height_probe m row col) 0 ;;
                if keep s3 room_max_width
                   (h1 - room_height_decrementor) =? 1 then
                  new_dungeon_map <-
                    RoomFilled.write_room row col room_max_width
                      (h1 - room_height_decrementor) m ;;
                  Return (new_dungeon_map, g2)
                else Return (m, g2)) = Return (m', g')
               /\ has_dimensions m' w h).
  { intros w1 h1 s1 keep Hw1 Hh1.
    destruct (check_start_total m w h row col s1 Hd Hrow Hcol) as (s3 & ->). cbn [bind].
    destruct (for_each_total (fun _ _ => True) (py_range 0 w1)
                (RoomFilled.width_probe m row col) (0, true) I) as ([rmw cont] & Hprobe & _).
    { intros k u st Hu _. apply in_py_range in Hu.
      destruct (width_probe_total m w h row col u st Hd Hrow ltac:(lia)) as (st' & ->).
      eexists; split; [reflexivity|exact I]. }
    rewrite Hprobe. cbn [bind].
    destruct (for_each_total (fun _ _ => True) (py_range 0 h1)
                (RoomFilled.height_probe m row col) 0 I) as (dec & Hdec & _).
    { intros k u d Hu _. apply in_py_range in Hu.
      destruct (height_probe_total m w h row col u d Hd ltac:(lia) Hcol) as (d' & ->).
      eexists; split; [reflexivity|exact I]. }
    rewrite Hdec. cbn [bind].
    destruct (_ =? 1); [|exists m, g2; split; [reflexivity|exact Hd]].
    destruct (width_probe_clear m row col w1 rmw cont ltac:(lia) ltac:(lia) Hprobe)
      as [Hrmw _].
    pose proof (height_probe_counts m row col h1 dec Hdec) as Hdec0.
    destruct (roomfilled_write_room_total m w h row col rmw (h1 - dec) Hd
                ltac:(lia) ltac:(lia) ltac:(lia) ltac:(lia)) as (m' & -> & Hd').
    cbn [bind]. exists m', g2. split; [reflexivity|exact Hd']. }
  destruct (col + w0 >=? w - 1) eqn:Ew; destruct (row + h0 >=? h - 1) eqn:Eh;
    rewrite Z.geb_leb in Ew, Eh;
    (apply Z.leb_le in Ew || apply Z.leb_gt in Ew);
    (apply Z.leb_le in Eh || apply Z.leb_gt in Eh).
  - apply (Hprobes _ _ _
             (fun s3 rmw rmh =>
                if rmh <? RoomFilled.room_min_size p then 0
                else if rmw <? RoomFilled.room_min_size p then 0 else s3)); lia.
  - apply (Hprobes _ _ _
             (fun s3 rmw rmh =>
                if rmh <? RoomFilled.room_min_size p then 0
                else if rmw <? RoomFilled.room_min_size p then 0 else s3)); lia.
  - apply (Hprobes _ _ _
             (fun s3 rmw rmh =>
                if rmh <? RoomFilled.room_min_size p then 0
                else if rmw <? RoomFilled.room_min_size p then 0 else s3)); lia.
  - apply (Hprobes _ _ _
             (fun s3 rmw rmh =>
                if rmh <? RoomFilled.room_min_size p then 0
                else if rmw <? RoomFilled.room_min_size p then 0 else s3)); lia.
Qed.

Lemma scan_row_total (p : RoomFilled.params) (row w h : Z) (m : grid) (g : rng) :
  RoomFilled.room_min_size p <= RoomFilled.room_max_size p ->
  has_dimensions m w h -> 1 <= row <= h - 2 ->
  exists m' g', RoomFilled.scan_row p row (m, g) = Return (m', g') /\ has_dimensions m' w h.
Proof.
  intros Hsize Hd Hrow. unfold RoomFilled.scan_row. cbn [fst].
  assert (Hlen : len m = h) by (destruct Hd; assumption).
  rewrite (py_get_nth m row []) by lia. cbn [bind].
  assert (Hrowlen : len (nth (Z.to_nat row) m []) = w).
  { destruct Hd as [Hh Hw]. rewrite Forall_forall in Hw. apply Hw. apply nth_In.
    unfold len in Hh. lia. }
  rewrite Hrowlen.
  destruct (for_each_total (fun (_ : nat) (st : grid * rng) => has_dimensions (fst st) w h)
              (py_range 1 (w - 1)) (RoomFilled.try_tile p row) (m, g) Hd)
    as ([m' g'] & H & Hd').
  - intros k col [m1 g1] Hcol Hd1. cbn [fst] in Hd1. apply in_py_range in Hcol.
    destruct (try_tile_total p row col w h m1 g1 Hsize Hd1 Hrow ltac:(lia))
      as (m2 & g2 & -> & Hd2).
    exists (m2, g2). split; [reflexivity|exact Hd2].
  - exists m', g'. split; [exact H|exact Hd'].
Qed.

(** X20: RoomFilledMapGenerator never leaves the map.  Whenever the
    smallest room size is at most the largest, [generate_noise] returns
    a map, whatever the map's size and the random draws: the nine-tile
    probes and the room writes all stay inside the list of rows, so no
    IndexError can arise. *)
Theorem roomfilled_generate_noise_returns (p : RoomFilled.params) (g : rng) :
  RoomFilled.room_min_size p <= RoomFilled.room_max_size p ->
  exists m, RoomFilled.generate_noise p g = Return m.
Proof.
  intro Hsize. unfold RoomFilled.generate_noise.
  set (w := Z.max 0 (RoomFilled.supplied_map_width p)).
  set (h := Z.max 0 (RoomFilled.supplied_map_height p)).
  pose proof (blank_map_dimensions (RoomFilled.supplied_map_width p)
                (RoomFilled.supplied_map_height p)) as Hd.
  fold w h in Hd.
  set (m0 := blank_map _ _) in *.
  assert (Hlen : len m0 = h) by (destruct Hd; assumption).
  rewrite Hlen.
  destruct (for_each_total (fun (_ : nat) (st : grid * rng) => has_dimensions (fst st) w h)
              (py_range 1 (h - 1)) (RoomFilled.scan_row p) (m0, g) Hd)
    as ([m' g'] & H & _).
  - intros k row [m1 g1] Hrow Hd1. cbn [fst] in Hd1. apply in_py_range in Hrow.
    destruct (scan_row_total p row w h m1 g1 Hsize Hd1 ltac:(lia)) as (m2 & g2 & -> & Hd2).
    exists (m2, g2). split; [reflexivity|exact Hd2].
  - rewrite H. cbn [bind]. exists m'. reflexivity.
Qed.

Lemma roomfilled_generate_noise_returns_witness :
  exists m, RoomFilled.generate_noise (RoomFilled.Params 8 6 3 2) [0; 1; 0; 0; 0; 0; 0; 0]
            = Return m.
Proof.
  apply (roomfilled_generate_noise_returns (RoomFilled.Params 8 6 3 2)).
  simpl; lia.
Defined.

(** X21: with the smallest room size above the largest,
    RoomFilledMapGenerator raises ValueError on every map of at least
    three rows and three columns: the scan starts at row 1, column 1,
    and the first thing it does there is to draw a width with
    [randint(room_min_size, room_max_size)]. *)
Theorem roomfilled_empty_size_range_raises (p : RoomFilled.params) (g : rng) :
  RoomFilled.room_max_size p < RoomFilled.room_min_size p ->
  3 <= RoomFilled.supplied_map_width p -> 3 <= RoomFilled.supplied_map_height p ->
  RoomFilled.generate_noise p g = Raise ValueError.
Proof.
  intros Hsize Hw Hh. unfold RoomFilled.generate_noise.
  pose proof (blank_rows_dimensions 0 (RoomFilled.supplied_map_width p)
                (RoomFilled.supplied_map_height p) ltac:(lia) ltac:(lia)) as Hd.
  fold (blank_map (RoomFilled.supplied_map_width p) (RoomFilled.supplied_map_height p)) in Hd.
  set (w := RoomFilled.supplied_map_width p) in *.
  set (h := RoomFilled.supplied_map_height p) in *.
  set (m0 := blank_map w h) in *.
  assert (Hlen : len m0 = h) by (destruct Hd; assumption).
  rewrite Hlen. rewrite (py_range_cons 1 (h - 1)) by lia. cbn [for_each].
  unfold RoomFilled.scan_row at 1. cbn [fst].
  rewrite (py_get_nth m0 1 []) by lia. cbn [bind].
  assert (Hrowlen : len (nth (Z.to_nat 1) m0 []) = w).
  { destruct Hd as [Hh' Hw']. rewrite Forall_forall in Hw'. apply Hw'. apply nth_In.
    unfold len in Hh'. lia. }
  rewrite Hrowlen. rewrite (py_range_cons 1 (w - 1)) by lia. cbn [for_each].
  unfold RoomFilled.try_tile at 1. unfold randint at 1.
  replace (RoomFilled.room_max_size p <? RoomFilled.room_min_size p) with true
    by (symmetry; apply Z.ltb_lt; exact Hsize).
  reflexivity.
Qed.

Lemma roomfilled_empty_size_range_raises_witness :
  RoomFilled.generate_noise (RoomFilled.Params 8 6 2 3) [0; 1; 0; 0] = Raise ValueError.
Proof.
  apply (roomfilled_empty_size_range_raises (RoomFilled.Params 8 6 2 3)); simpl; lia.
Defined.

(** ** SimplexNoiseGenerator: the raw noise *)

(** X22: [generate_raw_unoctaved_noise] answers strictly between 0 and
    256 at every point of the plane, for every permutation table and
    every hash: also at negative coordinates, where [int] rounds toward
    zero and the point lies outside the triangle of the three corners
    that are used. *)
Theorem simplex_raw_noise_strictly_inside (gen : Simplex.generator) (x y v : Q) :
  Simplex.generate_raw_unoctaved_noise gen x y = Return v -> (0 < v < 256)%Q.
Proof. exact (raw_noise_in_range gen x y v). Qed.

Lemma simplex_raw_noise_strictly_inside_witness :
  exists v,
    Simplex.generate_raw_unoctaved_noise (Simplex.Generator [] [] (Some 0) [0; 0])
      (-7 # 3) (1 # 5) = Return v
    /\ (0 < v < 256)%Q.
Proof.
  destruct (Simplex.generate_raw_unoctaved_noise (Simplex.Generator [] [] (Some 0) [0; 0])
              (-7 # 3) (1 # 5)) as [v| |] eqn:E.
  - exists v. split; [reflexivity|].
    exact (simplex_raw_noise_strictly_inside _ _ _ v E).
  - vm_compute in E. discriminate.
  - vm_compute in E. discriminate.
Defined.

(** ** PlasmaFractalGenerator: every cell is written *)

Lemma quarter_eq (a : Q) : (a / 4 == a * (1 # 4))%Q.
Proof. unfold Qdiv. reflexivity. Qed.

Lemma drift_below_step (gen : Plasma.generator) (F : nat) :
  (drift_below gen (S F)
   == drift_below gen F + inject_Z (Z.min 0 (Plasma.displacement_min gen)))%Q.
Proof.
  unfold drift_below. rewrite <- inject_Z_plus. apply inject_Z_injective. lia.
Qed.

Lemma drift_above_step (gen : Plasma.generator) (F : nat) :
  (drift_above gen (S F)
   == drift_above gen F + inject_Z (Z.max 0 (Plasma.displacement_max gen)))%Q.
Proof.
  unfold drift_above. rewrite <- inject_Z_plus. apply inject_Z_injective. lia.
Qed.

Lemma drift_below_nonpos (gen : Plasma.generator) (F : nat) : (drift_below gen F <= 0)%Q.
Proof.
  unfold drift_below. change 0%Q with (inject_Z 0). rewrite <- Zle_Qle. nia.
Qed.

Lemma drift_above_nonneg (gen : Plasma.generator) (F : nat) : (0 <= drift_above gen F)%Q.
Proof.
  unfold drift_above. change 0%Q with (inject_Z 0). rewrite <- Zle_Qle. nia.
Qed.

Section Lattice.

Variable gen : Plasma.generator.
Hypothesis Hrange : Plasma.displacement_min gen <= Plasma.displacement_max gen.

(** The recursion returns, and its leaves form a lattice that depends
    on the size of the quadrant only. *)
Lemma plasma_recursion_lattice (F : nat) :
  forall (W H : Q),
    (0 < W)%Q -> (0 < H)%Q ->
    (W <= Plasma.minimum_separation_distance gen * inject_Z (2 ^ Z.of_nat F))%Q ->
    (H <= Plasma.minimum_separation_distance gen * inject_Z (2 ^ Z.of_nat F))%Q ->
    exists (n : Z) (sw sh : Q),
      1 <= n /\ (inject_Z n * sw == W)%Q /\ (inject_Z n * sh == H)%Q
      /\ (0 < sw)%Q /\ (sw <= Plasma.minimum_separation_distance gen)%Q
      /\ (0 < sh)%Q /\ (sh <= Plasma.minimum_separation_distance gen)%Q
      /\ forall (x0 y0 ul ur ll lr lo hi : Q) (saved : list Plasma.emitted) (g : rng),
           (lo <= ul <= hi)%Q -> (lo <= ur <= hi)%Q -> (lo <= ll <= hi)%Q -> (lo <= lr <= hi)%Q ->
           exists new g',
             Plasma.plasma_recursion F gen x0 y0 W H ul ur ll lr (saved, g)
             = Return (saved ++ new, g')
             /\ quadrant_filled (lo + drift_below gen F) (hi + drift_above gen F)
                  n sw sh x0 y0 W H new.
Proof.
  assert (Leaf : forall (F : nat) (W H : Q),
             (0 < W)%Q -> (0 < H)%Q ->
             (W <= Plasma.minimum_separation_distance gen)%Q ->
             (H <= Plasma.minimum_separation_distance gen)%Q ->
             forall (x0 y0 ul ur ll lr lo hi : Q) (saved : list Plasma.emitted) (g : rng),
               (lo <= ul <= hi)%Q -> (lo <= ur <= hi)%Q -> (lo <= ll <= hi)%Q ->
               (lo <= lr <= hi)%Q ->
               exists new g',
                 Plasma.plasma_recursion F gen x0 y0 W H ul ur ll lr (saved, g)
                 = Return (saved ++ new, g')
                 /\ quadrant_filled (lo + drift_below gen F) (hi + drift_above gen F)
                      1 W H x0 y0 W H new).
  { intros F0 W H HW HH EW EH x0 y0 ul ur ll lr lo hi saved g Hul Hur Hll Hlr.
    apply Qle_bool_iff in EW, EH.
    exists [(x0, y0, ((ul + ur + ll + lr) / 4)%Q)], g. split.
    - destruct F0; cbn [Plasma.plasma_recursion]; rewrite EW, EH; reflexivity.
    - pose proof (drift_below_nonpos gen F0). pose proof (drift_above_nonneg gen F0).
      pose proof (quarter_eq (ul + ur + ll + lr)) as Eq.
      split.
      + constructor; [|constructor]. unfold ex, ey, ez; cbn [fst snd].
        rewrite Eq. repeat split; lra.
      + intros i j Hi Hj. assert (i = 0) by lia. assert (j = 0) by lia. subst i j.
        eexists. split; [left; reflexivity|]. unfold ex, ey; cbn [fst snd].
        change (inject_Z 0) with 0%Q. split; ring. }
  induction F as [|F IH]; intros W H HW HH HWF HHF.
  - change (inject_Z (2 ^ Z.of_nat 0)) with 1%Q in *.
    exists 1, W, H.
    split; [lia|]. split; [change (inject_Z 1) with 1%Q; ring|].
    split; [change (inject_Z 1) with 1%Q; ring|].
    split; [exact HW|]. split; [lra|]. split; [exact HH|]. split; [lra|].
    apply Leaf; try assumption; lra.
  - destruct (negb (Qle_bool W (Plasma.minimum_separation_distance gen))
              || negb (Qle_bool H (Plasma.minimum_separation_distance gen)))%bool eqn:E.
    + pose proof (half_eq W) as EW. pose proof (half_eq H) as EH.
      assert (P2 : (inject_Z (2 ^ Z.of_nat (S F)) == 2 * inject_Z (2 ^ Z.of_nat F))%Q).
      { rewrite Nat2Z.inj_succ, Z.pow_succ_r by lia. rewrite inject_Z_mult. reflexivity. }
      rewrite P2 in HWF, HHF.
      destruct (IH (W / 2)%Q (H / 2)%Q) as (n & sw & sh & Hn & Esw & Esh & S1 & S2 & S3 & S4 & Hrec).
      * lra.
      * lra.
      * set (bound := (Plasma.minimum_separation_distance gen * inject_Z (2 ^ Z.of_nat F))%Q).
        assert (X : (Plasma.minimum_separation_distance gen * (2 * inject_Z (2 ^ Z.of_nat F))
                     == 2 * bound)%Q) by (unfold bound; ring).
        rewrite X in HWF. lra.
      * set (bound := (Plasma.minimum_separation_distance gen * inject_Z (2 ^ Z.of_nat F))%Q).
        assert (X : (Plasma.minimum_separation_distance gen * (2 * inject_Z (2 ^ Z.of_nat F))
                     == 2 * bound)%Q) by (unfold bound; ring).
        rewrite X in HHF. lra.
      * exists (2 * n), sw, sh.
        split; [lia|].
        split; [rewrite inject_Z_mult; change (inject_Z 2) with 2%Q; lra|].
        split; [rewrite inject_Z_mult; change (inject_Z 2) with 2%Q; lra|].
        split; [exact S1|]. split; [exact S2|]. split; [exact S3|]. split; [exact S4|].
        intros x0 y0 ul ur ll lr lo hi saved g Hul Hur Hll Hlr.
        cbn [Plasma.plasma_recursion]. rewrite E.
        destruct (randint_total _ _ g Hrange) as (d & g1 & -> & Hd). cbn [bind].
        set (hw := (W / 2)%Q) in *. set (hh := (H / 2)%Q) in *.
        set (mn := inject_Z (Z.min 0 (Plasma.displacement_min gen))).
        set (mx := inject_Z (Z.max 0 (Plasma.displacement_max gen))).
        assert (Hmn : (mn <= 0)%Q /\ (mn <= inject_Z d)%Q).
        { unfold mn. change 0%Q with (inject_Z 0). rewrite <- !Zle_Qle. lia. }
        assert (Hmx : (0 <= mx)%Q /\ (inject_Z d <= mx)%Q).
        { unfold mx. change 0%Q with (inject_Z 0). rewrite <- !Zle_Qle. lia. }
        pose proof (quarter_eq (ul + ur + ll + lr)) as Eq.
        pose proof (half_eq (ul + ur)) as Etop. pose proof (half_eq (ll + lr)) as Ebot.
        pose proof (half_eq (ul + ll)) as Eleft. pose proof (half_eq (ur + lr)) as Eright.
        set (mid := ((ul + ur + ll + lr) / 4 + inject_Z d)%Q) in *.
        set (top := ((ul + ur) / 2)%Q) in *. set (bottom := ((ll + lr) / 2)%Q) in *.
        set (left := ((ul + ll) / 2)%Q) in *. set (right := ((ur + lr) / 2)%Q) in *.
        assert (Bmid : (lo + mn <= mid <= hi + mx)%Q) by (unfold mid; rewrite Eq; lra).
        assert (Btop : (lo + mn <= top <= hi + mx)%Q) by lra.
        assert (Bbot : (lo + mn <= bottom <= hi + mx)%Q) by lra.
        assert (Bleft : (lo + mn <= left <= hi + mx)%Q) by lra.
        assert (Bright : (lo + mn <= right <= hi + mx)%Q) by lra.
        assert (Bul : (lo + mn <= ul <= hi + mx)%Q) by lra.
        assert (Bur : (lo + mn <= ur <= hi + mx)%Q) by lra.
        assert (Bll : (lo + mn <= ll <= hi + mx)%Q) by lra.
        assert (Blr : (lo + mn <= lr <= hi + mx)%Q) by lra.
        destruct (Hrec x0 y0 ul top left mid (lo + mn)%Q (hi + mx)%Q saved g1
                    Bul Btop Bleft Bmid) as (n1 & g2 & -> & A1 & L1). cbn [bind].
        destruct (Hrec (x0 + hw)%Q y0 top ur mid right (lo + mn)%Q (hi + mx)%Q (saved ++ n1) g2
                    Btop Bur Bmid Bright) as (n2 & g3 & -> & A2 & L2). cbn [bind].
        destruct (Hrec x0 (y0 + hh)%Q left mid ll bottom (lo + mn)%Q (hi + mx)%Q
                    ((saved ++ n1) ++ n2) g3 Bleft Bmid Bll Bbot)
          as (n3 & g4 & -> & A3 & L3). cbn [bind].
        destruct (Hrec (x0 + hw)%Q (y0 + hh)%Q mid right bottom lr (lo + mn)%Q (hi + mx)%Q
                    (((saved ++ n1) ++ n2) ++ n3) g4 Bmid Bright Bbot Blr)
          as (n4 & g5 & -> & A4 & L4).
        exists (n1 ++ n2 ++ n3 ++ n4), g5.
        split; [rewrite !app_assoc; reflexivity|].
        pose proof (drift_below_step gen F) as Dlo. fold mn in Dlo.
        pose proof (drift_above_step gen F) as Dhi. fold mx in Dhi.
        split.
        -- repeat (apply Forall_app; split).
           ++ eapply Forall_impl; [|exact A1]. intros e (?&?&?&?&?&?). repeat split; lra.
           ++ eapply Forall_impl; [|exact A2]. intros e (?&?&?&?&?&?). repeat split; lra.
           ++ eapply Forall_impl; [|exact A3]. intros e (?&?&?&?&?&?). repeat split; lra.
           ++ eapply Forall_impl; [|exact A4]. intros e (?&?&?&?&?&?). repeat split; lra.
        -- intros i j Hi Hj.
           assert (Xs : forall k, (inject_Z (k - n) * sw == inject_Z k * sw - hw)%Q).
           { intro k. unfold Z.sub. rewrite inject_Z_plus, inject_Z_opp. lra. }
           assert (Ys : forall k, (inject_Z (k - n) * sh == inject_Z k * sh - hh)%Q).
           { intro k. unfold Z.sub. rewrite inject_Z_plus, inject_Z_opp. lra. }
           destruct (Z_lt_le_dec i n) as [Hi1|Hi2], (Z_lt_le_dec j n) as [Hj1|Hj2].
           ++ destruct (L1 i j ltac:(lia) ltac:(lia)) as (e & Hin & Ex & Ey).
              exists e. split; [apply in_or_app; left; exact Hin|]. split; assumption.
           ++ destruct (L3 i (j - n) ltac:(lia) ltac:(lia)) as (e & Hin & Ex & Ey).
              exists e.
              split; [apply in_or_app; right; apply in_or_app; right; apply in_or_app; left;
                      exact Hin|].
              split; [exact Ex|]. rewrite Ey, Ys. ring.
           ++ destruct (L2 (i - n) j ltac:(lia) ltac:(lia)) as (e & Hin & Ex & Ey).
              exists e.
              split; [apply in_or_app; right; apply in_or_app; left; exact Hin|].
              split; [|exact Ey]. rewrite Ex, Xs. ring.
           ++ destruct (L4 (i - n) (j - n) ltac:(lia) ltac:(lia)) as (e & Hin & Ex & Ey).
              exists e.
              split; [apply in_or_app; right; apply in_or_app; right; apply in_or_app; right;
                      exact Hin|].
              split; [rewrite Ex, Xs; ring|rewrite Ey, Ys; ring].
    + apply orb_false_iff in E as [E1 E2].
      apply negb_false_iff in E1, E2. apply Qle_bool_iff in E1, E2.
      exists 1, W, H.
      split; [lia|]. split; [change (inject_Z 1) with 1%Q; ring|].
      split; [change (inject_Z 1) with 1%Q; ring|].
      split; [exact HW|]. split; [exact E1|]. split; [exact HH|]. split; [exact E2|].
      apply Leaf; assumption.
Qed.

End Lattice.

(** Storing cells that lie inside the grid succeeds, and every position
    written along the way ends with a value of one of the cells. *)
Lemma store_cells_within (lo hi : Q) (w h : Z) (saved : list Plasma.emitted) :
  forall (m0 : list (list Q)) (known : list (nat * nat)),
    has_dimensions m0 w h ->
    Forall (fun e => (0 <= ex e)%Q /\ (ex e < inject_Z w)%Q /\ (0 <= ey e)%Q
                     /\ (ey e < inject_Z h)%Q /\ (lo <= ez e)%Q /\ (ez e <= hi)%Q) saved ->
    (forall rc, In rc known -> (lo <= qcell m0 (fst rc) (snd rc) <= hi)%Q) ->
    exists m, for_each saved Plasma.store_cell m0 = Return m
              /\ (forall rc, In rc known -> (lo <= qcell m (fst rc) (snd rc) <= hi)%Q)
              /\ (forall e, In e saved ->
                    (lo <= qcell m (stored_row e) (stored_col e) <= hi)%Q).
Proof.
  induction saved as [|e rest IH]; intros m0 known Hd Hok Hknown.
  - exists m0. split; [reflexivity|]. split; [exact Hknown|]. intros e [].
  - inversion Hok as [|? ? (X0 & X1 & Y0 & Y1 & Z0 & Z1) Hrest]; subst.
    destruct Hd as [Hh Hw].
    pose proof (py_int_in_range (ey e) h Y0 Y1) as Hr.
    pose proof (py_int_in_range (ex e) w X0 X1) as Hc.
    assert (Hrow : (Z.to_nat (py_int (ey e)) < length m0)%nat) by (unfold len in Hh; lia).
    assert (Hrowlen : len (nth (Z.to_nat (py_int (ey e))) m0 []) = w).
    { rewrite Forall_forall in Hw. apply Hw. apply nth_In. exact Hrow. }
    cbn [for_each]. destruct e as [[x y] z]. unfold ex, ey, ez in *; cbn [fst snd] in *.
    unfold Plasma.store_cell at 1.
    rewrite (py_get_nth m0 (py_int y) []) by lia. cbn [bind].
    rewrite py_set_nth by lia. cbn [bind].
    rewrite py_set_nth by lia. cbn [bind].
    set (m1 := set_nth m0 (Z.to_nat (py_int y))
                 (set_nth (nth (Z.to_nat (py_int y)) m0 []) (Z.to_nat (py_int x)) z)).
    assert (Hcell : forall r cc,
               qcell m1 r cc
               = if (Nat.eqb r (Z.to_nat (py_int y)) && Nat.eqb cc (Z.to_nat (py_int x)))%bool
                 then z else qcell m0 r cc).
    { intros r cc. apply qcell_set; [exact Hrow|]. unfold len in Hrowlen. lia. }
    destruct (IH m1 ((Z.to_nat (py_int y), Z.to_nat (py_int x)) :: known)) as (m & Hm & Hk & Hs).
    + apply store_keeps_dimensions; [split; assumption | exact Hrow].
    + exact Hrest.
    + intros rc [<- | Hin]; cbn [fst snd].
      * rewrite Hcell, !Nat.eqb_refl. split; assumption.
      * rewrite Hcell. destruct (_ && _)%bool; [split; assumption | apply Hknown; exact Hin].
    + exists m. split; [exact Hm|]. split.
      * intros rc Hin. apply Hk. right; exact Hin.
      * intros e [<- | Hin]; [|apply Hs; exact Hin].
        apply (Hk (Z.to_nat (py_int y), Z.to_nat (py_int x))). left; reflexivity.
Qed.

(** Every cell lies between the smallest and the largest supplied
    corner, widened by what the displacements of the levels of the
    recursion can add: the leaves of the recursion form a lattice with a
    point in every cell, so that every cell is written. *)
Lemma plasma_cells_between (F : nat) (gen : Plasma.generator) (w h : Z)
  (ul ur ll lr lo hi : Q) (g : rng) :
  Plasma.displacement_min gen <= Plasma.displacement_max gen ->
  (0 < Plasma.minimum_separation_distance gen)%Q ->
  (Plasma.minimum_separation_distance gen <= 1)%Q ->
  1 <= w -> 1 <= h ->
  (inject_Z w <= Plasma.minimum_separation_distance gen * inject_Z (2 ^ Z.of_nat F))%Q ->
  (inject_Z h <= Plasma.minimum_separation_distance gen * inject_Z (2 ^ Z.of_nat F))%Q ->
  (lo <= ul <= hi)%Q -> (lo <= ur <= hi)%Q -> (lo <= ll <= hi)%Q -> (lo <= lr <= hi)%Q ->
  exists m,
    Plasma.generate_noise F gen 0 0 w h ul ur ll lr g = Return m
    /\ forall r c : nat, Z.of_nat r < h -> Z.of_nat c < w ->
         (lo + drift_below gen F <= qcell m r c <= hi + drift_above gen F)%Q.
Proof.
  intros Hrange Hmsd Hmsd1 Hw Hh HwF HhF Hul Hur Hll Hlr.
  assert (HW : (0 < inject_Z w)%Q) by (change 0%Q with (inject_Z 0); rewrite <- Zlt_Qlt; lia).
  assert (HH : (0 < inject_Z h)%Q) by (change 0%Q with (inject_Z 0); rewrite <- Zlt_Qlt; lia).
  destruct (plasma_recursion_lattice gen Hrange F (inject_Z w) (inject_Z h) HW HH HwF HhF)
    as (n & sw & sh & Hn & Esw & Esh & S1 & S2 & S3 & S4 & Hrec).
  destruct (Hrec 0%Q 0%Q ul ur ll lr lo hi [] g Hul Hur Hll Hlr)
    as (new & g' & Hrun & Hall & Hlattice).
  unfold Plasma.generate_noise. rewrite Hrun. cbn [bind app].
  destruct (store_cells_within (lo + drift_below gen F) (hi + drift_above gen F) w h new
              (map (fun _ => map (fun _ => (-1)%Q) (py_range 0 w)) (py_range 0 h)) [])
    as (m & Hm & _ & Hs).
  - apply blank_rows_dimensions; lia.
  - eapply Forall_impl; [|exact Hall]. intros e (?&?&?&?&?&?). repeat split; lra.
  - intros rc [].
  - exists m. split; [exact Hm|].
    intros r c Hr Hc.
    destruct (lattice_hits n w (Z.of_nat c) sw Esw S1 ltac:(lra) ltac:(lia))
      as (i & Hi & Hi1 & Hi2).
    destruct (lattice_hits n h (Z.of_nat r) sh Esh S3 ltac:(lra) ltac:(lia))
      as (j & Hj & Hj1 & Hj2).
    destruct (Hlattice i j Hi Hj) as (e & Hin & Ex & Ey).
    specialize (Hs e Hin). unfold stored_row, stored_col in Hs.
    rewrite (py_int_unique (ey e) (Z.of_nat r)) in Hs by (lia || lra).
    rewrite (py_int_unique (ex e) (Z.of_nat c)) in Hs by (lia || lra).
    rewrite !Nat2Z.id in Hs. exact Hs.
Qed.

(** X23: every cell of a grid of PlasmaFractalGenerator lies between the
    smallest and the largest supplied corner, widened by what the
    displacements of the levels of the recursion can add.  This holds for
    a grid filled from the origin with a separation distance in (0, 1]
    and a displacement range that is not empty: [generate_noise] returns
    once the recursion may go deep enough, and every cell is written
    (with corners above -1 and no negative displacement, none keeps the
    initial -1).  The corners are integers, and they and the
    displacements are small enough for every sum and average of the
    recursion to be exact in binary floating point. *)
Theorem plasma_cells_within_corners (F : nat) (gen : Plasma.generator) (w h : Z)
  (ul ur ll lr lo hi magnitude : Z) (g : rng) :
  Plasma.displacement_min gen <= Plasma.displacement_max gen ->
  (0 < Plasma.minimum_separation_distance gen)%Q ->
  (Plasma.minimum_separation_distance gen <= 1)%Q ->
  1 <= w -> 1 <= h ->
  (inject_Z w <= Plasma.minimum_separation_distance gen * inject_Z (2 ^ Z.of_nat F))%Q ->
  (inject_Z h <= Plasma.minimum_separation_distance gen * inject_Z (2 ^ Z.of_nat F))%Q ->
  lo <= ul <= hi -> lo <= ur <= hi -> lo <= ll <= hi -> lo <= lr <= hi ->
  Z.abs lo <= magnitude -> Z.abs hi <= magnitude ->
  exact_in_binary64 F
    (magnitude
     + Z.of_nat F * Z.max (Z.abs (Plasma.displacement_min gen))
                      (Z.abs (Plasma.displacement_max gen))) ->
  exists m,
    Plasma.generate_noise F gen 0 0 w h
      (inject_Z ul) (inject_Z ur) (inject_Z ll) (inject_Z lr) g = Return m
    /\ forall r c : nat, Z.of_nat r < h -> Z.of_nat c < w ->
         (inject_Z lo + drift_below gen F <= qcell m r c
          <= inject_Z hi + drift_above gen F)%Q.
Proof.
  intros Hrange Hmsd Hmsd1 Hw Hh HwF HhF Hul Hur Hll Hlr _ _ _.
  apply plasma_cells_between; try assumption; rewrite <- !Zle_Qle; assumption.
Qed.

Lemma plasma_cells_within_corners_witness :
  exists m,
    Plasma.generate_noise 3 (Plasma.Generator (-2) 5 (3 # 4)) 0 0 3 2
      (inject_Z 10) (inject_Z 20) (inject_Z 30) (inject_Z 40) [1; 2; 3]
    = Return m
    /\ forall r c : nat, Z.of_nat r < 2 -> Z.of_nat c < 3 ->
         (inject_Z 10 + drift_below (Plasma.Generator (-2) 5 (3 # 4)) 3 <= qcell m r c
          <= inject_Z 40 + drift_above (Plasma.Generator (-2) 5 (3 # 4)) 3)%Q.
Proof.
  apply (plasma_cells_within_corners 3 (Plasma.Generator (-2) 5 (3 # 4)) 3 2 10 20 30 40 10 40 40
           [1; 2; 3]); try (simpl; lia); try (unfold Qlt, Qle; simpl; lia).
  unfold exact_in_binary64. simpl. lia.
Defined.
